(** * Vuex ORM repository ([src/Repo.ts]): a shallow embedding

    The repository reads and writes plain JavaScript objects that live in
    the Vuex state.  Objects are shared by reference between the state, the
    query results and the records built while relations are loaded, so the
    embedding keeps an explicit object heap: a record is a location, and
    [record[name] = v] is an update of the heap at that location.

    Conventions
    - numbers are integers ([Z]); identifiers and counts are all the
      repository ever computes with;
    - only own data properties of records are modelled: reading a
      property of an array or of a primitive gives [undefined], and a
      named property written to an array is not kept;
    - a schema entry is an attribute or a group of fields.  The
      descriptor objects of the attributes are made by [./Attributes],
      which is not among the sources; the repository reads their
      properties [type], [value], [model], [foreignKey] and [otherKey].
      Where the code asks a schema entry for a name that the entry
      answers without the schema declaring it (one of these properties,
      or a member every object inherits) it goes on into an object
      whose layout the sources do not give: the embedding stops there
      with [Unmodelled] instead of guessing an outcome;
    - functions supplied by the caller are Rocq functions ([where]
      predicates) or scripts of builder calls (relation constraints);
    - the query engine [./Query] and [Model.normalize] are not among the
      sources: the engine is modelled from the specification, the
      normalizer is a field of the model. *)

From stdpp Require Import base gmap strings list fin_maps pretty sorting.
From Stdlib Require Import ZArith Ascii.

#[local] Set Warnings "-register-all".

Local Open Scope Z_scope.

(** ** Values, objects and the state *)

Definition loc := nat.

Inductive Value :=
| VUndefined
| VNull
| VBool (b : bool)
| VNum (n : Z)
| VStr (s : string)
| VRef (l : loc).

Global Instance Value_eq_dec : EqDecision Value.
Proof. solve_decision. Defined.

Inductive Obj :=
| ORecord (props : gmap string Value)
| OArray (elems : list Value).

(** A table is [state[entity].data]: stringified primary key to record,
    in the order in which the keys are enumerated. *)
Definition Table := list (string * Value).

Record State := mkState {
  heap : list Obj;
  tables : gmap string Table
}.

Definition table (s : State) (entity : string) : Table :=
  default [] (tables s !! entity).

Definition set_table (entity : string) (t : Table) (s : State) : State :=
  mkState (heap s) (<[entity := t]> (tables s)).

Definition set_heap (h : list Obj) (s : State) : State :=
  mkState h (tables s).

(** ** Computations: state, exceptions and fuel *)

(** [TypeError], [ReferenceError] and the lookup failure of a model are
    thrown by the code.  [Unmodelled] is not: it marks a run that left
    the part of the program the sources determine. *)
Inductive Error :=
| TypeError
| ReferenceError
| ModelNotFound (name : string)
| Unmodelled.

Inductive Result (A : Type) :=
| Ok (a : A) (s : State)
| Throw (e : Error)
| OutOfFuel.
Arguments Ok {A} a s.
Arguments Throw {A} e.
Arguments OutOfFuel {A}.

Definition M (A : Type) := State -> Result A.

Definition ret {A} (a : A) : M A := fun s => Ok a s.

Definition bind {A B} (m : M A) (k : A -> M B) : M B :=
  fun s =>
    match m s with
    | Ok a s' => k a s'
    | Throw e => Throw e
    | OutOfFuel => OutOfFuel
    end.

Definition throw {A} (e : Error) : M A := fun _ => Throw e.
Definition out_of_fuel {A} : M A := fun _ => OutOfFuel.
Definition get_state : M State := fun s => Ok s s.

Notation "'let*' x := m 'in' k" := (bind m (fun x => k))
  (at level 10, x name, m at level 100, k at level 200, only parsing).
Notation "'let*' ' p := m 'in' k" := (bind m (fun p => k))
  (at level 10, p pattern, m at level 100, k at level 200, only parsing).
Notation "'do' m 'then' k" := (bind m (fun _ => k))
  (at level 10, m at level 100, k at level 200, only parsing).

(** [_.forEach] / [_.map] / [_.reduce] over a collection, in order. *)
Fixpoint forEach {A} (f : A -> M unit) (l : list A) : M unit :=
  match l with
  | [] => ret tt
  | x :: l' => do f x then forEach f l'
  end.

Fixpoint mapM {A B} (f : A -> M B) (l : list A) : M (list B) :=
  match l with
  | [] => ret []
  | x :: l' => let* y := f x in let* ys := mapM f l' in ret (y :: ys)
  end.

Fixpoint reduce {A B} (f : B -> A -> M B) (l : list A) (acc : B) : M B :=
  match l with
  | [] => ret acc
  | x :: l' => let* acc' := f acc x in reduce f l' acc'
  end.

(** ** JavaScript primitives used by the repository *)

Definition truthy (v : Value) : bool :=
  match v with
  | VUndefined | VNull => false
  | VBool b => b
  | VNum n => negb (n =? 0)
  | VStr s => negb (String.eqb s "")
  | VRef _ => true
  end.

(** [a === b]; object references compare by identity. *)
Definition strict_eq (a b : Value) : bool := bool_decide (a = b).

(** [_.includes(xs, v)] *)
Definition includes (xs : list Value) (v : Value) : bool :=
  existsb (strict_eq v) xs.

(** The own properties of a value: those of the record it refers to. *)
Definition props (s : State) (v : Value) : gmap string Value :=
  match v with
  | VRef l =>
      match heap s !! l with
      | Some (ORecord ps) => ps
      | _ => ∅
      end
  | _ => ∅
  end.

(** [v[k]] for a value that is neither [null] nor [undefined]. *)
Definition prop (s : State) (v : Value) (k : string) : Value :=
  default VUndefined (props s v !! k).

Definition nullish (v : Value) : bool :=
  match v with
  | VUndefined | VNull => true
  | _ => false
  end.

(** [v[k]]: a property read throws on [null] and [undefined]. *)
Definition getProp (v : Value) (k : string) : M Value :=
  fun s => if nullish v then Throw TypeError else Ok (prop s v k) s.

(** [v[k] = x] (strict mode): only objects can be written to. *)
Definition setProp (v : Value) (k : string) (x : Value) : M unit :=
  fun s =>
    match v with
    | VRef l =>
        match heap s !! l with
        | Some (ORecord ps) =>
            Ok tt (set_heap (<[l := ORecord (<[k := x]> ps)]> (heap s)) s)
        | Some (OArray _) => Ok tt s
        | None => Throw TypeError
        end
    | _ => Throw TypeError
    end.

Definition alloc (o : Obj) : M Value :=
  fun s => Ok (VRef (length (heap s))) (set_heap (heap s ++ [o]) s).

(** [_.isEmpty(v)] *)
Definition isEmpty (s : State) (v : Value) : bool :=
  match v with
  | VStr x => String.eqb x ""
  | VRef l =>
      match heap s !! l with
      | Some (ORecord ps) => bool_decide (ps = ∅)
      | Some (OArray xs) => bool_decide (xs = [])
      | None => true
      end
  | _ => true
  end.

(** [String(v)] for the values used as table keys. *)
Definition toKey (v : Value) : string :=
  match v with
  | VUndefined => "undefined"
  | VNull => "null"
  | VBool true => "true"
  | VBool false => "false"
  | VNum n => pretty n
  | VStr s => s
  | VRef _ => "[object Object]"
  end.

(** ** Schemas and the model registry *)

(** The static members of a model class that the repository reads from a
    resolved relation. *)
Module Class.
Record t := mk {
  entity : string;
  primaryKey : string
}.
End Class.

(** [attr.model] is a model class or the name of an entity. *)
Inductive RelModel :=
| ByClass (c : Class.t)
| ByName (s : string).

(** Field descriptors, tagged by [AttrTypes]. *)
Inductive Attr :=
| AttrValue (value : Value)
| HasOne (model : RelModel) (foreignKey : string)
| BelongsTo (model : RelModel) (foreignKey : string)
| HasMany (model : RelModel) (foreignKey : string)
| HasManyBy (model : RelModel) (foreignKey : string) (otherKey : string).

(** A schema entry is an attribute or a nested group of fields
    ([Attrs.isAttribute] / [Attrs.isFields]). *)
Inductive Field :=
| FAttr (a : Attr)
| FFields (fs : list (string * Field)).

Definition Fields := list (string * Field).

Fixpoint field_lookup (fs : Fields) (name : string) : option Field :=
  match fs with
  | [] => None
  | (k, f) :: fs' => if String.eqb k name then Some f else field_lookup fs' name
  end.

(** The output of [Model.normalize]: entity name to (key to record). *)
Definition NormalizedData := list (string * list (string * Value)).

Record Model := mkModel {
  class : Class.t;
  fields : Fields;
  normalize : Value -> M NormalizedData
}.

(** What the repository finds around it: the models registered on the
    connection [Container.connection(state.name)], and the global
    variable [name] of the host environment ([None] when it is not
    bound). *)
Record Env := mkEnv {
  registry : gmap string Model;
  global_name : option string
}.

(** ** The query engine ([./Query], not among the sources) *)

Module Query.

(** Modelled from the spec: the directions [asc] / [desc] of an order
    of the missing query engine. *)
Inductive OrderDirection := Asc | Desc.

(** Modelled from the spec: the three forms of a predicate of the
    missing query engine, [(fieldName, value)], [(fieldName,
    predicateFn)] and a predicate on the whole record. *)
Inductive Clause :=
| WhereEq (field : string) (value : Value)
| WhereTest (field : string) (test : Value -> bool)
| WhereRecord (test : gmap string Value -> bool).

(** Modelled from the spec: a predicate belongs to the AND-chained or to
    the OR-chained group of the missing query engine. *)
Inductive Boolean := And | Or.

Record Where := mkWhere {
  clause : Clause;
  boolean : Boolean
}.

(** Modelled from the spec: the condition of [update] and [delete] in
    the missing query engine, a primary-key value or a predicate. *)
Inductive Condition :=
| CondKey (key : Value)
| CondTest (test : gmap string Value -> bool).

(** Modelled from the spec: the configuration that the missing query
    engine accumulates, filters, sort keys, offset and limit, for one
    entity. *)
Record t := mk {
  entity : string;
  wheres : list Where;
  orders : list (string * OrderDirection);
  offset_ : nat;
  limit_ : option nat
}.

(** Modelled from the spec: the constructor [new Query(state, entity)]
    of the missing query engine; a query is configured against one
    entity's table and starts with no filter, no order, offset 0 and
    no limit. *)
Definition new (entity : string) : t := mk entity [] [] 0%nat None.

(** Modelled from the spec: the chained call [where] of the missing
    query engine, adding a predicate to the AND group. *)
Definition where_ (c : Clause) (q : t) : t :=
  mk (entity q) (wheres q ++ [mkWhere c And]) (orders q) (offset_ q) (limit_ q).

(** Modelled from the spec: the chained call [orWhere] of the missing
    query engine, adding a predicate to the OR group. *)
Definition orWhere (c : Clause) (q : t) : t :=
  mk (entity q) (wheres q ++ [mkWhere c Or]) (orders q) (offset_ q) (limit_ q).

(** Modelled from the spec: the chained call [orderBy] of the missing
    query engine, adding a sort key after those already declared. *)
Definition orderBy (field : string) (d : OrderDirection) (q : t) : t :=
  mk (entity q) (wheres q) (orders q ++ [(field, d)]) (offset_ q) (limit_ q).

(** Modelled from the spec: the chained calls [offset] and [limit] of
    the missing query engine. *)
Definition offset (n : nat) (q : t) : t :=
  mk (entity q) (wheres q) (orders q) n (limit_ q).

Definition limit (n : nat) (q : t) : t :=
  mk (entity q) (wheres q) (orders q) (offset_ q) (Some n).

(** Modelled from the spec: one predicate of the missing query engine
    on one record, equality [record[field] === value], a test of the
    field's value, or a test of the record. *)
Definition eval_clause (s : State) (r : Value) (c : Clause) : bool :=
  match c with
  | WhereEq f v => strict_eq (prop s r f) v
  | WhereTest f p => p (prop s r f)
  | WhereRecord p => p (props s r)
  end.

(** Modelled from the spec: membership of a predicate in the AND group
    of the missing query engine. *)
Definition is_and (w : Where) : bool :=
  match boolean w with And => true | Or => false end.

(** Modelled from the spec: filtering in the missing query engine,
    "final inclusion = (all AND predicates pass) OR (any OR predicate
    passes)", every record passing when there is no predicate. *)
Definition matches (s : State) (ws : list Where) (l : Value) : bool :=
  forallb (fun w => eval_clause s l (clause w)) (List.filter is_and ws)
  || existsb (fun w => eval_clause s l (clause w)) (List.filter (fun w => negb (is_and w)) ws).

(** Modelled from the spec: the order of the missing query engine on
    the values of a sort key, numbers by size and strings
    alphabetically; other values do not order. *)
Definition value_ltb (a b : Value) : bool :=
  match a, b with
  | VNum x, VNum y => x <? y
  | VStr x, VStr y => String.ltb x y
  | _, _ => false
  end.

(** Modelled from the spec: [l1] sorts strictly before [l2] under the
    declared keys of the missing query engine, leftmost key first. *)
Fixpoint before (s : State) (os : list (string * OrderDirection)) (l1 l2 : Value) : bool :=
  match os with
  | [] => false
  | (f, d) :: os' =>
      let a := prop s l1 f in
      let b := prop s l2 f in
      let '(lt, gt) := match d with
                       | Asc => (value_ltb a b, value_ltb b a)
                       | Desc => (value_ltb b a, value_ltb a b)
                       end in
      if lt then true else if gt then false else before s os' l1 l2
  end.

(** Modelled from the spec: insertion that keeps records with equal
    keys in their input order, for the stable sort of the missing query
    engine. *)
Fixpoint insert_sorted (s : State) (os : list (string * OrderDirection))
    (x : Value) (ls : list Value) : list Value :=
  match ls with
  | [] => [x]
  | y :: ls' => if before s os y x then y :: insert_sorted s os x ls' else x :: ls
  end.

(** Modelled from the spec: ordering in the missing query engine, a
    stable multi-key sort with left-to-right precedence. *)
Definition sort (s : State) (os : list (string * OrderDirection)) (ls : list Value) : list Value :=
  foldr (insert_sorted s os) [] ls.

(** Modelled from the spec: [limit] of the missing query engine caps
    the result count after the offset. *)
Definition paginate_limit {A} (n : option nat) (ls : list A) : list A :=
  match n with
  | Some k => take k ls
  | None => ls
  end.

(** Modelled from the spec: the records of the missing query engine
    after filter, sort and offset. *)
Definition process (q : t) (s : State) : list Value :=
  drop (offset_ q)
    (sort s (orders q)
       (List.filter (matches s (wheres q)) (map snd (table s (entity q))))).

(** Modelled from the spec: [get()] of the missing query engine, all
    matches after filter, sort, offset and limit, as the stored record
    objects themselves ("raw flat records"). *)
Definition get (q : t) (s : State) : list Value :=
  paginate_limit (limit_ q) (process q s).

(** Modelled from the spec: the direct key lookup in a table of the
    missing query engine. *)
Fixpoint key_lookup (t : Table) (k : string) : option Value :=
  match t with
  | [] => None
  | (k', l) :: t' => if String.eqb k' k then Some l else key_lookup t' k
  end.

(** Modelled from the spec: [first(id?)] of the missing query engine;
    with an id a direct key lookup in the table, otherwise the first
    record after filter, sort and offset; [null] when there is none. *)
Definition first (q : t) (id : Value) (s : State) : Value :=
  match id with
  | VUndefined => default VNull (head (process q s))
  | _ => default VNull (key_lookup (table s (entity q)) (toKey id))
  end.

(** Modelled from the spec: the store operation [create(entity,
    records)] of the missing query engine, "replace entity's entire
    table with records". *)
Definition create (q : t) (records : Table) : M unit :=
  fun s => Ok tt (set_table (entity q) records s).

(** Modelled from the spec: the upsert by key of the missing query
    engine, a full replace of the record at that key. *)
Fixpoint upsert (t : Table) (k : string) (l : Value) : Table :=
  match t with
  | [] => [(k, l)]
  | (k', l') :: t' => if String.eqb k' k then (k, l) :: t' else (k', l') :: upsert t' k l
  end.

(** Modelled from the spec: the store operation [insert(entity,
    records)] of the missing query engine, an upsert that replaces the
    record at each key. *)
Definition insert (q : t) (records : Table) : M unit :=
  fun s =>
    Ok tt (set_table (entity q)
             (foldl (fun t kl => upsert t (fst kl) (snd kl)) (table s (entity q)) records) s).

(** Modelled from the spec: whether a table entry is selected by a
    condition of the missing query engine, by its key or by the
    predicate. *)
Definition selected (s : State) (c : Condition) (kl : string * Value) : bool :=
  match c with
  | CondKey v => String.eqb (fst kl) (toKey v)
  | CondTest p => p (props s (snd kl))
  end.

(** Modelled from the spec: the shallow merge of [data] onto a stored
    record in the missing query engine. *)
Definition merge (data : gmap string Value) (r : Value) (h : list Obj) : list Obj :=
  match r with
  | VRef l =>
      match h !! l with
      | Some (ORecord ps) => <[l := ORecord (data ∪ ps)]> h
      | _ => h
      end
  | _ => h
  end.

(** Modelled from the spec: the store operation [update(entity, data,
    condition)] of the missing query engine; the records selected by
    the key or by the predicate get [data] shallow-merged in. *)
Definition update (q : t) (data : Value) (c : Condition) : M unit :=
  fun s =>
    let targets := map snd (List.filter (selected s c) (table s (entity q))) in
    Ok tt (set_heap (foldr (merge (props s data)) (heap s) targets) s).

(** Modelled from the spec: the store operation [delete(entity,
    condition)] of the missing query engine, removing the matching
    entries. *)
Definition delete (q : t) (c : Condition) : M unit :=
  fun s =>
    Ok tt (set_table (entity q)
             (List.filter (fun kl => negb (selected s c kl)) (table s (entity q))) s).

(** Modelled from the spec: the store operation [deleteAll(entity)] of
    the missing query engine, emptying the table. *)
Definition deleteAll (q : t) : M unit :=
  fun s => Ok tt (set_table (entity q) [] s).

End Query.

(** ** The repository ([src/Repo.ts]) *)

Module Repo.

Import Query.

(** [name.split('.')] and [segments.join('.')]. *)
Fixpoint split (s : string) : list string :=
  match s with
  | EmptyString => [EmptyString]
  | String c s' =>
      if Ascii.eqb c "."%char then EmptyString :: split s'
      else match split s' with
           | h :: t => String c h :: t
           | [] => [String c EmptyString]
           end
  end.

Definition join (segments : list string) : string := String.concat "." segments.

Inductive CountOp := CountEq | CountGt | CountGe | CountLt | CountLe.

Definition compare_count (op : CountOp) (c n : Z) : bool :=
  match op with
  | CountEq => c =? n
  | CountGt => c >? n
  | CountGe => c >=? n
  | CountLt => c <? n
  | CountLe => c <=? n
  end.

(** What a constraint function returns: nothing, a boolean, or the
    comparison [query.count() op n] that [hasRelation] builds. *)
Inductive Return :=
| RetVoid
| RetBool (b : bool)
| RetCount (op : CountOp) (n : Z).

(** A constraint [(query: Repo) => void | boolean] is a script: builder
    calls on the query it is given, then a return.  [NotCallable] is a
    value that was cast to a constraint but is not a function. *)
Inductive Constraint :=
| Script (calls : list Call) (result : Return)
| NotCallable
with Call :=
| CallWhere (c : Clause)
| CallOrWhere (c : Clause)
| CallOrderBy (field : string) (d : OrderDirection)
| CallOffset (n : nat)
| CallLimit (n : nat)
| CallWith (name : string) (constraint : option Constraint).

Record Relation := mkRelation {
  rel_name : string;
  rel_constraint : option Constraint
}.

Record t := mk {
  name : string;
  entity : Model;
  wrap : bool;
  load : list Relation;
  query : Query.t
}.

(** An element of a result: a plain record (or [null]), or the model
    instance [new this.entity(record)]. *)
Inductive Item :=
| Plain (record : Value)
| Wrapped (entity : string) (record : Value).

Definition record_of (i : Item) : Value :=
  match i with
  | Plain v => v
  | Wrapped _ v => v
  end.

(** The second argument of [has] / [hasNot]:
    [number | string | Constraint | null]. *)
Inductive HasArg :=
| HasNull
| HasNumber (n : Z)
| HasString (s : string)
| HasFn (c : Constraint).

Inductive SaveMethod := Create | Insert.

Section WithEnv.

Variable env : Env.

Definition model (name : string) : M Model :=
  match registry env !! name with
  | Some m => ret m
  | None => throw (ModelNotFound name)
  end.

Definition new (entity : string) (wrap : bool) : M t :=
  let* m := model entity in
  ret (mk entity m wrap [] (Query.new entity)).

Definition primaryKey (r : t) : M string :=
  let* m := model (name r) in
  ret (Class.primaryKey (class m)).

Definition set_query (q : Query.t) (r : t) : t :=
  mk (name r) (entity r) (wrap r) (load r) q.

Definition set_wrap (w : bool) (r : t) : t :=
  mk (name r) (entity r) w (load r) (query r).

Definition where_ (c : Clause) (r : t) : t := set_query (Query.where_ c (query r)) r.
Definition orWhere (c : Clause) (r : t) : t := set_query (Query.orWhere c (query r)) r.
Definition orderBy (f : string) (d : OrderDirection) (r : t) : t :=
  set_query (Query.orderBy f d (query r)) r.
Definition offset (n : nat) (r : t) : t := set_query (Query.offset n (query r)) r.
Definition limit (n : nat) (r : t) : t := set_query (Query.limit n (query r)) r.

Definition with_ (name : string) (constraint : option Constraint) (r : t) : t :=
  mk (Repo.name r) (entity r) (wrap r) (load r ++ [mkRelation name constraint]) (query r).

Definition call (c : Call) (r : t) : t :=
  match c with
  | CallWhere w => where_ w r
  | CallOrWhere w => orWhere w r
  | CallOrderBy f d => orderBy f d r
  | CallOffset n => offset n r
  | CallLimit n => limit n r
  | CallWith n k => with_ n k r
  end.

(** [resolveRelation]: the free variable [name] in its last line is
    the global of the host environment. *)
Definition resolveRelation (m : RelModel) : M Class.t :=
  match m with
  | ByClass c => ret c
  | ByName _ =>
      match global_name env with
      | Some name => let* m := model name in ret (class m)
      | None => throw ReferenceError
      end
  end.


(** [{ ...base }] *)
Definition spread (base : Value) : M Value :=
  fun s => alloc (ORecord (props s base)) s.

(** The elements of [v] when it is an array; calling [.map] on
    anything else throws. *)
Definition elements (v : Value) : M (list Value) :=
  fun s =>
    match v with
    | VRef l =>
        match heap s !! l with
        | Some (OArray xs) => Ok xs s
        | _ => Throw TypeError
        end
    | _ => Throw TypeError
    end.

Definition has_field (fs : Fields) (name : string) : bool :=
  bool_decide (is_Some (field_lookup fs name)).

(** The properties of a descriptor object that the repository reads:
    [attr.type], [attr.value], [attr.model], [attr.foreignKey] and
    [attr.otherKey]. *)
Definition descriptor_property (name : string) : bool :=
  existsb (String.eqb name) ["type"; "value"; "model"; "foreignKey"; "otherKey"].

(** The members every object inherits from [Object.prototype]; asked
    for one of them, [f[name]] is truthy whatever [f] declares. *)
Definition inherited_property (name : string) : bool :=
  existsb (String.eqb name)
    ["constructor"; "hasOwnProperty"; "isPrototypeOf"; "propertyIsEnumerable";
     "toLocaleString"; "toString"; "valueOf"; "__proto__";
     "__defineGetter__"; "__defineSetter__"; "__lookupGetter__"; "__lookupSetter__"].

Section Knot.

(** [get()] and [first(id?)] of the repositories created while
    relations are loaded. *)
Variable get_rec : t -> M (list Item).
Variable first_rec : t -> Value -> M Item.

(** [count()] *)
Definition count_with (r : t) : M (nat * t) :=
  let r' := set_wrap false r in
  let* xs := get_rec r' in
  ret (length xs, r').

(** [relation.constraint(query)] *)
Definition apply_constraint (c : Constraint) (q : t) : M (t * option bool) :=
  match c with
  | NotCallable => throw TypeError
  | Script calls result =>
      let q' := foldl (fun q c => call c q) q calls in
      match result with
      | RetVoid => ret (q', None)
      | RetBool b => ret (q', Some b)
      | RetCount op n =>
          let* '(c, q'') := count_with q' in
          ret (q'', Some (compare_count op (Z.of_nat c) n))
      end
  end.

Definition addConstraint (query : t) (relation : Relation) : M t :=
  match split (rel_name relation) with
  | [_] =>
      match rel_constraint relation with
      | None => ret query
      | Some c =>
          let* '(query', result) := apply_constraint c query in
          match result with
          | Some b => ret (where_ (WhereRecord (fun _ => b)) query')
          | None => ret query'
          end
      end
  | relations => ret (with_ (join (tail relations)) None query)
  end.

Definition loadHasOneRelation (record : Value) (m : RelModel) (foreignKey : string)
    (relation : Relation) : M Value :=
  let* c := resolveRelation m in
  let* q := new (Class.entity c) false in
  let* id := getProp record "id" in
  let* q := addConstraint (where_ (WhereEq foreignKey id) q) relation in
  let* i := first_rec q VUndefined in
  ret (record_of i).

Definition loadBelongsToRelation (record : Value) (m : RelModel) (foreignKey : string)
    (relation : Relation) : M Value :=
  let* c := resolveRelation m in
  let* id := getProp record foreignKey in
  let* q := new (Class.entity c) false in
  let* q := addConstraint q relation in
  let* i := first_rec q id in
  ret (record_of i).

Definition loadHasManyRelation (record : Value) (m : RelModel) (foreignKey : string)
    (relation : Relation) : M Value :=
  let* c := resolveRelation m in
  let* q := new (Class.entity c) false in
  let* id := getProp record "id" in
  let* q := addConstraint (where_ (WhereEq foreignKey id) q) relation in
  let* xs := get_rec q in
  alloc (OArray (map record_of xs)).

Definition loadHasManyByRelation (record : Value) (m : RelModel) (foreignKey otherKey : string)
    (relation : Relation) : M Value :=
  let* c := resolveRelation m in
  let* keys := getProp record foreignKey in
  let* ids := elements keys in
  let* xs := mapM (fun id =>
                let* q := new (Class.entity c) false in
                let* q := addConstraint (where_ (WhereEq otherKey id) q) relation in
                let* i := first_rec q VUndefined in
                ret (record_of i)) ids in
  alloc (OArray xs).

Definition loadAttr (base : Value) (a : Attr) (relation : Relation) : M (option Value) :=
  match a with
  | AttrValue _ => ret None
  | HasOne m fk => let* v := loadHasOneRelation base m fk relation in ret (Some v)
  | BelongsTo m fk => let* v := loadBelongsToRelation base m fk relation in ret (Some v)
  | HasMany m fk => let* v := loadHasManyRelation base m fk relation in ret (Some v)
  | HasManyBy m fk ok => let* v := loadHasManyByRelation base m fk ok relation in ret (Some v)
  end.

(** [loadRelations(base, load, record, fields)] with [fields] given
    as a schema entry; [record] is [undefined] when the caller does
    not pass it.

    When [fields[name]] is not an attribute the code tests [f[name]] on
    every entry [f] of the schema and goes on into each entry that
    answers.  A group of fields answers to the fields it declares, and
    the embedding follows the code into it.  A descriptor answers to
    its own properties, and every entry answers to the inherited
    members: there the code takes a descriptor, or a group under a name
    it does not declare, for the schema, and what follows depends on
    the layout of objects made by [./Attributes]; the embedding stops
    with [Unmodelled]. *)
Fixpoint loadRelationsIn (schema : Field) (base : Value) (load : list Relation)
    (record : Value) {struct schema} : M Value :=
  let* _record := if truthy record then ret record else spread base in
  match schema with
  | FAttr _ => throw Unmodelled
  | FFields fields =>
      reduce (fun record relation =>
        let name := hd EmptyString (split (rel_name relation)) in
        match field_lookup fields name with
        | Some (FAttr attr) =>
            let* loaded := loadAttr base attr relation in
            match loaded with
            | Some v => do setProp record name v then ret record
            | None => ret record
            end
        | _ =>
            do forEach (fun '(key, f) =>
                 match f with
                 | FFields sub =>
                     if has_field sub name then
                       let* nested := getProp record key in
                       let* v := loadRelationsIn f base load nested in
                       setProp record key v
                     else if inherited_property name then throw Unmodelled
                     else ret tt
                 | FAttr _ =>
                     if descriptor_property name || inherited_property name
                     then throw Unmodelled
                     else ret tt
                 end) fields
            then ret record
        end) load _record
  end.

Definition loadRelations (fields : Fields) (base : Value) (load : list Relation)
    (record : Value) : M Value :=
  loadRelationsIn (FFields fields) base load record.

Definition item (r : t) (queryItem : Value) : M Item :=
  if negb (truthy queryItem) then ret (Plain VNull)
  else
    let* item := match load r with
                 | [] => ret queryItem
                 | _ => loadRelations (fields (entity r)) queryItem (load r) VUndefined
                 end in
    if negb (wrap r) then ret (Plain item)
    else ret (Wrapped (Class.entity (class (entity r))) item).

Definition collect (r : t) (collection : list Value) : M (list Item) :=
  match collection with
  | [] => ret []
  | _ =>
      let* items := match load r with
                    | [] => ret collection
                    | _ => mapM (fun data =>
                             loadRelations (fields (entity r)) data (load r) VUndefined)
                             collection
                    end in
      if negb (wrap r) then ret (map Plain items)
      else ret (map (Wrapped (Class.entity (class (entity r)))) items)
  end.

End Knot.

(** [get()] and [first(id?)].  One unit of fuel is spent each time a
    repository is executed, so [fuel] bounds how deep relation
    loading may nest repositories. *)
Fixpoint get (fuel : nat) (r : t) : M (list Item) :=
  match fuel with
  | O => out_of_fuel
  | S n => fun s => collect (get n) (first n) r (Query.get (query r) s) s
  end
with first (fuel : nat) (r : t) (id : Value) : M Item :=
  match fuel with
  | O => out_of_fuel
  | S n => fun s => item (get n) (first n) r (Query.first (query r) id s) s
  end.

Definition all (fuel : nat) (r : t) : M (list Item) := get fuel r.

Definition find (fuel : nat) (r : t) (id : Value) : M Item := first fuel r id.

(** [count()]: the number and the repository as the call leaves it. *)
Definition count (fuel : nat) (r : t) : M (nat * t) := count_with (get fuel) r.

(** [hasRelation(record, name, constraint, count)] *)
Definition has_constraint (constraint : HasArg) (count : option Z) : option Constraint :=
  match constraint, count with
  | HasNumber n, _ => Some (Script [] (RetCount CountEq n))
  | HasString ">", Some c => Some (Script [] (RetCount CountGt c))
  | HasString ">=", Some c => Some (Script [] (RetCount CountGe c))
  | HasString "<", Some c => Some (Script [] (RetCount CountLt c))
  | HasString "<=", Some c => Some (Script [] (RetCount CountLe c))
  | HasString "", _ => None
  | HasString _, _ => Some NotCallable
  | HasFn c, _ => Some c
  | HasNull, _ => None
  end.

Definition hasRelation (fuel : nat) (r : t) (record : Value) (name : string)
    (constraint : HasArg) (count : option Z) : M bool :=
  let _constraint := has_constraint constraint count in
  let* data := loadRelations (get fuel) (first fuel) (fields (entity r)) record
                 [mkRelation name _constraint] VUndefined in
  let* v := getProp data name in
  fun s => Ok (negb (isEmpty s v)) s.

Definition addHasConstraint (fuel : nat) (name : string) (constraint : HasArg)
    (count : option Z) (existence : bool) (r : t) : M t :=
  let* id := primaryKey r in
  let* s := get_state in
  let items := Query.get (Query.new (Repo.name r)) s in
  let* ids := reduce (fun ids item =>
                 let* b := hasRelation fuel r item name constraint count in
                 if Bool.eqb b existence then
                   let* key := getProp item id in ret (ids ++ [key])
                 else ret ids) items [] in
  ret (where_ (WhereTest id (includes ids)) r).

Definition has (fuel : nat) (name : string) (constraint : HasArg) (count : option Z)
    (r : t) : M t :=
  addHasConstraint fuel name constraint count true r.

Definition hasNot (fuel : nat) (name : string) (constraint : HasArg) (count : option Z)
    (r : t) : M t :=
  addHasConstraint fuel name constraint count false r.

(** The body of the loop of [buildRecord] for one entry of the schema;
    [build] is [buildRecord] itself, called for a nested group. *)
Definition buildField (build : Field -> Value -> Value -> M Value)
    (data newRecord : Value) (entry : string * Field) : M unit :=
  let '(name, f) := entry in
  match f with
  | FFields _ =>
      let* d := getProp data name in
      let* newData := if truthy d then ret d else alloc (ORecord ∅) in
      let* old := getProp newRecord name in
      let* nested := build f newData old in
      setProp newRecord name nested
  | FAttr attr =>
      let* d := getProp data name in
      if negb (strict_eq d VUndefined) then setProp newRecord name d
      else match attr with
           | AttrValue value => setProp newRecord name value
           | HasOne _ _ | BelongsTo _ _ => setProp newRecord name VNull
           | HasMany _ _ | HasManyBy _ _ _ =>
               let* empty := alloc (OArray []) in
               setProp newRecord name empty
           end
  end.

(** [buildRecord(data, fields, record = {})] with [fields] given as a
    schema entry. *)
Fixpoint buildRecordIn (schema : Field) (data : Value) (record : Value)
    {struct schema} : M Value :=
  let* newRecord := match record with
                    | VUndefined => alloc (ORecord ∅)
                    | _ => ret record
                    end in
  match schema with
  | FAttr _ => ret newRecord
  | FFields fields =>
      do forEach (buildField buildRecordIn data newRecord) fields
      then ret newRecord
  end.

Definition buildRecord (data : Value) (fields : Fields) (record : Value) : M Value :=
  buildRecordIn (FFields fields) data record.

Definition fill (data : Value) (entity : string) : M Value :=
  let* m := model entity in
  buildRecord data (fields m) VUndefined.

Definition normalize_ (r : t) (data : Value) : M NormalizedData :=
  let* m := model (name r) in
  normalize m data.

Definition save (method : SaveMethod) (data : Value) (r : t) : M unit :=
  let* normalizedData := normalize_ r data in
  match method, normalizedData with
  | Create, [] => Query.create (query r) []
  | _, _ =>
      forEach (fun '(entity, data) =>
        let* filledData := mapM (fun '(key, record) =>
                              let* filled := fill record entity in
                              ret (key, filled)) data in
        let q := if String.eqb entity (name r) then query r else Query.new entity in
        match method with
        | Create => Query.create q filledData
        | Insert => Query.insert q filledData
        end) normalizedData
  end.

Definition create (data : Value) (r : t) : M unit := save Create data r.

Definition insert (data : Value) (r : t) : M unit := save Insert data r.

(** [!condition] for the optional condition of [update]. *)
Definition no_condition (condition : option Condition) : bool :=
  match condition with
  | None => true
  | Some (CondKey v) => negb (truthy v)
  | Some (CondTest _) => false
  end.

Definition update (data : Value) (condition : option Condition) (r : t) : M unit :=
  if no_condition condition then
    let* key := getProp data (Class.primaryKey (class (entity r))) in
    if truthy key then Query.update (query r) data (CondKey key) else ret tt
  else
    match condition with
    | Some c => Query.update (query r) data c
    | None => ret tt
    end.

Definition delete (condition : Condition) (r : t) : M unit :=
  Query.delete (query r) condition.

Definition deleteAll (r : t) : M unit := Query.deleteAll (query r).

End WithEnv.

(** The static entry points ([Repo.all(state, entity, wrap)] and the
    like): each makes a repository for the entity and calls the method
    of the same name on it.  An argument the caller leaves out is
    [None]. *)
Module Static.

Section WithEnv.

Variable env : Env.

Definition query (name : string) (wrap : option bool) : M t :=
  new env name (default true wrap).

Definition all (fuel : nat) (entity : string) (wrap : option bool) : M (list Item) :=
  let* r := new env entity (default true wrap) in
  get env fuel r.

Definition find (fuel : nat) (entity : string) (id : Value) (wrap : option bool) : M Item :=
  let* r := new env entity (default true wrap) in
  first env fuel r id.

Definition count (fuel : nat) (entity : string) (wrap : option bool) : M nat :=
  let* r := new env entity (default false wrap) in
  let* '(n, _) := Repo.count env fuel r in
  ret n.

Definition create (entity : string) (data : Value) : M unit :=
  let* r := new env entity true in
  Repo.create env data r.

Definition insert (entity : string) (data : Value) : M unit :=
  let* r := new env entity true in
  Repo.insert env data r.

Definition update (entity : string) (data : Value) (condition : option Condition) : M unit :=
  let* r := new env entity true in
  Repo.update data condition r.

Definition delete (entity : string) (condition : Condition) : M unit :=
  let* r := new env entity true in
  Repo.delete condition r.

Definition model (name : string) : M Model := Repo.model env name.

(** [Container.connection(state.name).models()], as the list of its
    keys and values. *)
Definition models : M (list (string * Model)) :=
  ret (map_to_list (registry env)).

Definition primaryKey (name : string) : M string :=
  let* m := model name in
  ret (Class.primaryKey (class m)).

(** [if (state[entityName]) { state[entityName].data = {} }] *)
Definition clear (entityName : string) : M unit :=
  fun s =>
    match tables s !! entityName with
    | Some _ => Ok tt (set_table entityName [] s)
    | None => Ok tt s
    end.

(** [deleteAll(state, entity?)]: [!entity] holds for an entity that is
    left out and for the empty string. *)
Definition deleteAll (entity : option string) : M unit :=
  match entity with
  | Some (String c e) =>
      let* r := new env (String c e) true in
      Repo.deleteAll r
  | _ =>
      let* models := models in
      forEach (fun '(key, m) => clear (Class.entity (class m))) models
  end.

End WithEnv.

End Static.

End Repo.

(** ** Observing the state *)

(** The value a reference stands for, read out of the heap down to a
    given depth. *)
Inductive Tree :=
| TUndefined
| TNull
| TBool (b : bool)
| TNum (n : Z)
| TStr (s : string)
| TObject (props : list (string * Tree))
| TArray (elems : list Tree)
| TDeeper.

Definition key_le (x y : string * Value) : Prop := String.leb (fst x) (fst y) = true.

Global Instance key_le_dec (x y : string * Value) : Decision (key_le x y).
Proof. unfold key_le. apply _. Defined.

(** The properties of a record, in the order of their names. *)
Definition sorted_props (ps : gmap string Value) : list (string * Value) :=
  merge_sort key_le (map_to_list ps).

Fixpoint snapshot (depth : nat) (s : State) (v : Value) : Tree :=
  match v with
  | VUndefined => TUndefined
  | VNull => TNull
  | VBool b => TBool b
  | VNum n => TNum n
  | VStr x => TStr x
  | VRef l =>
      match depth with
      | O => TDeeper
      | S d =>
          match heap s !! l with
          | Some (ORecord ps) =>
              TObject (map (fun kv => (fst kv, snapshot d s (snd kv))) (sorted_props ps))
          | Some (OArray xs) => TArray (map (snapshot d s) xs)
          | None => TUndefined
          end
      end
  end.

(** The record stored under [key] in the table of [entity]. *)
Definition stored (s : State) (entity key : string) : Value :=
  default VUndefined (Query.key_lookup (table s entity) key).

(** A reference is allocated when it points into the heap; a state is
    well formed when every reference held by an object is allocated and
    every entry of a table is a record. *)
Definition allocated (s : State) (v : Value) : bool :=
  match v with
  | VRef l => bool_decide (l < length (heap s))%nat
  | _ => true
  end.

Definition obj_values (o : Obj) : list Value :=
  match o with
  | ORecord ps => map snd (map_to_list ps)
  | OArray xs => xs
  end.

Definition is_record (s : State) (v : Value) : bool :=
  match v with
  | VRef l =>
      match heap s !! l with
      | Some (ORecord _) => true
      | _ => false
      end
  | _ => false
  end.

Definition well_formed (s : State) : bool :=
  forallb (fun o => forallb (allocated s) (obj_values o)) (heap s)
  && forallb (fun et => forallb (fun kv => is_record s (snd kv)) (snd et))
       (map_to_list (tables s)).

(** The result of a computation, without the final state. *)
Definition value_of {A} (r : Result A) : option A :=
  match r with
  | Ok a _ => Some a
  | _ => None
  end.

(** ** Example schemas and states *)

Module Fixtures.

Definition object (ps : list (string * Value)) : Obj := ORecord (list_to_map ps).

(** Modelled from the spec: [Model.normalize] is missing; this is its
    behaviour on flat input, "an empty input object for the top-level
    entity results in an empty normalized map" and a record without
    nested data goes to its entity's table under its stringified
    primary key. *)
Definition flat_normalizer (c : Class.t) : Value -> M NormalizedData :=
  fun data s =>
    if bool_decide (props s data = ∅) then Ok [] s
    else Ok [(Class.entity c, [(toKey (prop s data (Class.primaryKey c)), data)])] s.

(** A blog: users have many posts through [user_id], posts have many
    comments through [post_id], comments belong to a user. *)
Definition UserClass := Class.mk "users" "id".
Definition PostClass := Class.mk "posts" "id".
Definition CommentClass := Class.mk "comments" "id".

Definition User := mkModel UserClass
  [("id", FAttr (AttrValue VNull));
   ("posts", FAttr (HasMany (ByClass PostClass) "user_id"))]
  (flat_normalizer UserClass).

Definition Post := mkModel PostClass
  [("id", FAttr (AttrValue VNull));
   ("title", FAttr (AttrValue (VStr "")));
   ("user_id", FAttr (AttrValue VNull));
   ("comments", FAttr (HasMany (ByClass CommentClass) "post_id"))]
  (flat_normalizer PostClass).

Definition Comment := mkModel CommentClass
  [("id", FAttr (AttrValue VNull));
   ("post_id", FAttr (AttrValue VNull));
   ("user_id", FAttr (AttrValue VNull));
   ("author", FAttr (BelongsTo (ByName "users") "user_id"))]
  (flat_normalizer CommentClass).

Definition blog : Env :=
  mkEnv (<["posts" := Post]> (<["comments" := Comment]> (<["users" := User]> ∅)))
    (Some EmptyString).

Definition blog_state : State :=
  mkState
    [ object [("id", VNum 1); ("title", VStr "A"); ("user_id", VNum 5)];
      object [("id", VNum 2); ("title", VStr "B"); ("user_id", VNum 5)];
      object [("id", VNum 3); ("title", VStr "C"); ("user_id", VNum 6)];
      object [("id", VNum 10); ("post_id", VNum 1); ("user_id", VNum 5)];
      object [("id", VNum 11); ("post_id", VNum 1); ("user_id", VNum 5)];
      object [("id", VNum 12); ("post_id", VNum 2); ("user_id", VNum 6)];
      object [("id", VNum 5)];
      object [] ]
    (<["posts" := [("1", VRef 0%nat); ("2", VRef 1%nat); ("3", VRef 2%nat)]]>
     (<["comments" := [("10", VRef 3%nat); ("11", VRef 4%nat); ("12", VRef 5%nat)]]>
     (<["users" := [("5", VRef 6%nat)]]> ∅))).

(** The empty object [{}] of [blog_state], as input to [create]. *)
Definition empty_input : Value := VRef 7%nat.

(** A directory whose users are keyed by [uid]. *)
Definition PersonClass := Class.mk "people" "uid".
Definition PhoneClass := Class.mk "phones" "id".

Definition Person := mkModel PersonClass
  [("uid", FAttr (AttrValue VNull));
   ("phone", FAttr (HasOne (ByClass PhoneClass) "person_id"));
   ("phones", FAttr (HasMany (ByClass PhoneClass) "person_id"))]
  (flat_normalizer PersonClass).

Definition Phone := mkModel PhoneClass
  [("id", FAttr (AttrValue VNull));
   ("person_id", FAttr (AttrValue VNull))]
  (flat_normalizer PhoneClass).

Definition directory : Env :=
  mkEnv (<["people" := Person]> (<["phones" := Phone]> ∅)) (Some EmptyString).

Definition directory_state : State :=
  mkState
    [ object [("uid", VNum 7)];
      object [("id", VNum 1); ("person_id", VNum 7)];
      object [("id", VNum 2); ("person_id", VNum 7)] ]
    (<["people" := [("7", VRef 0%nat)]]>
     (<["phones" := [("1", VRef 1%nat); ("2", VRef 2%nat)]]> ∅)).

(** Articles keep their relations in a nested group of fields. *)
Definition ArticleClass := Class.mk "articles" "id".
Definition RemarkClass := Class.mk "remarks" "id".

Definition Article := mkModel ArticleClass
  [("id", FAttr (AttrValue VNull));
   ("meta", FFields [("remarks", FAttr (HasMany (ByClass RemarkClass) "article_id"))])]
  (flat_normalizer ArticleClass).

Definition Remark := mkModel RemarkClass
  [("id", FAttr (AttrValue VNull));
   ("article_id", FAttr (AttrValue VNull))]
  (flat_normalizer RemarkClass).

Definition magazine : Env :=
  mkEnv (<["articles" := Article]> (<["remarks" := Remark]> ∅)) (Some EmptyString).

Definition magazine_state : State :=
  mkState
    [ object [("id", VNum 1); ("meta", VRef 1%nat)];
      object [("remarks", VRef 2%nat)];
      OArray [];
      object [("id", VNum 10); ("article_id", VNum 1)] ]
    (<["articles" := [("1", VRef 0%nat)]]>
     (<["remarks" := [("10", VRef 3%nat)]]> ∅)).

(** A table holding the post with primary key [0], and an update
    payload [{ id: 0, title: 'B' }] for it. *)
Definition zero_state : State :=
  mkState
    [ object [("id", VNum 0); ("title", VStr "A")];
      object [("id", VNum 0); ("title", VStr "B")] ]
    (<["posts" := [("0", VRef 0%nat)]]> ∅).

Definition zero_payload : Value := VRef 1%nat.

(** The account model of the repository's own example, and a profile
    that uses every kind of field. *)
Definition AccountClass := Class.mk "accounts" "id".
Definition ProfileClass := Class.mk "profiles" "id".

Definition Account := mkModel AccountClass
  [("id", FAttr (AttrValue VNull));
   ("user_id", FAttr (AttrValue VNull))]
  (flat_normalizer AccountClass).

Definition Profile := mkModel ProfileClass
  [("id", FAttr (AttrValue VNull));
   ("name", FAttr (AttrValue (VStr "anonymous")));
   ("account", FAttr (HasOne (ByClass AccountClass) "user_id"));
   ("owner", FAttr (BelongsTo (ByClass UserClass) "owner_id"));
   ("posts", FAttr (HasMany (ByClass PostClass) "user_id"));
   ("friends", FAttr (HasManyBy (ByClass ProfileClass) "friend_ids" "id"));
   ("settings",
    FFields [("theme", FAttr (AttrValue (VStr "light")));
             ("notify", FFields [("email", FAttr (AttrValue (VBool true)))])])]
  (flat_normalizer ProfileClass).

Definition network : Env :=
  mkEnv (<["profiles" := Profile]> (<["accounts" := Account]> ∅)) (Some EmptyString).

(** The input [{ id: 1, settings: { theme: 'dark' } }]. *)
Definition network_state : State :=
  mkState
    [ object [("id", VNum 1); ("settings", VRef 1%nat)];
      object [("theme", VStr "dark")] ]
    ∅.

Definition profile_input : Value := VRef 0%nat.

(** A kennel: pets belong to an owner through [owner_id]; an owner has
    one pet and lists other owners as friends by their keys. *)
Definition PetClass := Class.mk "pets" "id".
Definition OwnerClass := Class.mk "owners" "id".

Definition Pet := mkModel PetClass
  [("id", FAttr (AttrValue VNull));
   ("owner_id", FAttr (AttrValue VNull));
   ("owner", FAttr (BelongsTo (ByClass OwnerClass) "owner_id"))]
  (flat_normalizer PetClass).

Definition Owner := mkModel OwnerClass
  [("id", FAttr (AttrValue VNull));
   ("friend_ids", FAttr (AttrValue VNull));
   ("pet", FAttr (HasOne (ByClass PetClass) "owner_id"));
   ("friends", FAttr (HasManyBy (ByClass OwnerClass) "friend_ids" "id"))]
  (flat_normalizer OwnerClass).

Definition kennel : Env :=
  mkEnv (<["pets" := Pet]> (<["owners" := Owner]> ∅)) (Some EmptyString).

Definition kennel_state : State :=
  mkState
    [ object [("id", VNum 1); ("owner_id", VNum 5)];
      object [("id", VNum 2); ("owner_id", VNum 6)];
      object [("id", VNum 5); ("friend_ids", VRef 3%nat)];
      OArray [VNum 7; VNum 5];
      object [("id", VNum 7); ("friend_ids", VRef 5%nat)];
      OArray [] ]
    (<["pets" := [("1", VRef 0%nat); ("2", VRef 1%nat)]]>
     (<["owners" := [("5", VRef 2%nat); ("7", VRef 4%nat)]]> ∅)).

(** The value of a computation, read out of the final state. *)
Definition observe1 (m : M Value) (s : State) : option Tree :=
  match m s with
  | Ok v s' => Some (snapshot 6 s' v)
  | _ => None
  end.

(** What a query returns, read out of the final state. *)
Definition observe (m : M (list Repo.Item)) (s : State) : option (list Tree) :=
  match m s with
  | Ok xs s' => Some (map (fun i => snapshot 6 s' (Repo.record_of i)) xs)
  | _ => None
  end.

(** The record stored under [key], before and after a computation. *)
Definition stored_tree (s : State) (entity key : string) : Tree :=
  snapshot 6 s (stored s entity key).

Definition stored_after {A} (m : M A) (s : State) (entity key : string) : option Tree :=
  match m s with
  | Ok _ s' => Some (stored_tree s' entity key)
  | _ => None
  end.

End Fixtures.

(** ** Vocabulary of the statements *)

(** A dotted path rewritten as its first segment with a constraint that
    only registers the rest of the path: [with('a.b.c', f)] becomes
    [with('a', query => { query.with('b.c') })]. *)
Definition nested_with (rel : Repo.Relation) : Repo.Relation :=
  match Repo.split (Repo.rel_name rel) with
  | a :: b :: rest =>
      Repo.mkRelation a
        (Some (Repo.Script [Repo.CallWith (Repo.join (b :: rest)) None] Repo.RetVoid))
  | _ => rel
  end.

(** Field names are unique at every level of a schema, as the keys of
    a JavaScript object are. *)
Fixpoint unique_keys (schema : Field) : bool :=
  match schema with
  | FAttr _ => true
  | FFields fs =>
      bool_decide (NoDup (map fst fs)) && forallb (fun '(_, f) => unique_keys f) fs
  end.

(** [v] is the value that default-filling gives to a missing field. *)
Definition default_of (s : State) (a : Attr) (v : Value) : Prop :=
  match a with
  | AttrValue value => v = value
  | HasOne _ _ | BelongsTo _ _ => v = VNull
  | HasMany _ _ | HasManyBy _ _ _ => exists l, v = VRef l /\ heap s !! l = Some (OArray [])
  end.

(** [record], read in state [s], is [data], read in state [s0], filled
    along [schema]: every field of the schema is present; it holds the
    input's value when the input has one, the default of its descriptor
    otherwise, and for a nested group a record filled in the same way
    from the input's nested value (from nothing when that is falsy). *)
Fixpoint filled (s0 s : State) (schema : Field) (data record : Value) : Prop :=
  match schema with
  | FAttr _ => True
  | FFields fs =>
      foldr (fun '(name, f) rest =>
        (let d := prop s0 data name in
         match f with
         | FAttr a =>
             exists v, props s record !! name = Some v
                       /\ if bool_decide (d = VUndefined) then default_of s a v else v = d
         | FFields _ =>
             exists nested, props s record !! name = Some nested
                            /\ filled s0 s f (if truthy d then d else VUndefined) nested
         end) /\ rest) True fs
  end.

(** The same with the order of allocation: the nested records and the
    fresh arrays lie above the record that refers to them. *)
Definition default_above (s : State) (r : loc) (a : Attr) (v : Value) : Prop :=
  match a with
  | AttrValue value => v = value
  | HasOne _ _ | BelongsTo _ _ => v = VNull
  | HasMany _ _ | HasManyBy _ _ _ =>
      exists l, v = VRef l /\ (r < l)%nat /\ heap s !! l = Some (OArray [])
  end.

Definition field_above (nested_above : Field -> Value -> loc -> Prop) (s0 s : State)
    (r : loc) (data : Value) (ps : gmap string Value) (entry : string * Field) : Prop :=
  let '(name, f) := entry in
  let d := prop s0 data name in
  match f with
  | FAttr a =>
      exists v, ps !! name = Some v
                /\ if bool_decide (d = VUndefined) then default_above s r a v else v = d
  | FFields _ =>
      exists l, ps !! name = Some (VRef l) /\ (r < l)%nat
                /\ nested_above f (if truthy d then d else VUndefined) l
  end.

Fixpoint filled_above (s0 s : State) (schema : Field) (data : Value) (r : loc) : Prop :=
  match schema with
  | FAttr _ => True
  | FFields fs =>
      exists ps, heap s !! r = Some (ORecord ps)
                 /\ foldr (fun entry rest =>
                             field_above (filled_above s0 s) s0 s r data ps entry /\ rest)
                      True fs
  end.

(** The objects below [n] are the same in [s'] as in [s]. *)
Definition unchanged_below (n : nat) (s s' : State) : Prop :=
  forall l, (l < n)%nat -> heap s' !! l = heap s !! l.

(** The objects of [s] other than [r] are the same in [s']. *)
Definition unchanged_except (r : loc) (s s' : State) : Prop :=
  (length (heap s) <= length (heap s'))%nat
  /\ forall l, (l < length (heap s))%nat -> l <> r -> heap s' !! l = heap s !! l.

(** What a call [buildRecord(data, schema)] does, started in a state [s]
    that extends the well-formed state [s0] in which the input is read:
    it returns a new record, writes to nothing that existed before, and
    the record is filled. *)
Definition builds (schema : Field) : Prop :=
  forall (s0 s : State) (data dv : Value),
    unique_keys schema = true ->
    well_formed s0 = true ->
    (length (heap s0) <= length (heap s))%nat ->
    unchanged_below (length (heap s0)) s0 s ->
    nullish data = false ->
    allocated s data = true ->
    (forall k, prop s data k = prop s0 dv k) ->
    exists s',
      Repo.buildRecordIn schema data VUndefined s = Ok (VRef (length (heap s))) s'
      /\ tables s' = tables s
      /\ (length (heap s) < length (heap s'))%nat
      /\ unchanged_below (length (heap s)) s s'
      /\ filled_above s0 s' schema dv (length (heap s)).

(** [s'] extends [s]: the same tables, and every object of [s] is still
    there unchanged. *)
Definition extends (s s' : State) : Prop :=
  tables s' = tables s
  /\ (length (heap s) <= length (heap s'))%nat
  /\ unchanged_below (length (heap s)) s s'.

(** The records of [entity] whose foreign key equals the [id] of [p]. *)
Definition related (s : State) (entity fk : string) (p : Value) : list Value :=
  List.filter (fun c => strict_eq (prop s c fk) (prop s p "id")) (map snd (table s entity)).

(** A relation under a count comparison [count() op k]: all of it when
    the comparison holds, nothing otherwise. *)
Definition constrained (c : option Repo.Constraint) (xs : list Value) : list Value :=
  match c with
  | Some (Repo.Script [] (Repo.RetCount op k)) =>
      if Repo.compare_count op (Z.of_nat (length xs)) k then xs else []
  | _ => xs
  end.

(** A call of a constraint other than [with]. *)
Definition no_with (c : Repo.Call) : bool :=
  match c with
  | Repo.CallWith _ _ => false
  | _ => true
  end.

(** A constraint that only filters, orders and pages the query it is
    given: it is a function and it loads no further relation. *)
Definition simple (c : option Repo.Constraint) : bool :=
  match c with
  | None => true
  | Some (Repo.Script calls _) => forallb no_with calls
  | Some Repo.NotCallable => false
  end.

(** The nested query [q] once the constraint has run on it in state
    [s]. *)
Definition constrain (s : State) (c : option Repo.Constraint) (q : Repo.t) : Repo.t :=
  match c with
  | Some (Repo.Script calls result) =>
      let q' := foldl (fun q c => Repo.call c q) q calls in
      match result with
      | Repo.RetVoid => q'
      | Repo.RetBool b => Repo.where_ (Query.WhereRecord (fun _ => b)) q'
      | Repo.RetCount op k =>
          Repo.where_
            (Query.WhereRecord
               (fun _ => Repo.compare_count op
                           (Z.of_nat (length (Query.get (Repo.query q') s))) k))
            (Repo.set_wrap false q')
      end
  | _ => q
  end.

(** The records of [entity] whose foreign key equals the [id] of [p],
    under the constraint. *)
Definition related_under (s : State) (m : Model) (entity fk : string)
    (c : option Repo.Constraint) (p : Value) : list Value :=
  Query.get
    (Repo.query
       (constrain s c
          (Repo.where_ (Query.WhereEq fk (prop s p "id"))
             (Repo.mk entity m false [] (Query.new entity))))) s.

(** Whether the relation of [p], constrained, is non-empty. *)
Definition has_related (s : State) (m : Model) (entity fk : string)
    (c : option Repo.Constraint) (p : Value) : bool :=
  negb (bool_decide (related_under s m entity fk c p = [])).

(** A record as [get()] returns it: wrapped in the model of the
    repository unless wrapping is off. *)
Definition item_of (r : Repo.t) (v : Value) : Repo.Item :=
  if Repo.wrap r then Repo.Wrapped (Class.entity (class (Repo.entity r))) v
  else Repo.Plain v.

(** A schema without nested groups of fields, and a registry of such
    schemas. *)
Definition flat (fs : Fields) : bool :=
  forallb (fun '(_, f) => match f with FAttr _ => true | FFields _ => false end) fs.

Definition flat_registry (env : Env) : Prop :=
  forall e m, registry env !! e = Some m -> flat (fields m) = true.

(** A computation that, started with at least [n] objects, leaves the
    tables and the objects below [n] as they are. *)
Definition preserves {A} (n : nat) (m : M A) : Prop :=
  forall s a s',
    (n <= length (heap s))%nat ->
    m s = Ok a s' ->
    tables s' = tables s
    /\ (length (heap s) <= length (heap s'))%nat
    /\ unchanged_below n s s'.

(** [e] is the entity of a model registered on the connection. *)
Definition registered_entity (env : Env) (e : string) : Prop :=
  exists key m, registry env !! key = Some m /\ Class.entity (class m) = e.

(** [v] is an array. *)
Definition is_array (s : State) (v : Value) : bool :=
  match v with
  | VRef l =>
      match heap s !! l with
      | Some (OArray _) => true
      | _ => false
      end
  | _ => false
  end.

(** The first segment of the name of [rel] names no relation of the
    schema [fs]: a plain attribute has that name, or no field has it
    and it is no name that an entry answers without declaring it (a
    property of the descriptors, a member every object inherits). *)
Definition not_a_relation (fs : Fields) (rel : Repo.Relation) : bool :=
  let name := hd EmptyString (Repo.split (Repo.rel_name rel)) in
  match field_lookup fs name with
  | None => negb (Repo.descriptor_property name || Repo.inherited_property name)
  | Some (FAttr (AttrValue _)) => true
  | _ => false
  end.

(** [x] is a record made since [s0] that has the properties of the
    record [p] of [s0], with [name] set to [v]. *)
Definition copy_with (s0 s : State) (p : Value) (name : string) (v x : Value) : Prop :=
  exists l, x = VRef l
            /\ (length (heap s0) <= l)%nat
            /\ heap s !! l = Some (ORecord (<[name := v]> (props s0 p))).

(** [x] is a record made since [s0] that has the properties of the
    record [p] of [s0]. *)
Definition copy_of (s0 s : State) (p x : Value) : Prop :=
  exists l, x = VRef l
            /\ (length (heap s0) <= l)%nat
            /\ heap s !! l = Some (ORecord (props s0 p)).

(** The elements of an array. *)
Definition elems (s : State) (v : Value) : list Value :=
  match v with
  | VRef l =>
      match heap s !! l with
      | Some (OArray xs) => xs
      | _ => []
      end
  | _ => []
  end.

(** [v] is an array made since [s0] that holds [xs]. *)
Definition array_of (s0 s : State) (xs : list Value) (v : Value) : Prop :=
  exists l, v = VRef l
            /\ (length (heap s0) <= l)%nat
            /\ heap s !! l = Some (OArray xs).

(** What [first()] makes of the record the query engine hands it when
    no relation is to be loaded and wrapping is off: [null] stands for
    every falsy value. *)
Definition found (v : Value) : Value := if truthy v then v else VNull.

(** The nested query on [entity] that relation loading builds: the
    clause [w] of the relation when it has one, then the constraint. *)
Definition nested_query (s : State) (m : Model) (entity : string)
    (w : option Query.Clause) (c : option Repo.Constraint) : Repo.t :=
  constrain s c
    (match w with
     | Some cl => Repo.where_ cl (Repo.mk entity m false [] (Query.new entity))
     | None => Repo.mk entity m false [] (Query.new entity)
     end).

(** The single record that the nested query gives for [first(id)]. *)
Definition first_under (s : State) (m : Model) (entity : string)
    (w : option Query.Clause) (c : option Repo.Constraint) (id : Value) : Value :=
  found (Query.first (Repo.query (nested_query s m entity w c)) id s).

(** The records of a table have pairwise different values of [pk]. *)
Definition keyed_by (s : State) (entity pk : string) : Prop :=
  NoDup (map (fun p => prop s p pk) (map snd (table s entity))).

(** The table that a write of [records] leaves, from the table [old]. *)
Definition written (method : Repo.SaveMethod) (old records : Table) : Table :=
  match method with
  | Repo.Create => records
  | Repo.Insert => foldl (fun t kl => Query.upsert t (fst kl) (snd kl)) old records
  end.

(** How deep relations nest repositories.  Loading a relation runs a
    nested repository: for a dotted name it is told to load the rest of
    the name, otherwise the constraint runs on it and may call [with]
    in turn.  The depth of a relation bounds the repositories that are
    nested below the one that loads it. *)
Fixpoint constraint_depth (c : Repo.Constraint) : nat :=
  match c with
  | Repo.NotCallable => O
  | Repo.Script calls _ =>
      (fix calls_depth (l : list Repo.Call) : nat :=
         match l with
         | [] => O
         | call :: l' =>
             Nat.max
               match call with
               | Repo.CallWith nm k =>
                   (length (Repo.split nm)
                    + match k with
                      | Some c' => constraint_depth c'
                      | None => O
                      end)%nat
               | _ => O
               end
               (calls_depth l')
         end) calls
  end.

Definition option_depth (k : option Repo.Constraint) : nat :=
  match k with
  | Some c => constraint_depth c
  | None => O
  end.

Definition call_depth (c : Repo.Call) : nat :=
  match c with
  | Repo.CallWith nm k => (length (Repo.split nm) + option_depth k)%nat
  | _ => O
  end.

Definition relation_depth (rel : Repo.Relation) : nat :=
  (length (Repo.split (Repo.rel_name rel)) + option_depth (Repo.rel_constraint rel))%nat.

Definition load_depth (l : list Repo.Relation) : nat :=
  foldr (fun rel acc => Nat.max (relation_depth rel) acc) O l.

(** A computation that does not run out of fuel: it returns or it
    throws. *)
Definition returns {A} (m : M A) : Prop := forall s, m s <> OutOfFuel.

(** [m'] does what [m] does wherever [m] does not run out of fuel. *)
Definition refines {A} (m m' : M A) : Prop :=
  forall s, m s <> OutOfFuel -> m' s = m s.

(** The records of [entity] whose foreign key equals the primary key
    [pk] of [p]: a has-many relation as the specification defines it. *)
Definition related_by_key (s : State) (entity fk pk : string) (p : Value) : list Value :=
  List.filter (fun c => strict_eq (prop s c fk) (prop s p pk)) (map snd (table s entity)).

Definition nonempty (xs : list Value) : bool :=
  match xs with
  | [] => false
  | _ :: _ => true
  end.

(** [has] (when [existence] is [true]) or [hasNot], called on the
    repository [r] with all the records of its table and followed by
    [get()], returns exactly the records of the table for which [sel]
    is [existence], in table order, and leaves the store as it was. *)
Definition selects (env : Env) (fuel : nat) (r : Repo.t) (rel : string)
    (arg : Repo.HasArg) (count : option Z) (existence : bool) (s : State)
    (sel : Value -> bool) : Prop :=
  exists r1 s1,
    (if existence then Repo.has env fuel rel arg count r
     else Repo.hasNot env fuel rel arg count r) s = Ok r1 s1
    /\ extends s s1
    /\ Repo.get env fuel r1 s1
       = Ok (map (item_of r)
               (List.filter (fun p => Bool.eqb (sel p) existence)
                  (map snd (table s (Repo.name r))))) s1.

(** * Properties *)

Import Repo.

(** ** Computations *)

Lemma bind_ok {A B} (m : M A) (k : A -> M B) (s : State) (a : A) (s' : State) :
  m s = Ok a s' -> bind m k s = k a s'.
Proof. intros H. unfold bind. now rewrite H. Qed.

Lemma bind_ext {A B} (m1 m2 : M A) (k1 k2 : A -> M B) (s : State) :
  m1 s = m2 s -> (forall a s', k1 a s' = k2 a s') -> bind m1 k1 s = bind m2 k2 s.
Proof.
  intros Hm Hk. unfold bind. rewrite Hm.
  destruct (m2 s); [apply Hk | reflexivity | reflexivity].
Qed.

Lemma new_ok (env : Env) (e : string) (w : bool) (s : State) (m : Model) :
  registry env !! e = Some m ->
  new env e w s = Ok (mk e m w [] (Query.new e)) s.
Proof. intros H. unfold new, model. now rewrite H. Qed.

Lemma new_inv (env : Env) (e : string) (w : bool) (s s' : State) (r : t) :
  new env e w s = Ok r s' ->
  s' = s /\ exists m, registry env !! e = Some m /\ r = mk e m w [] (Query.new e).
Proof.
  unfold new, model. destruct (registry env !! e) as [m|] eqn:E; cbn.
  - intros [= <- <-]. eauto.
  - discriminate.
Qed.

Lemma table_set_table_eq (e : string) (t : Table) (s : State) :
  table (set_table e t s) e = t.
Proof. unfold table, set_table. cbn. now rewrite lookup_insert_eq. Qed.

Lemma table_set_table_ne (e e' : string) (t : Table) (s : State) :
  e <> e' -> table (set_table e t s) e' = table s e'.
Proof. intros H. unfold table, set_table. cbn. now rewrite lookup_insert_ne. Qed.

(** ** Resolving a relation declared by name *)

(** C4 (the code departs from the claim): for a relation whose model is
    declared by its entity name, [resolveRelation] looks up the global
    variable [name] and never the declared name, so its result is the
    same whatever name the attribute carries; in the blog, where the
    global is the empty string, the relation declared on the registered
    entity "users" resolves to no model at all and loading it throws. *)
Theorem resolveRelation_ignores_declared_name :
  (forall (env : Env) (declared other : string) (s : State),
      resolveRelation env (ByName declared) s = resolveRelation env (ByName other) s)
  /\ model Fixtures.blog "users" Fixtures.blog_state
     = Ok Fixtures.User Fixtures.blog_state
  /\ resolveRelation Fixtures.blog (ByName "users") Fixtures.blog_state
     = Throw (ModelNotFound EmptyString)
  /\ Fixtures.observe
       (let* r := new Fixtures.blog "comments" false in
        get Fixtures.blog 2 (with_ "author" None r)) Fixtures.blog_state
     = None.
Proof.
  split; [reflexivity |].
  split; [reflexivity |].
  split; [reflexivity |].
  vm_compute. reflexivity.
Qed.

(** ** [update] without a condition *)

Lemma update_no_condition (data : Value) (r : t) (s : State) :
  nullish data = false ->
  update data None r s
  = if truthy (prop s data (Class.primaryKey (class (entity r))))
    then Query.update (query r) data
           (Query.CondKey (prop s data (Class.primaryKey (class (entity r))))) s
    else Ok tt s.
Proof.
  intros Hd. unfold update, no_condition, bind, getProp. rewrite Hd.
  destruct (truthy _); reflexivity.
Qed.

(** C10: without an explicit condition, [update] decides on the
    truthiness of [data[primaryKey]]: when the payload holds the primary
    key with a falsy value the call returns without touching the state,
    and when the value is truthy the update by that key runs. *)
Theorem update_decided_by_truthiness (data : Value) (r : t) (s : State) (key : Value) :
  nullish data = false ->
  props s data !! Class.primaryKey (class (entity r)) = Some key ->
  (truthy key = false -> update data None r s = Ok tt s)
  /\ (truthy key = true ->
      update data None r s = Query.update (query r) data (Query.CondKey key) s).
Proof.
  intros Hd Hk.
  rewrite (update_no_condition _ _ _ Hd). unfold prop. rewrite Hk. cbn.
  split; intros ->; reflexivity.
Qed.

Lemma update_decided_by_truthiness_witness :
  (update Fixtures.zero_payload None
     (mk "posts" Fixtures.Post true [] (Query.new "posts")) Fixtures.zero_state
   = Ok tt Fixtures.zero_state)
  /\ (update (VRef 0%nat) None
        (mk "posts" Fixtures.Post true [] (Query.new "posts")) Fixtures.blog_state
      = Query.update (Query.new "posts") (VRef 0%nat) (Query.CondKey (VNum 1))
          Fixtures.blog_state).
Proof.
  split.
  - apply (update_decided_by_truthiness Fixtures.zero_payload
             (mk "posts" Fixtures.Post true [] (Query.new "posts"))
             Fixtures.zero_state (VNum 0)); reflexivity.
  - apply (update_decided_by_truthiness (VRef 0%nat)
             (mk "posts" Fixtures.Post true [] (Query.new "posts"))
             Fixtures.blog_state (VNum 1)); reflexivity.
Defined.

(** C6 (the code departs from the claim): the payload
    [{ id: 0, title: 'B' }] contains the primary key of the stored post
    [{ id: 0, title: 'A' }], yet [update] without a condition leaves the
    state as it was and the post keeps its title; with the key given as
    an explicit condition the same payload is merged into the post. *)
Theorem update_skips_primary_key_zero :
  update Fixtures.zero_payload None
    (mk "posts" Fixtures.Post true [] (Query.new "posts")) Fixtures.zero_state
  = Ok tt Fixtures.zero_state
  /\ Fixtures.stored_tree Fixtures.zero_state "posts" "0"
     = TObject [("id", TNum 0); ("title", TStr "A")]
  /\ Fixtures.stored_after
       (update Fixtures.zero_payload (Some (Query.CondKey (VStr "0")))
          (mk "posts" Fixtures.Post true [] (Query.new "posts")))
       Fixtures.zero_state "posts" "0"
     = Some (TObject [("id", TNum 0); ("title", TStr "B")]).
Proof.
  split; [reflexivity |].
  split; vm_compute; reflexivity.
Qed.

(** ** [create] with nothing to store *)

(** C2: when the input of [create] normalizes to the empty map, the
    table-level create still runs with the empty map: the call succeeds
    and leaves the entity's table empty, whatever it held before; the
    other tables and the heap are as normalization left them. *)
Theorem create_empty_clears_table (env : Env) (e : string) (w : bool) (data : Value)
    (r : t) (s s1 : State) :
  new env e w s = Ok r s ->
  normalize (entity r) data s = Ok [] s1 ->
  exists s2,
    create env data r s = Ok tt s2
    /\ table s2 e = []
    /\ heap s2 = heap s1
    /\ forall e', e <> e' -> table s2 e' = table s1 e'.
Proof.
  intros Hnew Hnorm.
  apply new_inv in Hnew as (_ & m & Hm & ->). cbn in Hnorm.
  exists (set_table e [] s1).
  split.
  - unfold create, save, normalize_, model. cbn. rewrite Hm.
    unfold bind at 1. cbn. unfold bind. rewrite Hnorm. reflexivity.
  - split; [apply table_set_table_eq |].
    split; [reflexivity |].
    intros e' He. now apply table_set_table_ne.
Qed.

Lemma create_empty_clears_table_witness :
  length (table Fixtures.blog_state "posts") = 3%nat
  /\ exists s2,
      create Fixtures.blog Fixtures.empty_input
        (mk "posts" Fixtures.Post true [] (Query.new "posts")) Fixtures.blog_state
      = Ok tt s2
      /\ table s2 "posts" = []
      /\ heap s2 = heap Fixtures.blog_state
      /\ forall e', "posts" <> e' -> table s2 e' = table Fixtures.blog_state e'.
Proof.
  split; [reflexivity |].
  apply (create_empty_clears_table Fixtures.blog "posts" true Fixtures.empty_input
           (mk "posts" Fixtures.Post true [] (Query.new "posts"))
           Fixtures.blog_state Fixtures.blog_state); reflexivity.
Defined.

(** ** [count] and the wrap flag *)

(** C7, as stated, fails: on a repository created with wrapping on,
    [count()] leaves the wrap flag off, and a [get()] on the same
    instance afterwards returns plain records where it returned model
    instances before. *)
Lemma count_restores_wrap_counterexample :
  ~ (forall (env : Env) (fuel : nat) (r r' : t) (n : nat) (s s' : State),
        count env fuel r s = Ok (n, r') s' -> wrap r' = wrap r)
  /\ value_of (get Fixtures.blog 1
                 (mk "users" Fixtures.User true [] (Query.new "users")) Fixtures.blog_state)
     = Some [Wrapped "users" (VRef 6%nat)]
  /\ value_of ((let* '(_, r') := count Fixtures.blog 1
                                   (mk "users" Fixtures.User true [] (Query.new "users")) in
                get Fixtures.blog 1 r') Fixtures.blog_state)
     = Some [Plain (VRef 6%nat)].
Proof.
  split.
  - intros H.
    specialize (H Fixtures.blog 1%nat
                  (mk "users" Fixtures.User true [] (Query.new "users"))
                  (mk "users" Fixtures.User false [] (Query.new "users"))
                  1%nat Fixtures.blog_state Fixtures.blog_state eq_refl).
    discriminate H.
  - split; reflexivity.
Qed.

(** C7, amended: [count()] returns the length of what [get()] returns
    with wrapping disabled, in the state that [get()] leaves, and the
    repository's wrap flag is off when the call returns. *)
Theorem count_is_unwrapped_length (env : Env) (fuel : nat) (r : t) (s s' : State)
    (xs : list Item) :
  get env fuel (set_wrap false r) s = Ok xs s' ->
  exists r',
    count env fuel r s = Ok (length xs, r') s'
    /\ wrap r' = false
    /\ r' = set_wrap false r.
Proof.
  intros H. exists (set_wrap false r).
  unfold count, count_with, bind. rewrite H. auto.
Qed.

Lemma count_is_unwrapped_length_witness :
  exists r',
    count Fixtures.blog 1 (mk "posts" Fixtures.Post true [] (Query.new "posts"))
      Fixtures.blog_state
    = Ok (3%nat, r') Fixtures.blog_state
    /\ wrap r' = false
    /\ r' = set_wrap false (mk "posts" Fixtures.Post true [] (Query.new "posts")).
Proof.
  apply (count_is_unwrapped_length Fixtures.blog 1
           (mk "posts" Fixtures.Post true [] (Query.new "posts"))
           Fixtures.blog_state Fixtures.blog_state
           [Plain (VRef 0%nat); Plain (VRef 1%nat); Plain (VRef 2%nat)]).
  reflexivity.
Defined.

(** ** Has-one and has-many read [record.id] *)

(** C1 (the code departs from the claim): people are keyed by [uid].
    Both phones have [person_id] equal to the primary-key value of
    person 7, yet loading the has-one relation gives [null] and loading
    the has-many relation gives the empty array, because the lookup
    compares [person_id] with [record.id], which a person does not
    have. *)
Theorem has_one_has_many_read_id_field :
  Class.primaryKey (class Fixtures.Person) = "uid"
  /\ Query.get (Query.where_ (Query.WhereEq "person_id"
                               (prop Fixtures.directory_state (VRef 0%nat) "uid"))
                 (Query.new "phones")) Fixtures.directory_state
     = [VRef 1%nat; VRef 2%nat]
  /\ Fixtures.observe
       (let* r := new Fixtures.directory "people" false in
        get Fixtures.directory 2 (with_ "phones" None (with_ "phone" None r)))
       Fixtures.directory_state
     = Some [TObject [("phone", TNull); ("phones", TArray []); ("uid", TNum 7)]].
Proof.
  split; [reflexivity |].
  split; vm_compute; reflexivity.
Qed.

(** ** Relation loading and the stored records *)

(** C9 (the code departs from the claim): the article keeps its
    has-many relation in the nested group [meta].  Loading the relation
    with [get()] writes the loaded remarks into the [meta] object of the
    stored article: the record held by the table differs before and
    after the read. *)
Theorem loading_nested_relation_writes_store :
  Fixtures.stored_tree Fixtures.magazine_state "articles" "1"
  = TObject [("id", TNum 1); ("meta", TObject [("remarks", TArray [])])]
  /\ Fixtures.stored_after
       (let* r := new Fixtures.magazine "articles" false in
        get Fixtures.magazine 2 (with_ "remarks" None r))
       Fixtures.magazine_state "articles" "1"
     = Some (TObject
               [("id", TNum 1);
                ("meta",
                 TObject
                   [("remarks",
                     TArray [TObject [("article_id", TNum 1); ("id", TNum 10)]])])]).
Proof.
  split; vm_compute; reflexivity.
Qed.

(** ** Dotted relation paths *)

Lemma Field_nested_ind (P : Field -> Prop) :
  (forall a, P (FAttr a)) ->
  (forall fs, Forall (fun kf => P (snd kf)) fs -> P (FFields fs)) ->
  forall f, P f.
Proof.
  intros Hattr Hfields.
  fix IH 1. intros [a | fs].
  - apply Hattr.
  - apply Hfields. induction fs as [| [k f] fs IHfs]; constructor.
    + apply IH.
    + apply IHfs.
Qed.

Lemma split_nonempty (s : string) : split s <> [].
Proof.
  destruct s as [| c s]; cbn; [discriminate |].
  destruct (Ascii.eqb c "."); [discriminate |].
  destruct (split s); discriminate.
Qed.

Lemma split_segment (s seg : string) : In seg (split s) -> split seg = [seg].
Proof.
  revert seg. induction s as [| c s IH]; intros seg; cbn.
  - intros [<- | []]. reflexivity.
  - destruct (Ascii.eqb c ".") eqn:Ec.
    + intros [<- | H]; [reflexivity | now apply IH].
    + destruct (split s) as [| h t] eqn:Es.
      * intros [<- | []]. cbn. now rewrite Ec.
      * intros [<- | H].
        -- cbn. rewrite Ec. rewrite (IH h); [reflexivity | now left].
        -- apply IH. now right.
Qed.

Lemma nested_with_first_segment (rel : Relation) :
  hd EmptyString (split (rel_name (nested_with rel)))
  = hd EmptyString (split (rel_name rel)).
Proof.
  unfold nested_with.
  destruct (split (rel_name rel)) as [| a [| b rest]] eqn:E; try now rewrite E.
  cbn. rewrite (split_segment (rel_name rel) a); [reflexivity |].
  rewrite E. now left.
Qed.

Lemma addConstraint_nested_with (get_rec : t -> M (list Item)) (q : t)
    (rel : Relation) (s : State) :
  addConstraint get_rec q (nested_with rel) s = addConstraint get_rec q rel s.
Proof.
  unfold nested_with.
  destruct (split (rel_name rel)) as [| a [| b rest]] eqn:E; try reflexivity.
  unfold addConstraint at 2. rewrite E.
  unfold addConstraint. cbn [rel_name rel_constraint].
  rewrite (split_segment (rel_name rel) a); [reflexivity |].
  rewrite E. now left.
Qed.

Lemma loadAttr_nested_with (env : Env) (get_rec : t -> M (list Item))
    (first_rec : t -> Value -> M Item) (base : Value) (a : Attr) (rel : Relation)
    (s : State) :
  loadAttr env get_rec first_rec base a (nested_with rel) s
  = loadAttr env get_rec first_rec base a rel s.
Proof.
  destruct a as [v | m fk | m fk | m fk | m fk ok]; cbn [loadAttr]; try reflexivity;
    (apply bind_ext; [| reflexivity]).
  - unfold loadHasOneRelation.
    repeat (apply bind_ext; [reflexivity | intros]).
    apply bind_ext; [apply addConstraint_nested_with | reflexivity].
  - unfold loadBelongsToRelation.
    repeat (apply bind_ext; [reflexivity | intros]).
    apply bind_ext; [apply addConstraint_nested_with | reflexivity].
  - unfold loadHasManyRelation.
    repeat (apply bind_ext; [reflexivity | intros]).
    apply bind_ext; [apply addConstraint_nested_with | reflexivity].
  - unfold loadHasManyByRelation.
    repeat (apply bind_ext; [reflexivity | intros]).
    apply bind_ext; [| reflexivity].
    clear. revert s'1. induction a1 as [| id ids IH]; intros s; [reflexivity |].
    cbn [mapM]. apply bind_ext.
    + apply bind_ext; [reflexivity | intros].
      apply bind_ext; [apply addConstraint_nested_with | reflexivity].
    + intros. apply bind_ext; [apply IH | reflexivity].
Qed.

Lemma reduce_map_ext {A B} (f g : B -> A -> M B) (h : A -> A) (l : list A) :
  (forall acc x s, f acc (h x) s = g acc x s) ->
  forall acc s, reduce f (map h l) acc s = reduce g l acc s.
Proof.
  intros Hfg. induction l as [| x l IH]; intros acc s; [reflexivity |].
  cbn [map reduce]. apply bind_ext; [apply Hfg | intros; apply IH].
Qed.

Lemma forEach_ext {A} (f g : A -> M unit) (l : list A) :
  Forall (fun x => forall s, f x s = g x s) l ->
  forall s, forEach f l s = forEach g l s.
Proof.
  induction 1 as [| x l Hx _ IH]; intros s; [reflexivity |].
  cbn [forEach]. apply bind_ext; [apply Hx | intros; apply IH].
Qed.

Lemma loadRelationsIn_nested_with (env : Env) (get_rec : t -> M (list Item))
    (first_rec : t -> Value -> M Item) (schema : Field) :
  forall (base : Value) (load : list Relation) (record : Value) (s : State),
    loadRelationsIn env get_rec first_rec schema base (map nested_with load) record s
    = loadRelationsIn env get_rec first_rec schema base load record s.
Proof.
  induction schema as [a | fs IH] using Field_nested_ind; intros base load record s.
  - reflexivity.
  - cbn [loadRelationsIn]. apply bind_ext; [reflexivity |]. intros rec0 s0.
    apply reduce_map_ext. intros acc rel s1. cbv beta zeta.
    rewrite nested_with_first_segment.
    destruct (field_lookup fs _) as [[attr | sub] |].
    + apply bind_ext; [apply loadAttr_nested_with | reflexivity].
    + apply bind_ext; [| reflexivity].
      apply forEach_ext. eapply Forall_impl; [apply IH |].
      intros [key f] Hf s2. cbn in Hf. destruct f as [a | sub']; [reflexivity |].
      destruct (has_field sub' _); [| reflexivity].
      apply bind_ext; [reflexivity | intros].
      apply bind_ext; [apply Hf | reflexivity].
    + apply bind_ext; [| reflexivity].
      apply forEach_ext. eapply Forall_impl; [apply IH |].
      intros [key f] Hf s2. cbn in Hf. destruct f as [a | sub']; [reflexivity |].
      destruct (has_field sub' _); [| reflexivity].
      apply bind_ext; [reflexivity | intros].
      apply bind_ext; [apply Hf | reflexivity].
Qed.


(** Loading a dotted path [a.b...] is loading [a] with a constraint that
    only registers the rest of the path on the nested query; the
    constraint that came with the path is not called. *)
Lemma dotted_path_nested_with (env : Env)
    (get_rec : t -> M (list Item)) (first_rec : t -> Value -> M Item)
    (name a b : string) (rest : list string) (c : option Constraint) :
  split name = a :: b :: rest ->
  (forall (q : t) (s : State),
      addConstraint get_rec q (mkRelation name c) s
      = Ok (with_ (join (b :: rest)) None q) s)
  /\ (forall (fields : Fields) (base record : Value) (s : State),
        loadRelations env get_rec first_rec fields base [mkRelation name c] record s
        = loadRelations env get_rec first_rec fields base
            [mkRelation a (Some (Script [CallWith (join (b :: rest)) None] RetVoid))]
            record s).
Proof.
  intros Hsplit. split.
  - intros q s. unfold addConstraint. cbn [rel_name]. now rewrite Hsplit.
  - intros fields base record s. unfold loadRelations.
    rewrite <- (loadRelationsIn_nested_with env get_rec first_rec (FFields fields) base
                  [mkRelation name c] record s).
    cbn [map]. unfold nested_with at 1. cbn [rel_name]. now rewrite Hsplit.
Qed.

(** ** Default-filling *)

Lemma getProp_ok (v : Value) (k : string) (s : State) :
  nullish v = false -> getProp v k s = Ok (prop s v k) s.
Proof. intros H. unfold getProp. now rewrite H. Qed.

Lemma setProp_ok (r : loc) (k : string) (x : Value) (s : State) (ps : gmap string Value) :
  heap s !! r = Some (ORecord ps) ->
  setProp (VRef r) k x s
  = Ok tt (set_heap (<[r := ORecord (<[k := x]> ps)]> (heap s)) s).
Proof. intros H. unfold setProp. now rewrite H. Qed.

Lemma foldr_and_Forall {A} (P : A -> Prop) (l : list A) :
  foldr (fun x rest => P x /\ rest) True l <-> Forall P l.
Proof.
  induction l as [| x l IH]; cbn.
  - split; [constructor | trivial].
  - rewrite IH. split.
    + intros [? ?]. now constructor.
    + inversion 1; auto.
Qed.

Lemma allocated_mono (s s' : State) (v : Value) :
  (length (heap s) <= length (heap s'))%nat ->
  allocated s v = true -> allocated s' v = true.
Proof.
  destruct v; cbn; try reflexivity.
  intros Hle H. apply bool_decide_eq_true in H. apply bool_decide_eq_true. lia.
Qed.

Lemma well_formed_prop (s : State) (v : Value) (k : string) :
  well_formed s = true -> allocated s (prop s v k) = true.
Proof.
  intros Hwf. unfold prop, props.
  destruct v as [| | | | | l]; try reflexivity.
  destruct (heap s !! l) as [[ps | xs] |] eqn:Hl; try reflexivity.
  destruct (ps !! k) as [x |] eqn:Hk; [| reflexivity]. cbn.
  apply andb_prop in Hwf as [Hheap _].
  rewrite forallb_forall in Hheap.
  assert (Ho : In (ORecord ps) (heap s)).
  { apply list_elem_of_In, list_elem_of_lookup. eauto. }
  specialize (Hheap _ Ho). rewrite forallb_forall in Hheap.
  apply Hheap. cbn. apply in_map_iff. exists (k, x). split; [reflexivity |].
  apply list_elem_of_In, elem_of_map_to_list. exact Hk.
Qed.

Lemma props_unchanged (s s' : State) (v : Value) :
  (forall l, v = VRef l -> heap s' !! l = heap s !! l) ->
  props s' v = props s v.
Proof.
  intros H. destruct v as [| | | | | l]; try reflexivity.
  cbn. now rewrite (H l eq_refl).
Qed.

Lemma unchanged_except_trans (r : loc) (s1 s2 s3 : State) :
  unchanged_except r s1 s2 -> unchanged_except r s2 s3 -> unchanged_except r s1 s3.
Proof.
  intros [Hl1 H1] [Hl2 H2]. split; [lia |].
  intros l Hl Hr. rewrite H2 by (auto; lia). now apply H1.
Qed.

Lemma default_above_stable (s s' : State) (r : loc) (a : Attr) (v : Value) :
  (forall l, (r < l)%nat -> (l < length (heap s))%nat -> heap s' !! l = heap s !! l) ->
  default_above s r a v -> default_above s' r a v.
Proof.
  intros H. destruct a; cbn; auto.
  - intros (l & -> & Hl & Hh). exists l. repeat split; auto.
    rewrite H; auto. eapply lookup_lt_Some; eauto.
  - intros (l & -> & Hl & Hh). exists l. repeat split; auto.
    rewrite H; auto. eapply lookup_lt_Some; eauto.
Qed.

Lemma filled_above_stable (schema : Field) :
  forall (s0 s s' : State) (dv : Value) (r : loc),
    (forall l, (r <= l)%nat -> (l < length (heap s))%nat -> heap s' !! l = heap s !! l) ->
    filled_above s0 s schema dv r -> filled_above s0 s' schema dv r.
Proof.
  induction schema as [a | fs IH] using Field_nested_ind; intros s0 s s' dv r Hsame;
    cbn [filled_above]; [trivial |].
  intros (ps & Hr & Hfs). exists ps. split.
  - rewrite Hsame; auto. eapply lookup_lt_Some; eauto.
  - apply foldr_and_Forall. apply foldr_and_Forall in Hfs.
    rewrite Forall_forall in IH, Hfs. apply Forall_forall.
    intros [name f] Hin. specialize (Hfs _ Hin). specialize (IH _ Hin).
    cbn in IH, Hfs |- *. destruct f as [a | sub].
    + destruct Hfs as (v & Hv & Hd). exists v. split; [assumption |].
      destruct (bool_decide _); [| assumption].
      eapply default_above_stable; [| exact Hd]. intros l' ? ?. apply Hsame; lia.
    + destruct Hfs as (l & Hl & Hrl & Hn). exists l. repeat split; try assumption.
      eapply IH; [| exact Hn]. intros l' ? ?. apply Hsame; lia.
Qed.

Lemma filled_above_filled (schema : Field) :
  forall (s0 s : State) (dv : Value) (r : loc),
    filled_above s0 s schema dv r -> filled s0 s schema dv (VRef r).
Proof.
  induction schema as [a | fs IH] using Field_nested_ind; intros s0 s dv r;
    cbn [filled_above filled]; [trivial |].
  intros (ps & Hr & Hfs).
  apply foldr_and_Forall in Hfs.
  assert (Hps : props s (VRef r) = ps) by (cbn; now rewrite Hr).
  rewrite Hps. clear Hps Hr.
  induction fs as [| [name f] fs IHfs]; cbn [foldr]; [trivial |].
  inversion Hfs as [| ? ? Hhead Htail]; subst.
  inversion IH as [| ? ? IHf IHrest]; subst.
  split; [| now apply IHfs].
  cbn in Hhead, IHf |- *. destruct f as [a | sub].
  - destruct Hhead as (v & Hv & Hd). exists v. split; [assumption |].
    destruct (bool_decide _); [| assumption].
    destruct a; cbn in Hd |- *; auto.
    + destruct Hd as (l & -> & _ & Hl). eauto.
    + destruct Hd as (l & -> & _ & Hl). eauto.
  - destruct Hhead as (l & Hl & _ & Hn). exists (VRef l). split; [assumption |].
    now apply IHf.
Qed.

Lemma alloc_ok (o : Obj) (s : State) :
  alloc o s = Ok (VRef (length (heap s))) (set_heap (heap s ++ [o]) s).
Proof. reflexivity. Qed.

Lemma heap_set_heap (h : list Obj) (s : State) : heap (set_heap h s) = h.
Proof. reflexivity. Qed.

Lemma tables_set_heap (h : list Obj) (s : State) : tables (set_heap h s) = tables s.
Proof. reflexivity. Qed.

Lemma truthy_not_nullish (v : Value) : truthy v = true -> nullish v = false.
Proof. destruct v; cbn; congruence. Qed.

Lemma lookup_snoc {A} (l : list A) (x : A) : (l ++ [x]) !! length l = Some x.
Proof. now apply list_lookup_middle. Qed.

Section FillLoop.

Variables (s0 : State) (dv data : Value) (r : loc).
Hypothesis Hwf : well_formed s0 = true.
Hypothesis Hr0 : (length (heap s0) <= r)%nat.
Hypothesis Hdata : nullish data = false.
Hypothesis Hbelow : forall l, data = VRef l -> (l < r)%nat.

Lemma data_unchanged (s s' : State) :
  unchanged_except r s s' ->
  (r < length (heap s))%nat ->
  forall k, prop s' data k = prop s data k.
Proof.
  intros [_ H] Hr k. unfold prop. f_equal. f_equal.
  apply props_unchanged. intros l ->.
  specialize (Hbelow l eq_refl). apply H; lia.
Qed.

Lemma old_unchanged (s s' : State) :
  unchanged_except r s s' ->
  (r < length (heap s))%nat ->
  unchanged_below (length (heap s0)) s0 s ->
  unchanged_below (length (heap s0)) s0 s'.
Proof.
  intros [_ H] Hr Hold l Hl. rewrite H by lia. now apply Hold.
Qed.

Lemma buildField_attr (name : string) (a : Attr) (s : State) (ps : gmap string Value) :
  (forall k, prop s data k = prop s0 dv k) ->
  heap s !! r = Some (ORecord ps) ->
  exists s1 v,
    buildField buildRecordIn data (VRef r) (name, FAttr a) s = Ok tt s1
    /\ tables s1 = tables s
    /\ unchanged_except r s s1
    /\ heap s1 !! r = Some (ORecord (<[name := v]> ps))
    /\ field_above (filled_above s0 s1) s0 s1 r dv (<[name := v]> ps) (name, FAttr a).
Proof.
  intros Hprop Hr.
  assert (Hlen : (r < length (heap s))%nat) by (eapply lookup_lt_Some; eauto).
  assert (Hset : forall x,
    exists s1,
      setProp (VRef r) name x s = Ok tt s1
      /\ tables s1 = tables s
      /\ unchanged_except r s s1
      /\ heap s1 !! r = Some (ORecord (<[name := x]> ps))
      /\ heap s1 = <[r := ORecord (<[name := x]> ps)]> (heap s)).
  { intros x. eexists. split; [apply (setProp_ok _ _ _ _ _ Hr) |].
    unfold unchanged_except. rewrite !heap_set_heap, !tables_set_heap. repeat split.
    - now rewrite length_insert.
    - intros l _ Hne. now apply list_lookup_insert_ne.
    - now apply list_lookup_insert_eq. }
  unfold buildField. rewrite (bind_ok _ _ _ _ _ (getProp_ok data name s Hdata)).
  rewrite Hprop. unfold strict_eq. cbn [field_above].
  destruct (bool_decide (prop s0 dv name = VUndefined)) eqn:Hd; cbn [negb].
  - destruct a as [value | m fk | m fk | m fk | m fk ok].
    + destruct (Hset value) as (s1 & H1 & H2 & H3 & H4 & _).
      exists s1, value. split; [exact H1 |]. split; [exact H2 |]. split; [exact H3 |].
      split; [exact H4 |].
      exists value. rewrite lookup_insert_eq. split; reflexivity.
    + destruct (Hset VNull) as (s1 & H1 & H2 & H3 & H4 & _).
      exists s1, VNull. split; [exact H1 |]. split; [exact H2 |]. split; [exact H3 |].
      split; [exact H4 |].
      exists VNull. rewrite lookup_insert_eq. split; reflexivity.
    + destruct (Hset VNull) as (s1 & H1 & H2 & H3 & H4 & _).
      exists s1, VNull. split; [exact H1 |]. split; [exact H2 |]. split; [exact H3 |].
      split; [exact H4 |].
      exists VNull. rewrite lookup_insert_eq. split; reflexivity.
    + rewrite (bind_ok _ _ _ _ _ (alloc_ok _ s)).
      eexists. exists (VRef (length (heap s))).
      split.
      { apply setProp_ok. rewrite heap_set_heap.
        rewrite lookup_app_l by assumption. exact Hr. }
      unfold unchanged_except. rewrite !heap_set_heap, !tables_set_heap. repeat split.
      * rewrite length_insert, length_app. lia.
      * intros l Hl Hne. rewrite list_lookup_insert_ne by congruence.
        now rewrite lookup_app_l.
      * apply list_lookup_insert_eq. rewrite length_app. lia.
      * exists (VRef (length (heap s))). rewrite lookup_insert_eq. split; [reflexivity |].
        exists (length (heap s)). repeat split; [assumption |].
        rewrite heap_set_heap.
        rewrite list_lookup_insert_ne by lia. apply lookup_snoc.
    + rewrite (bind_ok _ _ _ _ _ (alloc_ok _ s)).
      eexists. exists (VRef (length (heap s))).
      split.
      { apply setProp_ok. rewrite heap_set_heap.
        rewrite lookup_app_l by assumption. exact Hr. }
      unfold unchanged_except. rewrite !heap_set_heap, !tables_set_heap. repeat split.
      * rewrite length_insert, length_app. lia.
      * intros l Hl Hne. rewrite list_lookup_insert_ne by congruence.
        now rewrite lookup_app_l.
      * apply list_lookup_insert_eq. rewrite length_app. lia.
      * exists (VRef (length (heap s))). rewrite lookup_insert_eq. split; [reflexivity |].
        exists (length (heap s)). repeat split; [assumption |].
        rewrite heap_set_heap.
        rewrite list_lookup_insert_ne by lia. apply lookup_snoc.
  - destruct (Hset (prop s0 dv name)) as (s1 & H1 & H2 & H3 & H4 & _).
    exists s1, (prop s0 dv name). split; [exact H1 |]. split; [exact H2 |]. split; [exact H3 |].
      split; [exact H4 |].
    exists (prop s0 dv name). rewrite lookup_insert_eq. split; reflexivity.
Qed.

Lemma buildField_group (name : string) (sub : list (string * Field)) (s : State)
    (ps : gmap string Value) :
  builds (FFields sub) ->
  unique_keys (FFields sub) = true ->
  unchanged_below (length (heap s0)) s0 s ->
  (forall k, prop s data k = prop s0 dv k) ->
  heap s !! r = Some (ORecord ps) ->
  ps !! name = None ->
  exists s1 v,
    buildField buildRecordIn data (VRef r) (name, FFields sub) s = Ok tt s1
    /\ tables s1 = tables s
    /\ unchanged_except r s s1
    /\ heap s1 !! r = Some (ORecord (<[name := v]> ps))
    /\ field_above (filled_above s0 s1) s0 s1 r dv (<[name := v]> ps) (name, FFields sub).
Proof.
  intros Hb Hu Hold Hprop Hr Hnone.
  assert (Hlen : (r < length (heap s))%nat) by (eapply lookup_lt_Some; eauto).
  set (d := prop s0 dv name).
  assert (Hnew : exists s2 newData,
    (if truthy d then ret d else alloc (ORecord ∅)) s = Ok newData s2
    /\ tables s2 = tables s
    /\ (length (heap s) <= length (heap s2))%nat
    /\ unchanged_below (length (heap s)) s s2
    /\ nullish newData = false
    /\ allocated s2 newData = true
    /\ forall k, prop s2 newData k = prop s0 (if truthy d then d else VUndefined) k).
  { assert (Hd0 : allocated s0 d = true) by (apply well_formed_prop; exact Hwf).
    destruct (truthy d) eqn:Ht.
    - exists s, d. split; [reflexivity |]. split; [reflexivity |].
      split; [lia |]. split; [intros l _; reflexivity |].
      split; [now apply truthy_not_nullish |].
      split; [apply (allocated_mono s0); [lia | exact Hd0] |].
      intros k. unfold prop. f_equal. f_equal.
      apply props_unchanged. intros l Hl. apply Hold.
      rewrite Hl in Hd0. cbn in Hd0. now apply bool_decide_eq_true in Hd0.
    - exists (set_heap (heap s ++ [ORecord ∅]) s), (VRef (length (heap s))).
      split; [apply alloc_ok |]. split; [reflexivity |].
      rewrite heap_set_heap.
      split; [rewrite length_app; lia |].
      split; [intros l Hl; rewrite heap_set_heap; now apply lookup_app_l |].
      split; [reflexivity |].
      split; [cbn; apply bool_decide_eq_true; rewrite length_app; cbn; lia |].
      intros k. unfold prop, props. rewrite heap_set_heap, lookup_snoc.
      now rewrite lookup_empty. }
  destruct Hnew as (s2 & newData & Hnew & Htab2 & Hlen2 & Hun2 & Hnull & Halloc & Hview).
  assert (Hr2 : heap s2 !! r = Some (ORecord ps)) by (rewrite Hun2; assumption).
  destruct (Hb s0 s2 newData (if truthy d then d else VUndefined) Hu Hwf)
    as (s3 & Hbuild & Htab3 & Hlen3 & Hun3 & Hfilled); try assumption.
  { lia. }
  { intros l Hl. rewrite Hun2 by lia. now apply Hold. }
  assert (Hr3 : heap s3 !! r = Some (ORecord ps)) by (rewrite Hun3; [assumption | lia]).
  unfold buildField.
  rewrite (bind_ok _ _ _ _ _ (getProp_ok data name s Hdata)).
  rewrite Hprop. fold d.
  rewrite (bind_ok _ _ _ _ _ Hnew).
  rewrite (bind_ok _ _ _ _ _ (getProp_ok (VRef r) name s2 eq_refl)).
  replace (prop s2 (VRef r) name) with VUndefined
    by (unfold prop, props; rewrite Hr2, Hnone; reflexivity).
  rewrite (bind_ok _ _ _ _ _ Hbuild).
  exists (set_heap (<[r := ORecord (<[name := VRef (length (heap s2))]> ps)]> (heap s3)) s3).
  exists (VRef (length (heap s2))).
  split; [apply (setProp_ok _ _ _ _ _ Hr3) |].
  split; [rewrite tables_set_heap; congruence |].
  split.
  { split; rewrite heap_set_heap.
    - rewrite length_insert. lia.
    - intros l Hl Hne. rewrite list_lookup_insert_ne by congruence.
      rewrite Hun3 by lia. now apply Hun2. }
  split.
  { rewrite heap_set_heap. apply list_lookup_insert_eq. lia. }
  cbn [field_above]. fold d.
  exists (length (heap s2)). rewrite lookup_insert_eq.
  split; [reflexivity |]. split; [lia |].
  eapply filled_above_stable; [| exact Hfilled].
  intros l Hl1 Hl2. rewrite heap_set_heap.
  apply list_lookup_insert_ne. lia.
Qed.

End FillLoop.

Lemma field_above_stable (s0 s s' : State) (r : loc) (dv : Value)
    (ps ps' : gmap string Value) (entry : string * Field) :
  (forall l, (r < l)%nat -> (l < length (heap s))%nat -> heap s' !! l = heap s !! l) ->
  ps' !! fst entry = ps !! fst entry ->
  field_above (filled_above s0 s) s0 s r dv ps entry ->
  field_above (filled_above s0 s') s0 s' r dv ps' entry.
Proof.
  destruct entry as [name f]. cbn [fst field_above]. intros Hsame Hps.
  destruct f as [a | sub].
  - intros (v & Hv & Hd). exists v. split; [congruence |].
    destruct (bool_decide _); [| assumption].
    eapply default_above_stable; eauto.
  - intros (l & Hl & Hrl & Hn). exists l. split; [congruence |]. split; [assumption |].
    eapply filled_above_stable; [| exact Hn]. intros l' ? ?. apply Hsame; lia.
Qed.

Lemma buildField_loop (fs : list (string * Field)) :
  Forall (fun kf => builds (snd kf)) fs ->
  forall (s0 : State) (dv data : Value) (r : loc) (s : State) (ps : gmap string Value),
    well_formed s0 = true ->
    (length (heap s0) <= r)%nat ->
    nullish data = false ->
    (forall l, data = VRef l -> (l < r)%nat) ->
    NoDup (map fst fs) ->
    forallb (fun '(_, f) => unique_keys f) fs = true ->
    unchanged_below (length (heap s0)) s0 s ->
    (forall k, prop s data k = prop s0 dv k) ->
    heap s !! r = Some (ORecord ps) ->
    (forall k, In k (map fst fs) -> ps !! k = None) ->
    exists s' ps',
      forEach (buildField buildRecordIn data (VRef r)) fs s = Ok tt s'
      /\ tables s' = tables s
      /\ unchanged_except r s s'
      /\ heap s' !! r = Some (ORecord ps')
      /\ (forall k, ~ In k (map fst fs) -> ps' !! k = ps !! k)
      /\ Forall (field_above (filled_above s0 s') s0 s' r dv ps') fs.
Proof.
  induction 1 as [| [name f] fs Hf _ IH];
    intros s0 dv data r s ps Hwf Hr0 Hdata Hbelow Hnodup Huniq Hold Hprop Hr Hfresh.
  - exists s, ps. split; [reflexivity |]. split; [reflexivity |].
    split; [split; [lia | reflexivity] |]. split; [assumption |].
    split; [reflexivity | constructor].
  - cbn [map fst] in Hnodup, Hfresh. apply NoDup_cons in Hnodup as [Hname Hnodup].
    cbn [forallb] in Huniq. apply andb_prop in Huniq as [Huf Huniq].
    cbn [snd] in Hf.
    assert (Hlen : (r < length (heap s))%nat) by (eapply lookup_lt_Some; eauto).
    assert (Hstep : exists s1 v,
      buildField buildRecordIn data (VRef r) (name, f) s = Ok tt s1
      /\ tables s1 = tables s
      /\ unchanged_except r s s1
      /\ heap s1 !! r = Some (ORecord (<[name := v]> ps))
      /\ field_above (filled_above s0 s1) s0 s1 r dv (<[name := v]> ps) (name, f)).
    { destruct f as [a | sub].
      - now apply buildField_attr.
      - apply buildField_group; try assumption. apply Hfresh. now left. }
    destruct Hstep as (s1 & v & Hstep & Htab1 & Hex1 & Hr1 & Hfield).
    destruct (IH s0 dv data r s1 (<[name := v]> ps))
      as (s' & ps' & Hloop & Htab & Hex & Hr' & Hps' & Hall); try assumption.
    { eapply old_unchanged; eauto. }
    { intros k. etransitivity; [| apply Hprop]. eapply data_unchanged; eassumption. }
    { intros k Hk. rewrite lookup_insert_ne.
      - apply Hfresh. now right.
      - intros ->. apply Hname. now apply list_elem_of_In. }
    exists s', ps'. cbn [forEach]. rewrite (bind_ok _ _ _ _ _ Hstep).
    split; [exact Hloop |]. split; [congruence |].
    split; [eapply unchanged_except_trans; eauto |].
    split; [assumption |].
    split.
    { intros k Hk. rewrite Hps'.
      - apply lookup_insert_ne. intros ->. apply Hk. now left.
      - intros Hin. apply Hk. now right. }
    constructor; [| assumption].
    eapply field_above_stable; [| | exact Hfield].
    + intros l Hl1 Hl2. destruct Hex as [_ Hex]. apply Hex; [assumption | lia].
    + cbn [fst]. apply Hps'. intros Hin. apply Hname. now apply list_elem_of_In.
Qed.

Lemma builds_every_schema (schema : Field) : builds schema.
Proof.
  induction schema as [a | fs IH] using Field_nested_ind;
    intros s0 s data dv Huniq Hwf Hlen0 Hold Hdata Halloc Hview.
  - exists (set_heap (heap s ++ [ORecord ∅]) s).
    split; [reflexivity |]. split; [reflexivity |]. rewrite heap_set_heap.
    split; [rewrite length_app; cbn; lia |].
    split; [intros l Hl; rewrite heap_set_heap; now apply lookup_app_l | exact I].
  - cbn [unique_keys] in Huniq. apply andb_prop in Huniq as [Hnodup Huniq].
    apply bool_decide_eq_true in Hnodup.
    assert (Hbelow : forall l, data = VRef l -> (l < length (heap s))%nat).
    { intros l ->. cbn in Halloc. now apply bool_decide_eq_true in Halloc. }
    destruct (buildField_loop fs IH s0 dv data (length (heap s))
                (set_heap (heap s ++ [ORecord ∅]) s) ∅)
      as (s' & ps' & Hloop & Htab & [Hlen Hex] & Hr' & _ & Hall); try assumption.
    { intros l Hl. rewrite heap_set_heap. rewrite lookup_app_l by lia. now apply Hold. }
    { intros k. rewrite <- Hview. unfold prop. f_equal. f_equal.
      apply props_unchanged. intros l Hl. rewrite heap_set_heap.
      apply lookup_app_l. now apply Hbelow. }
    { rewrite heap_set_heap. apply lookup_snoc. }
    { intros k _. apply lookup_empty. }
    rewrite heap_set_heap, length_app in Hlen. cbn in Hlen.
    exists s'. cbn [buildRecordIn].
    rewrite (bind_ok _ _ _ _ _ (alloc_ok _ s)).
    rewrite (bind_ok _ _ _ _ _ Hloop).
    split; [reflexivity |]. split; [exact Htab |]. split; [lia |].
    split.
    { intros l Hl. rewrite Hex.
      - rewrite heap_set_heap. now apply lookup_app_l.
      - rewrite heap_set_heap, length_app. lia.
      - lia. }
    cbn [filled_above]. exists ps'. split; [assumption |].
    now apply foldr_and_Forall.
Qed.



(** ** Relationship existence *)

Lemma sort_no_orders (s : State) (l : list Value) : Query.sort s [] l = l.
Proof.
  unfold Query.sort. induction l as [| x l IH]; [reflexivity |].
  cbn [foldr]. rewrite IH. destruct l; reflexivity.
Qed.

Lemma query_get_unordered (e : string) (ws : list Query.Where) (s : State) :
  Query.get (Query.mk e ws [] 0 None) s
  = List.filter (Query.matches s ws) (map snd (table s e)).
Proof.
  unfold Query.get, Query.process. cbn. now rewrite sort_no_orders.
Qed.

Lemma collect_no_load (env : Env) (get_rec : t -> M (list Item))
    (first_rec : t -> Value -> M Item) (r : t) (collection : list Value) (s : State) :
  load r = [] ->
  collect env get_rec first_rec r collection s = Ok (map (item_of r) collection) s.
Proof.
  intros Hload. unfold collect, item_of. rewrite Hload.
  destruct collection as [| x xs]; [reflexivity |].
  destruct (wrap r); reflexivity.
Qed.

Lemma get_no_load (env : Env) (n : nat) (r : t) (s : State) :
  load r = [] ->
  get env (S n) r s = Ok (map (item_of r) (Query.get (query r) s)) s.
Proof. intros Hload. cbn [get]. now apply collect_no_load. Qed.

Lemma extends_refl (s : State) : extends s s.
Proof. split; [reflexivity |]. split; [lia |]. intros l _. reflexivity. Qed.

Lemma extends_trans (s1 s2 s3 : State) : extends s1 s2 -> extends s2 s3 -> extends s1 s3.
Proof.
  intros (Ht1 & Hl1 & Hu1) (Ht2 & Hl2 & Hu2).
  split; [congruence |]. split; [lia |].
  intros l Hl. rewrite Hu2 by lia. now apply Hu1.
Qed.

Lemma extends_alloc (s : State) (o : Obj) : extends s (set_heap (heap s ++ [o]) s).
Proof.
  split; [reflexivity |]. rewrite heap_set_heap.
  split; [rewrite length_app; lia |].
  intros l Hl. rewrite heap_set_heap. now apply lookup_app_l.
Qed.

Lemma table_extends (s s' : State) (e : string) : extends s s' -> table s' e = table s e.
Proof. intros (Ht & _). unfold table. now rewrite Ht. Qed.

Lemma is_record_allocated (s : State) (v : Value) :
  is_record s v = true -> allocated s v = true /\ nullish v = false.
Proof.
  destruct v as [| | | | | l]; cbn; try discriminate.
  destruct (heap s !! l) as [[ps | xs] |] eqn:E; try discriminate.
  intros _. split; [| reflexivity].
  apply bool_decide_eq_true. eapply lookup_lt_Some; eauto.
Qed.

Lemma props_extends (s s' : State) (v : Value) :
  extends s s' -> allocated s v = true -> props s' v = props s v.
Proof.
  intros (_ & _ & Hu) Hv. apply props_unchanged. intros l ->.
  apply Hu. cbn in Hv. now apply bool_decide_eq_true in Hv.
Qed.

Lemma prop_extends (s s' : State) (v : Value) (k : string) :
  extends s s' -> is_record s v = true -> prop s' v k = prop s v k.
Proof.
  intros He Hv. unfold prop. rewrite (props_extends s s' v He); [reflexivity |].
  now apply is_record_allocated.
Qed.

Lemma well_formed_table (s : State) (e : string) (v : Value) :
  well_formed s = true -> In v (map snd (table s e)) -> is_record s v = true.
Proof.
  intros Hwf Hin. apply andb_prop in Hwf as [_ Htab].
  unfold table in Hin. destruct (tables s !! e) as [t |] eqn:E; [| destruct Hin].
  cbn in Hin. rewrite forallb_forall in Htab.
  assert (Het : In (e, t) (map_to_list (tables s))).
  { apply list_elem_of_In, elem_of_map_to_list. exact E. }
  specialize (Htab _ Het). cbn in Htab. rewrite forallb_forall in Htab.
  apply in_map_iff in Hin as ([k v'] & <- & Hin). now apply Htab.
Qed.

Ltac simpl_repo :=
  cbv beta iota delta
    [where_ orWhere with_ set_query set_wrap Query.where_ Query.new
     query wrap load Repo.name Repo.entity
     Query.entity Query.wheres Query.orders Query.offset_ Query.limit_ app].

Lemma forallb_pointwise {A} (f g : A -> bool) (l : list A) :
  (forall x, f x = g x) -> forallb f l = forallb g l.
Proof.
  intros H. induction l as [| x l IH]; [reflexivity |]. cbn. now rewrite H, IH.
Qed.

Lemma existsb_pointwise {A} (f g : A -> bool) (l : list A) :
  (forall x, f x = g x) -> existsb f l = existsb g l.
Proof.
  intros H. induction l as [| x l IH]; [reflexivity |]. cbn. now rewrite H, IH.
Qed.

Lemma matches_same_props (s s' : State) (ws : list Query.Where) (v : Value) :
  props s' v = props s v -> Query.matches s' ws v = Query.matches s ws v.
Proof.
  intros H. unfold Query.matches.
  assert (Hc : forall w, Query.eval_clause s' v (Query.clause w)
                         = Query.eval_clause s v (Query.clause w)).
  { intros w. destruct (Query.clause w); cbn; unfold prop; now rewrite H. }
  now rewrite (forallb_pointwise _ _ _ Hc), (existsb_pointwise _ _ _ Hc).
Qed.

Lemma before_same_props (s s' : State) (os : list (string * Query.OrderDirection))
    (a b : Value) :
  props s' a = props s a -> props s' b = props s b ->
  Query.before s' os a b = Query.before s os a b.
Proof.
  intros Ha Hb. induction os as [| [f d] os IH]; [reflexivity |].
  cbn. unfold prop. now rewrite Ha, Hb, IH.
Qed.

Lemma insert_sorted_In (s : State) (os : list (string * Query.OrderDirection))
    (x y : Value) (ls : list Value) :
  In y (Query.insert_sorted s os x ls) <-> y = x \/ In y ls.
Proof.
  induction ls as [| z ls IH]; cbn.
  - intuition.
  - destruct (Query.before s os z x); cbn; [rewrite IH |]; intuition.
Qed.

Lemma sort_In (s : State) (os : list (string * Query.OrderDirection)) (y : Value)
    (l : list Value) :
  In y (Query.sort s os l) <-> In y l.
Proof.
  unfold Query.sort. induction l as [| x l IH]; cbn [foldr]; [reflexivity |].
  rewrite insert_sorted_In, IH. cbn. intuition.
Qed.

Lemma insert_sorted_same_props (s s' : State) (os : list (string * Query.OrderDirection))
    (x : Value) (ls : list Value) :
  props s' x = props s x ->
  (forall y, In y ls -> props s' y = props s y) ->
  Query.insert_sorted s' os x ls = Query.insert_sorted s os x ls.
Proof.
  intros Hx. induction ls as [| y ls IH]; intros Hls; [reflexivity |].
  cbn. rewrite (before_same_props s s' os y x) by (auto; apply Hls; now left).
  destruct (Query.before s os y x); [| reflexivity].
  rewrite IH; [reflexivity |]. intros z Hz. apply Hls. now right.
Qed.

Lemma sort_same_props (s s' : State) (os : list (string * Query.OrderDirection))
    (l : list Value) :
  (forall y, In y l -> props s' y = props s y) ->
  Query.sort s' os l = Query.sort s os l.
Proof.
  unfold Query.sort. induction l as [| x l IH]; intros Hl; [reflexivity |].
  cbn [foldr]. rewrite IH by (intros y Hy; apply Hl; now right).
  apply insert_sorted_same_props.
  - apply Hl. now left.
  - intros y Hy. apply Hl. right. now apply (sort_In s os y l).
Qed.

(** What a query returns depends only on the table and on the records in
    it. *)
Lemma query_get_extends (q : Query.t) (s s' : State) :
  well_formed s = true ->
  extends s s' ->
  Query.get q s' = Query.get q s.
Proof.
  intros Hwf Hext. unfold Query.get, Query.process.
  rewrite (table_extends s s' _ Hext).
  assert (Hrec : forall v, In v (map snd (table s (Query.entity q))) ->
                           props s' v = props s v).
  { intros v Hv. apply (props_extends s s' v Hext).
    apply is_record_allocated. eapply well_formed_table; eauto. }
  assert (Hfilter : List.filter (Query.matches s' (Query.wheres q))
                      (map snd (table s (Query.entity q)))
                    = List.filter (Query.matches s (Query.wheres q))
                        (map snd (table s (Query.entity q)))).
  { apply List.filter_ext_in. intros v Hv. apply matches_same_props. now apply Hrec. }
  rewrite Hfilter. do 2 f_equal. apply sort_same_props.
  intros y Hy. apply Hrec. apply filter_In in Hy. tauto.
Qed.

Lemma calls_load (calls : list Call) (q : t) :
  forallb no_with calls = true ->
  load (foldl (fun q c => call c q) q calls) = load q.
Proof.
  revert q. induction calls as [| c calls IH]; intros q H; [reflexivity |].
  cbn in H. apply andb_prop in H as [Hc H]. cbn [foldl]. rewrite IH by assumption.
  destruct c; try reflexivity. discriminate Hc.
Qed.

Lemma record_of_item_of (r : t) (xs : list Value) :
  map record_of (map (item_of r) xs) = xs.
Proof.
  rewrite map_map. unfold item_of. destruct (wrap r); cbn; apply map_id.
Qed.

Lemma addConstraint_simple (env : Env) (n : nat) (q : t) (rel : string)
    (con : option Constraint) (s s' : State) :
  split rel = [rel] ->
  simple con = true ->
  load q = [] ->
  well_formed s = true ->
  extends s s' ->
  addConstraint (get env (S n)) q (mkRelation rel con) s' = Ok (constrain s con q) s'
  /\ load (constrain s con q) = [].
Proof.
  intros Hsplit Hsimple Hload Hwf Hext.
  unfold addConstraint. cbn [rel_name rel_constraint]. rewrite Hsplit.
  destruct con as [[calls result |] |]; cbn in Hsimple; try discriminate.
  - assert (Hload' : load (foldl (fun q c => call c q) q calls) = []).
    { now rewrite calls_load. }
    cbn [constrain apply_constraint].
    destruct result as [| b | op k].
    + split; [reflexivity | exact Hload'].
    + split; [reflexivity | exact Hload'].
    + split; [| exact Hload'].
      unfold count_with, bind.
      rewrite (get_no_load env n (set_wrap false _) s' Hload').
      cbv beta iota. unfold ret. rewrite length_map.
      change (query (set_wrap false ?x)) with (query x).
      now rewrite (query_get_extends _ s s' Hwf Hext).
  - split; [reflexivity | exact Hload].
Qed.

Lemma loadHasMany_simple (env : Env) (n : nat) (c : Class.t) (m : Model) (fk rel : string)
    (con : option Constraint) (p : Value) (s s' : State) :
  registry env !! Class.entity c = Some m ->
  split rel = [rel] ->
  simple con = true ->
  well_formed s = true ->
  extends s s' ->
  is_record s p = true ->
  loadHasManyRelation env (get env (S n)) p (ByClass c) fk (mkRelation rel con) s'
  = Ok (VRef (length (heap s')))
      (set_heap (heap s' ++ [OArray (related_under s m (Class.entity c) fk con p)]) s').
Proof.
  intros Hm Hsplit Hsimple Hwf Hext Hp.
  destruct (is_record_allocated s p Hp) as [_ Hnull].
  unfold loadHasManyRelation.
  rewrite (bind_ok _ _ _ _ _ (eq_refl : resolveRelation env (ByClass c) s' = Ok c s')).
  rewrite (bind_ok _ _ _ _ _ (new_ok env _ false s' m Hm)).
  rewrite (bind_ok _ _ _ _ _ (getProp_ok p "id" s' Hnull)).
  rewrite (prop_extends s s' p "id" Hext Hp).
  set (q := where_ _ _).
  destruct (addConstraint_simple env n q rel con s s' Hsplit Hsimple eq_refl Hwf Hext)
    as [Hadd Hload].
  rewrite (bind_ok _ _ _ _ _ Hadd).
  rewrite (bind_ok _ _ _ _ _ (get_no_load env n _ s' Hload)).
  rewrite record_of_item_of.
  rewrite (query_get_extends _ s s' Hwf Hext). reflexivity.
Qed.

Lemma hasRelation_simple (env : Env) (n : nat) (r : t) (c : Class.t) (m : Model)
    (fk rel : string) (arg : HasArg) (count : option Z) (p : Value) (s s' : State) :
  field_lookup (fields (entity r)) rel = Some (FAttr (HasMany (ByClass c) fk)) ->
  registry env !! Class.entity c = Some m ->
  split rel = [rel] ->
  simple (has_constraint arg count) = true ->
  well_formed s = true ->
  extends s s' ->
  is_record s p = true ->
  exists s'',
    hasRelation env (S n) r p rel arg count s'
    = Ok (has_related s m (Class.entity c) fk (has_constraint arg count) p) s''
    /\ extends s s''.
Proof.
  intros Hfield Hm Hsplit Hcon Hwf Hext Hp.
  set (con := has_constraint arg count) in *.
  set (xs := related_under s m (Class.entity c) fk con p).
  set (L := length (heap s')).
  set (s1 := set_heap (heap s' ++ [ORecord (props s' p)]) s').
  set (s2 := set_heap (heap s1 ++ [OArray xs]) s1).
  set (s3 := set_heap (<[L := ORecord (<[rel := VRef (S L)]> (props s' p))]> (heap s2)) s2).
  assert (Hext1 : extends s s1).
  { eapply extends_trans; [exact Hext | apply extends_alloc]. }
  assert (HL1 : length (heap s1) = S L).
  { unfold s1. rewrite heap_set_heap, length_app. cbn. lia. }
  assert (Hload : loadHasManyRelation env (get env (S n)) p (ByClass c) fk
                    (mkRelation rel con) s1 = Ok (VRef (S L)) s2).
  { rewrite (loadHasMany_simple env n c m fk rel con p s s1); try assumption.
    now rewrite HL1. }
  assert (HL2 : heap s2 !! L = Some (ORecord (props s' p))).
  { unfold s2, s1. rewrite !heap_set_heap.
    rewrite lookup_app_l by (rewrite length_app; cbn; lia). apply lookup_snoc. }
  assert (Hrun : loadRelations env (get env (S n)) (first env (S n)) (fields (entity r)) p
                   [mkRelation rel con] VUndefined s' = Ok (VRef L) s3).
  { unfold loadRelations. cbn [loadRelationsIn truthy].
    rewrite (bind_ok _ _ _ _ _ (eq_refl : spread p s' = Ok (VRef L) s1)).
    cbn [reduce rel_name]. rewrite Hsplit. cbn [hd]. rewrite Hfield.
    unfold bind at 1. unfold bind at 1. cbn [loadAttr].
    rewrite (bind_ok _ _ _ _ _ Hload). cbn [ret].
    rewrite (bind_ok _ _ _ _ _ (setProp_ok L rel (VRef (S L)) s2 _ HL2)).
    reflexivity. }
  exists s3. split.
  - unfold hasRelation. fold con. rewrite (bind_ok _ _ _ _ _ Hrun).
    rewrite (bind_ok _ _ _ _ _ (getProp_ok (VRef L) rel s3 eq_refl)).
    unfold has_related. fold xs. do 2 f_equal.
    assert (Hp3 : prop s3 (VRef L) rel = VRef (S L)).
    { unfold prop, props, s3. rewrite heap_set_heap.
      rewrite list_lookup_insert_eq by (eapply lookup_lt_Some; eauto).
      now rewrite lookup_insert_eq. }
    rewrite Hp3. unfold isEmpty, s3, s2. rewrite !heap_set_heap.
    rewrite list_lookup_insert_ne by lia. rewrite <- HL1, lookup_snoc. reflexivity.
  - assert (Hext2 : extends s s2).
    { eapply extends_trans; [exact Hext1 | apply extends_alloc]. }
    destruct Hext2 as (Ht & Hlen & Hun). destruct Hext as (_ & Hlen0 & _).
    split; [exact Ht |]. unfold s3. rewrite heap_set_heap, length_insert.
    split; [exact Hlen |]. intros l Hl. rewrite heap_set_heap.
    rewrite list_lookup_insert_ne by (unfold L; lia). now apply Hun.
Qed.

Lemma related_under_same_id (s : State) (m : Model) (e fk : string)
    (c : option Constraint) (p p' : Value) :
  prop s p "id" = prop s p' "id" ->
  related_under s m e fk c p = related_under s m e fk c p'.
Proof. intros H. unfold related_under. now rewrite H. Qed.

Lemma filter_and_const {A} (f : A -> bool) (b : bool) (l : list A) :
  List.filter (fun x => f x && b) l = if b then List.filter f l else [].
Proof.
  destruct b.
  - apply List.filter_ext. intros x. apply andb_true_r.
  - induction l as [| x l IH]; [reflexivity |].
    cbn. now rewrite andb_false_r.
Qed.

Lemma related_under_none (s : State) (m : Model) (e fk : string) (p : Value) :
  related_under s m e fk None p = related s e fk p.
Proof.
  unfold related_under, related. cbn [constrain]. simpl_repo.
  rewrite query_get_unordered. apply List.filter_ext. intros x.
  unfold Query.matches. cbn. now rewrite andb_true_r, orb_false_r.
Qed.

Lemma related_under_count (s : State) (m : Model) (e fk : string) (op : CountOp) (k : Z)
    (p : Value) :
  related_under s m e fk (Some (Script [] (RetCount op k))) p
  = constrained (Some (Script [] (RetCount op k))) (related s e fk p).
Proof.
  unfold related_under. cbn [constrain constrained foldl].
  rewrite <- (related_under_none s m e fk p). unfold related_under. cbn [constrain].
  simpl_repo. rewrite !query_get_unordered.
  set (xs := List.filter _ _).
  set (b := compare_count op (Z.of_nat (length xs)) k).
  unfold xs. rewrite <- filter_and_const. apply List.filter_ext. intros x.
  unfold Query.matches. cbn. now rewrite !andb_true_r, !orb_false_r.
Qed.

Lemma filter_by_keys {A} (key : A -> Value) (f : A -> bool) (l : list A) :
  (forall x y, key x = key y -> f x = f y) ->
  List.filter (fun x => includes (map key (List.filter f l)) (key x)) l = List.filter f l.
Proof.
  intros Hkey. apply List.filter_ext_in. intros x Hx. unfold includes.
  destruct (f x) eqn:Hfx.
  - apply existsb_exists. exists (key x). split.
    + apply in_map. apply filter_In. now split.
    + unfold strict_eq. now apply bool_decide_eq_true.
  - apply not_true_is_false. intros H.
    apply existsb_exists in H as (k & Hk & Heq).
    apply in_map_iff in Hk as (y & <- & Hy). apply filter_In in Hy as [_ Hfy].
    unfold strict_eq in Heq. apply bool_decide_eq_true in Heq.
    rewrite (Hkey x y Heq) in Hfx. congruence.
Qed.

Lemma filter_all {A} (f : A -> bool) (l : list A) :
  (forall x, f x = true) -> List.filter f l = l.
Proof.
  intros H. induction l as [| x l IH]; [reflexivity |].
  cbn. now rewrite H, IH.
Qed.

Section HasMany.

Variables (env : Env) (n : nat) (r : t) (c : Class.t) (m : Model).
Variables (fk rel : string) (arg : HasArg) (count : option Z) (existence : bool).
Variable s : State.
Hypothesis Hfield :
  field_lookup (fields (entity r)) rel = Some (FAttr (HasMany (ByClass c) fk)).
Hypothesis Hm : registry env !! Class.entity c = Some m.
Hypothesis Hsplit : split rel = [rel].
Hypothesis Hcon : simple (has_constraint arg count) = true.
Hypothesis Hwf : well_formed s = true.

Lemma has_scan (id : string) (items : list Value) :
  (forall p, In p items -> is_record s p = true) ->
  forall (ids : list Value) (s' : State),
    extends s s' ->
    exists s'',
      reduce (fun ids item =>
                let* b := hasRelation env (S n) r item rel arg count in
                if Bool.eqb b existence then
                  let* key := getProp item id in ret (ids ++ [key])
                else ret ids) items ids s'
      = Ok (ids ++ map (fun p => prop s p id)
                     (List.filter
                        (fun p => Bool.eqb
                                    (has_related s m (Class.entity c) fk
                                       (has_constraint arg count) p) existence)
                        items)) s''
      /\ extends s s''.
Proof.
  induction items as [| p items IH]; intros Hrec ids s' Hext.
  - exists s'. cbn. rewrite app_nil_r. auto.
  - assert (Hp : is_record s p = true) by (apply Hrec; now left).
    destruct (hasRelation_simple env n r c m fk rel arg count p s s'
                Hfield Hm Hsplit Hcon Hwf Hext Hp) as (s1 & Hhas & Hext1).
    cbn [reduce List.filter]. unfold bind at 1. unfold bind at 1. rewrite Hhas.
    destruct (Bool.eqb _ existence).
    + destruct (is_record_allocated s p Hp) as [_ Hnull].
      rewrite (bind_ok _ _ _ _ _ (getProp_ok p id s1 Hnull)). cbn [ret].
      rewrite (prop_extends s s1 p id Hext1 Hp).
      destruct (IH (fun q Hq => Hrec q (or_intror Hq)) (ids ++ [prop s p id]) s1 Hext1)
        as (s'' & Hred & Hext'').
      exists s''. split; [| exact Hext''].
      rewrite Hred. cbn [map]. now rewrite <- app_assoc.
    + cbn [ret].
      destruct (IH (fun q Hq => Hrec q (or_intror Hq)) ids s1 Hext1)
        as (s'' & Hred & Hext'').
      exists s''. split; [exact Hred | exact Hext''].
Qed.

End HasMany.

Lemma has_then_get (env : Env) (n : nat) (posts : string) (Post : Model) (w : bool)
    (c : Class.t) (m : Model) (fk rel : string) (arg : HasArg) (count : option Z)
    (existence : bool) (s : State) :
  registry env !! posts = Some Post ->
  Class.primaryKey (class Post) = "id" ->
  field_lookup (fields Post) rel = Some (FAttr (HasMany (ByClass c) fk)) ->
  registry env !! Class.entity c = Some m ->
  split rel = [rel] ->
  simple (has_constraint arg count) = true ->
  well_formed s = true ->
  exists r1 s1,
    addHasConstraint env (S n) rel arg count existence
      (mk posts Post w [] (Query.new posts)) s = Ok r1 s1
    /\ extends s s1
    /\ get env (S n) r1 s1
       = Ok (map (item_of (mk posts Post w [] (Query.new posts)))
               (List.filter
                  (fun p => Bool.eqb
                              (has_related s m (Class.entity c) fk
                                 (has_constraint arg count) p) existence)
                  (map snd (table s posts)))) s1.
Proof.
  intros Hposts Hpk Hfield Hm Hsplit Hcon Hwf.
  set (r := mk posts Post w [] (Query.new posts)).
  set (f := fun p => Bool.eqb (has_related s m (Class.entity c) fk
                                 (has_constraint arg count) p) existence).
  assert (Hitems : Query.get (Query.new (name r)) s = map snd (table s posts)).
  { unfold Query.new. rewrite query_get_unordered. now apply filter_all. }
  destruct (has_scan env n r c m fk rel arg count existence s Hfield Hm Hsplit Hcon Hwf
              "id" (map snd (table s posts))
              (fun p Hp => well_formed_table s posts p Hwf Hp) [] s (extends_refl s))
    as (s1 & Hscan & Hext).
  fold f in Hscan. cbn [app] in Hscan.
  set (ids := map (fun p => prop s p "id") (List.filter f (map snd (table s posts)))) in *.
  exists (where_ (Query.WhereTest "id" (includes ids)) r), s1.
  split; [| split; [exact Hext |]].
  - unfold addHasConstraint.
    assert (Hkey : primaryKey env r s = Ok "id" s).
    { unfold primaryKey, model. cbn [name r]. rewrite Hposts. cbn. now rewrite Hpk. }
    rewrite (bind_ok _ _ _ _ _ Hkey).
    rewrite (bind_ok _ _ _ _ _ (eq_refl : get_state s = Ok s s)).
    rewrite Hitems. rewrite (bind_ok _ _ _ _ _ Hscan). reflexivity.
  - rewrite get_no_load by reflexivity.
    do 2 f_equal. unfold r. simpl_repo. rewrite query_get_unordered.
    rewrite (table_extends s s1 posts Hext).
    rewrite <- (filter_by_keys (fun p => prop s p "id") f).
    + apply List.filter_ext_in. intros p Hp. unfold Query.matches. cbn.
      rewrite andb_true_r, orb_false_r. fold ids. f_equal.
      apply (prop_extends s s1 p "id" Hext). eapply well_formed_table; eauto.
    + intros x y Hxy. unfold f, has_related.
      now rewrite (related_under_same_id s m (Class.entity c) fk _ x y Hxy).
Qed.

Lemma has_exactly (xs : list Value) (k : nat) :
  k <> 0%nat ->
  Bool.eqb (negb (bool_decide (constrained (Some (Script [] (RetCount CountEq (Z.of_nat k)))) xs
                               = []))) true
  = Nat.eqb (length xs) k.
Proof.
  intros Hk. cbn [constrained compare_count].
  destruct (Z.eqb_spec (Z.of_nat (length xs)) (Z.of_nat k)) as [E | E].
  - apply Nat2Z.inj in E. rewrite E, Nat.eqb_refl.
    destruct xs; [cbn in E; congruence | reflexivity].
  - destruct (Nat.eqb_spec (length xs) k) as [E' | E']; [congruence | reflexivity].
Qed.

Lemma has_none (xs : list Value) :
  Bool.eqb (negb (bool_decide (xs = []))) false = Nat.eqb (length xs) 0.
Proof. destruct xs; reflexivity. Qed.

Lemma nonempty_decide (xs : list Value) : negb (bool_decide (xs = [])) = nonempty xs.
Proof. destruct xs; reflexivity. Qed.

Lemma has_then_selects (env : Env) (n : nat) (posts : string) (Post : Model) (w : bool)
    (c : Class.t) (m : Model) (fk rel : string) (arg : HasArg) (count : option Z)
    (existence : bool) (s : State) (sel : Value -> bool) :
  registry env !! posts = Some Post ->
  Class.primaryKey (class Post) = "id" ->
  field_lookup (fields Post) rel = Some (FAttr (HasMany (ByClass c) fk)) ->
  registry env !! Class.entity c = Some m ->
  split rel = [rel] ->
  well_formed s = true ->
  simple (has_constraint arg count) = true ->
  (forall p, nonempty (related_under s m (Class.entity c) fk (has_constraint arg count) p)
             = sel p) ->
  selects env (S n) (mk posts Post w [] (Query.new posts)) rel arg count existence s sel.
Proof.
  intros Hposts Hpk Hfield Hm Hsplit Hwf Hcon Hsel.
  destruct (has_then_get env n posts Post w c m fk rel arg count existence s)
    as (r1 & s1 & Hhas & Hext & Hget); try assumption.
  exists r1, s1. split; [| split; [exact Hext |]].
  - destruct existence; exact Hhas.
  - rewrite Hget. do 2 f_equal. apply List.filter_ext. intros p.
    unfold has_related. now rewrite nonempty_decide, Hsel.
Qed.

Lemma related_under_compared (s : State) (m : Model) (e fk : string) (op : CountOp)
    (k : Z) (p : Value) :
  related_under s m e fk (Some (Script [] (RetCount op k))) p
  = if compare_count op (Z.of_nat (length (related s e fk p))) k
    then related s e fk p else [].
Proof. now rewrite related_under_count. Qed.




(** ** Relation loading on schemas without nested groups *)

Lemma preserves_ret {A} (n : nat) (a : A) : preserves n (ret a).
Proof.
  intros s a' s' _ [= <- <-]. split; [reflexivity |]. split; [lia |].
  intros l _. reflexivity.
Qed.

Lemma preserves_throw {A} (n : nat) (e : Error) : preserves n (@throw A e).
Proof. intros s a s' _ H. discriminate H. Qed.

Lemma preserves_bind {A B} (n : nat) (m : M A) (k : A -> M B) (Q : A -> Prop) :
  preserves n m ->
  (forall s a s', (n <= length (heap s))%nat -> m s = Ok a s' -> Q a) ->
  (forall a, Q a -> preserves n (k a)) ->
  preserves n (bind m k).
Proof.
  intros Hm HQ Hk s b s' Hn H. unfold bind in H.
  destruct (m s) as [a s1 | |] eqn:E; try discriminate.
  destruct (Hm s a s1 Hn E) as (Ht1 & Hl1 & Hu1).
  destruct (Hk a (HQ s a s1 Hn E) s1 b s' ltac:(lia) H) as (Ht2 & Hl2 & Hu2).
  split; [congruence |]. split; [lia |].
  intros l Hl. rewrite Hu2 by assumption. now apply Hu1.
Qed.

Lemma preserves_bind_any {A B} (n : nat) (m : M A) (k : A -> M B) :
  preserves n m -> (forall a, preserves n (k a)) -> preserves n (bind m k).
Proof.
  intros Hm Hk. apply (preserves_bind n m k (fun _ => True)); auto.
Qed.

Lemma preserves_getProp (n : nat) (v : Value) (k : string) : preserves n (getProp v k).
Proof.
  intros s a s' _ H. unfold getProp in H. destruct (nullish v); [discriminate |].
  injection H as <- <-. split; [reflexivity |]. split; [lia |]. intros l _. reflexivity.
Qed.

Lemma preserves_alloc (n : nat) (o : Obj) : preserves n (alloc o).
Proof.
  intros s a s' Hn [= <- <-]. split; [reflexivity |]. rewrite heap_set_heap.
  split; [rewrite length_app; lia |].
  intros l Hl. rewrite heap_set_heap. apply lookup_app_l. lia.
Qed.

Lemma preserves_setProp (n : nat) (L : loc) (k : string) (x : Value) :
  (n <= L)%nat -> preserves n (setProp (VRef L) k x).
Proof.
  intros HL s a s' Hn H. unfold setProp in H.
  destruct (heap s !! L) as [[ps | xs] |]; try discriminate;
    injection H as _ Hs; subst s'.
  - split; [reflexivity |]. rewrite heap_set_heap, length_insert.
    split; [lia |]. intros l Hl. rewrite heap_set_heap.
    apply list_lookup_insert_ne. lia.
  - split; [reflexivity |]. split; [lia |]. intros l _. reflexivity.
Qed.

Lemma preserves_mapM {A B} (n : nat) (f : A -> M B) (l : list A) :
  (forall x, preserves n (f x)) -> preserves n (mapM f l).
Proof.
  intros Hf. induction l as [| x l IH]; cbn [mapM].
  - apply preserves_ret.
  - apply preserves_bind_any; [apply Hf |]. intros y.
    apply preserves_bind_any; [apply IH |]. intros ys. apply preserves_ret.
Qed.

Lemma preserves_forEach {A} (n : nat) (f : A -> M unit) (l : list A) :
  Forall (fun x => preserves n (f x)) l -> preserves n (forEach f l).
Proof.
  induction 1 as [| x l Hx _ IH]; cbn [forEach].
  - apply preserves_ret.
  - apply preserves_bind_any; [exact Hx | intros _; exact IH].
Qed.

Lemma preserves_reduce {A B} (n : nat) (f : B -> A -> M B) (I : B -> Prop) (l : list A) :
  (forall acc x, I acc -> preserves n (f acc x)) ->
  (forall acc x s acc' s', I acc -> f acc x s = Ok acc' s' -> I acc') ->
  forall acc, I acc -> preserves n (reduce f l acc).
Proof.
  intros Hf HI. induction l as [| x l IH]; intros acc Hacc; cbn [reduce].
  - apply preserves_ret.
  - apply (preserves_bind n (f acc x) _ I).
    + now apply Hf.
    + intros s a s' _ H. eapply HI; eauto.
    + intros a Ha. now apply IH.
Qed.

Lemma bind_inv {A B} (m : M A) (k : A -> M B) (s : State) (b : B) (s' : State) :
  bind m k s = Ok b s' -> exists a s1, m s = Ok a s1 /\ k a s1 = Ok b s'.
Proof.
  unfold bind. destruct (m s) as [a s1 | |]; try discriminate. eauto.
Qed.

Lemma call_entity (c : Call) (q : t) : entity (call c q) = entity q.
Proof. destruct c; reflexivity. Qed.

Lemma calls_entity (calls : list Call) (q : t) :
  entity (foldl (fun q c => call c q) q calls) = entity q.
Proof.
  revert q. induction calls as [| c calls IH]; intros q; [reflexivity |].
  cbn [foldl]. rewrite IH. apply call_entity.
Qed.

Section Frame.

Variable env : Env.
Hypothesis Hflat : flat_registry env.
Variable get_rec : t -> M (list Item).
Variable first_rec : t -> Value -> M Item.
Hypothesis Hget :
  forall n q, flat (fields (entity q)) = true -> preserves n (get_rec q).
Hypothesis Hfirst :
  forall n q id, flat (fields (entity q)) = true -> preserves n (first_rec q id).

Lemma preserves_new (n : nat) (e : string) (w : bool) : preserves n (new env e w).
Proof.
  unfold new, model. destruct (registry env !! e).
  - apply preserves_bind_any; [apply preserves_ret | intros; apply preserves_ret].
  - apply preserves_bind_any; [apply preserves_throw | intros; apply preserves_ret].
Qed.

Lemma new_flat (e : string) (w : bool) (s s' : State) (q : t) :
  new env e w s = Ok q s' -> flat (fields (entity q)) = true.
Proof.
  intros H. apply new_inv in H as (_ & m & Hm & ->). cbn. eapply Hflat; eauto.
Qed.

Lemma preserves_resolveRelation (n : nat) (m : RelModel) :
  preserves n (resolveRelation env m).
Proof.
  destruct m as [c | name]; cbn; [apply preserves_ret |].
  destruct (global_name env) as [g |]; [| apply preserves_throw].
  unfold model. destruct (registry env !! g).
  - apply preserves_bind_any; [apply preserves_ret | intros; apply preserves_ret].
  - apply preserves_bind_any; [apply preserves_throw | intros; apply preserves_ret].
Qed.

Lemma preserves_apply_constraint (n : nat) (c : Constraint) (q : t) :
  flat (fields (entity q)) = true ->
  preserves n (apply_constraint get_rec c q).
Proof.
  intros Hq. destruct c as [calls result |]; cbn [apply_constraint];
    [| apply preserves_throw].
  destruct result as [| b | op k]; try apply preserves_ret.
  apply preserves_bind_any.
  - unfold count_with. apply preserves_bind_any.
    + apply Hget. cbn. now rewrite calls_entity.
    + intros xs. apply preserves_ret.
  - intros [cnt q']. apply preserves_ret.
Qed.

Lemma apply_constraint_entity (c : Constraint) (q q' : t) (b : option bool) (s s' : State) :
  apply_constraint get_rec c q s = Ok (q', b) s' -> entity q' = entity q.
Proof.
  destruct c as [calls result |]; cbn [apply_constraint]; [| discriminate].
  destruct result as [| b0 | op k].
  - intros [= <- _ _]. apply calls_entity.
  - intros [= <- _ _]. apply calls_entity.
  - intros H. apply bind_inv in H as ([cnt q1] & s1 & H1 & H2).
    injection H2 as <- _ _.
    unfold count_with in H1. apply bind_inv in H1 as (xs & s2 & _ & H1).
    injection H1 as _ <- _. cbn. apply calls_entity.
Qed.

Lemma preserves_addConstraint (n : nat) (q : t) (rel : Relation) :
  flat (fields (entity q)) = true ->
  preserves n (addConstraint get_rec q rel).
Proof.
  intros Hq. unfold addConstraint.
  destruct (split (rel_name rel)) as [| a [| b rest]]; try apply preserves_ret.
  destruct (rel_constraint rel) as [c |]; [| apply preserves_ret].
  apply preserves_bind_any; [now apply preserves_apply_constraint |].
  intros [q' [b |]]; apply preserves_ret.
Qed.

Lemma addConstraint_entity (q q' : t) (rel : Relation) (s s' : State) :
  addConstraint get_rec q rel s = Ok q' s' -> entity q' = entity q.
Proof.
  unfold addConstraint.
  destruct (split (rel_name rel)) as [| a [| b rest]].
  - intros [= <- _]. reflexivity.
  - destruct (rel_constraint rel) as [c |]; [| now intros [= <- _]].
    intros H. apply bind_inv in H as ([q1 b] & s1 & H1 & H2).
    apply apply_constraint_entity in H1.
    destruct b; injection H2 as <- _; exact H1.
  - intros [= <- _]. reflexivity.
Qed.

Lemma preserves_constrained_query (n : nat) (c : Query.Clause)
    (rel : Relation) (B : Type) (k : t -> M B) :
  (forall q, flat (fields (entity q)) = true -> preserves n (k q)) ->
  forall q, flat (fields (entity q)) = true ->
    preserves n (bind (addConstraint get_rec (where_ c q) rel) k).
Proof.
  intros Hk q Hq.
  apply (preserves_bind n _ _ (fun q' => flat (fields (entity q')) = true)).
  - now apply preserves_addConstraint.
  - intros s q' s' _ H. apply addConstraint_entity in H. now rewrite H.
  - exact Hk.
Qed.

Lemma preserves_loadAttr (n : nat) (base : Value) (a : Attr) (rel : Relation) :
  preserves n (loadAttr env get_rec first_rec base a rel).
Proof.
  destruct a as [v | m fk | m fk | m fk | m fk ok]; cbn [loadAttr];
    [apply preserves_ret | | | |];
    (apply preserves_bind_any; [| intros; apply preserves_ret]).
  - unfold loadHasOneRelation.
    apply preserves_bind_any; [apply preserves_resolveRelation | intros c].
    apply (preserves_bind n _ _ (fun q => flat (fields (entity q)) = true));
      [apply preserves_new | intros s q s' _ H; eapply new_flat; eauto | intros q Hq].
    apply preserves_bind_any; [apply preserves_getProp | intros id].
    refine (preserves_constrained_query n _ _ _ _ _ q Hq).
    intros q' Hq'. apply preserves_bind_any; [now apply Hfirst |].
    intros i. apply preserves_ret.
  - unfold loadBelongsToRelation.
    apply preserves_bind_any; [apply preserves_resolveRelation | intros c].
    apply preserves_bind_any; [apply preserves_getProp | intros id].
    apply (preserves_bind n _ _ (fun q => flat (fields (entity q)) = true));
      [apply preserves_new | intros s q s' _ H; eapply new_flat; eauto | intros q Hq].
    apply (preserves_bind n _ _ (fun q' => flat (fields (entity q')) = true)).
    + now apply preserves_addConstraint.
    + intros s q' s' _ H. apply addConstraint_entity in H. now rewrite H.
    + intros q' Hq'. apply preserves_bind_any; [now apply Hfirst |].
      intros i. apply preserves_ret.
  - unfold loadHasManyRelation.
    apply preserves_bind_any; [apply preserves_resolveRelation | intros c].
    apply (preserves_bind n _ _ (fun q => flat (fields (entity q)) = true));
      [apply preserves_new | intros s q s' _ H; eapply new_flat; eauto | intros q Hq].
    apply preserves_bind_any; [apply preserves_getProp | intros id].
    refine (preserves_constrained_query n _ _ _ _ _ q Hq).
    intros q' Hq'. apply preserves_bind_any; [now apply Hget |].
    intros xs. apply preserves_alloc.
  - unfold loadHasManyByRelation.
    apply preserves_bind_any; [apply preserves_resolveRelation | intros c].
    apply preserves_bind_any; [apply preserves_getProp | intros keys].
    apply preserves_bind_any.
    { intros s a s' _ H. unfold elements in H.
      destruct keys as [| | | | | l]; try discriminate.
      destruct (heap s !! l) as [[ps | xs] |]; try discriminate.
      injection H as _ <-. split; [reflexivity |]. split; [lia |].
      intros l' _. reflexivity. }
    intros ids. apply preserves_bind_any; [| intros; apply preserves_alloc].
    apply preserves_mapM. intros id.
    apply (preserves_bind n _ _ (fun q => flat (fields (entity q)) = true));
      [apply preserves_new | intros s q s' _ H; eapply new_flat; eauto | intros q Hq].
    refine (preserves_constrained_query n _ _ _ _ _ q Hq).
    intros q' Hq'. apply preserves_bind_any; [now apply Hfirst |].
    intros i. apply preserves_ret.
Qed.

End Frame.

Section FrameLoad.

Variable env : Env.
Hypothesis Hflat : flat_registry env.
Variable get_rec : t -> M (list Item).
Variable first_rec : t -> Value -> M Item.
Hypothesis Hget :
  forall n q, flat (fields (entity q)) = true -> preserves n (get_rec q).
Hypothesis Hfirst :
  forall n q id, flat (fields (entity q)) = true -> preserves n (first_rec q id).

Lemma preserves_loadRelations (n : nat) (fields : Fields) (base : Value)
    (load : list Relation) :
  flat fields = true ->
  preserves n (loadRelations env get_rec first_rec fields base load VUndefined).
Proof.
  intros Hfields. unfold loadRelations. cbn [loadRelationsIn truthy].
  apply (preserves_bind n _ _ (fun v => exists L, v = VRef L /\ (n <= L)%nat)).
  - intros s a s' Hn H. apply (preserves_alloc n _ s a s' Hn H).
  - intros s a s' Hn [= <- _]. eauto.
  - intros a (L & -> & HL).
    apply (preserves_reduce n _ (fun acc => acc = VRef L)); [| | reflexivity].
    + intros acc rel ->. cbv zeta.
      destruct (field_lookup fields _) as [[attr | sub] |].
      * apply preserves_bind_any; [now apply preserves_loadAttr |].
        intros [v |]; [| apply preserves_ret].
        apply preserves_bind_any; [now apply preserves_setProp |].
        intros _. apply preserves_ret.
      * apply preserves_bind_any; [| intros _; apply preserves_ret].
        apply preserves_forEach. apply Forall_forall. intros [key f] Hin.
        unfold flat in Hfields. rewrite forallb_forall in Hfields.
        apply list_elem_of_In in Hin. specialize (Hfields _ Hin). cbn in Hfields.
        destruct f; [| discriminate].
        destruct (_ || _); [apply preserves_throw | apply preserves_ret].
      * apply preserves_bind_any; [| intros _; apply preserves_ret].
        apply preserves_forEach. apply Forall_forall. intros [key f] Hin.
        unfold flat in Hfields. rewrite forallb_forall in Hfields.
        apply list_elem_of_In in Hin. specialize (Hfields _ Hin). cbn in Hfields.
        destruct f; [| discriminate].
        destruct (_ || _); [apply preserves_throw | apply preserves_ret].
    + intros acc rel s acc' s' -> H. cbv zeta in H.
      destruct (field_lookup fields _) as [[attr | sub] |].
      * apply bind_inv in H as ([v |] & s1 & _ & H).
        -- apply bind_inv in H as (u & s2 & _ & H). now injection H as <- _.
        -- now injection H as <- _.
      * apply bind_inv in H as (u & s1 & _ & H). now injection H as <- _.
      * apply bind_inv in H as (u & s1 & _ & H). now injection H as <- _.
Qed.

Lemma preserves_collect (n : nat) (r : t) (collection : list Value) :
  flat (fields (entity r)) = true ->
  preserves n (collect env get_rec first_rec r collection).
Proof.
  intros Hr. unfold collect.
  destruct collection as [| x xs]; [apply preserves_ret |].
  apply preserves_bind_any.
  - destruct (load r); [apply preserves_ret |].
    apply preserves_mapM. intros data. now apply preserves_loadRelations.
  - intros items. destruct (negb (wrap r)); apply preserves_ret.
Qed.

Lemma preserves_item (n : nat) (r : t) (queryItem : Value) :
  flat (fields (entity r)) = true ->
  preserves n (item env get_rec first_rec r queryItem).
Proof.
  intros Hr. unfold item.
  destruct (negb (truthy queryItem)); [apply preserves_ret |].
  apply preserves_bind_any.
  - destruct (load r); [apply preserves_ret |]. now apply preserves_loadRelations.
  - intros it. destruct (negb (wrap r)); apply preserves_ret.
Qed.

End FrameLoad.

Lemma preserves_get_first (env : Env) (fuel : nat) :
  flat_registry env ->
  forall (n : nat) (r : t),
    flat (fields (entity r)) = true ->
    preserves n (get env fuel r) /\ forall id, preserves n (first env fuel r id).
Proof.
  intros Hflat. induction fuel as [| fuel IH]; intros n r Hr.
  - split; [| intros id]; intros s a s' _ H; discriminate H.
  - assert (Hget : forall n q, flat (fields (entity q)) = true ->
                               preserves n (get env fuel q)).
    { intros n' q Hq. now apply IH. }
    assert (Hfirst : forall n q id, flat (fields (entity q)) = true ->
                                    preserves n (first env fuel q id)).
    { intros n' q id Hq. now apply IH. }
    split; [| intros id]; intros s a s' Hn H; cbn [get first] in H.
    + eapply (preserves_collect env Hflat _ _ Hget Hfirst n r); eauto.
    + eapply (preserves_item env Hflat _ _ Hget Hfirst n r); eauto.
Qed.

(** X1: On schemas without nested groups of fields relation loading is a
    read-time projection: whatever [get()] and [first()] load, the
    tables and every object of the state are left as they were. *)
Theorem flat_loading_leaves_store (env : Env) (fuel : nat) (r : t) (s : State) :
  flat_registry env ->
  flat (fields (entity r)) = true ->
  (forall xs s', get env fuel r s = Ok xs s' -> extends s s')
  /\ (forall id x s', first env fuel r id s = Ok x s' -> extends s s').
Proof.
  intros Hflat Hr.
  destruct (preserves_get_first env fuel Hflat (length (heap s)) r Hr) as [Hg Hf].
  split.
  - intros xs s' H. apply (Hg s xs s'); [lia | exact H].
  - intros id x s' H. apply (Hf id s x s'); [lia | exact H].
Qed.

Lemma value_of_Some {A} (r : Result A) (a : A) :
  value_of r = Some a -> exists s', r = Ok a s'.
Proof. destruct r as [a' s' | e |]; cbn; [intros [= ->]; eauto | discriminate ..]. Qed.

Lemma value_of_fst {A B} (r : Result (A * B)) (a : A) :
  fst <$> value_of r = Some a -> exists b s', r = Ok (a, b) s'.
Proof.
  destruct r as [[a' b] s' | e |]; cbn; [intros [= ->]; eauto | discriminate ..].
Qed.

Lemma flat_registry_blog : flat_registry Fixtures.blog.
Proof.
  intros e m H. unfold Fixtures.blog in H. cbn [registry] in H.
  repeat (apply lookup_insert_Some in H as [[_ <-] | [_ H]]; [reflexivity |]).
  now rewrite lookup_empty in H.
Qed.

Lemma flat_loading_leaves_store_witness :
  exists xs s',
    get Fixtures.blog 2
      (with_ "comments" None (mk "posts" Fixtures.Post true [] (Query.new "posts")))
      Fixtures.blog_state = Ok xs s'
    /\ length xs = 3%nat
    /\ extends Fixtures.blog_state s'.
Proof.
  assert (E : exists xs,
             value_of (get Fixtures.blog 2
                         (with_ "comments" None
                            (mk "posts" Fixtures.Post true [] (Query.new "posts")))
                         Fixtures.blog_state) = Some xs
             /\ length xs = 3%nat) by (vm_compute; eauto).
  destruct E as (xs & E & Hlen). apply value_of_Some in E as (s' & E).
  exists xs, s'. split; [exact E |]. split; [exact Hlen |].
  exact (proj1 (flat_loading_leaves_store Fixtures.blog 2
                  (with_ "comments" None
                     (mk "posts" Fixtures.Post true [] (Query.new "posts")))
                  Fixtures.blog_state flat_registry_blog eq_refl) xs s' E).
Defined.

(** * Further properties of the repository *)

(** ** Reading without relations, and reading nothing *)

Lemma item_no_load (env : Env) (get_rec : t -> M (list Item))
    (first_rec : t -> Value -> M Item) (r : t) (v : Value) (s : State) :
  load r = [] ->
  item env get_rec first_rec r v s = Ok (if truthy v then item_of r v else Plain VNull) s.
Proof.
  intros Hload. unfold item, item_of. rewrite Hload.
  destruct (truthy v); [| reflexivity]. destruct (wrap r); reflexivity.
Qed.

Lemma first_no_load (env : Env) (n : nat) (r : t) (id : Value) (s : State) :
  load r = [] ->
  first env (S n) r id s
  = Ok (if truthy (Query.first (query r) id s)
        then item_of r (Query.first (query r) id s) else Plain VNull) s.
Proof. intros Hload. cbn [first]. now apply item_no_load. Qed.

(** X2: On a repository on which [with] was not called, [get()] returns the
    records that the query engine selects, the stored objects themselves
    and in the engine's order, each wrapped in the model of the
    repository unless wrapping is off; [first(id)] returns the engine's
    record in the same way, and [null], never wrapped, when the engine
    has none.  The state is left as it was, and one unit of fuel is
    enough. *)
Theorem get_without_relations (env : Env) (n : nat) (r : t) (id : Value) (s : State) :
  load r = [] ->
  get env (S n) r s = Ok (map (item_of r) (Query.get (query r) s)) s
  /\ first env (S n) r id s
     = Ok (if truthy (Query.first (query r) id s)
           then item_of r (Query.first (query r) id s) else Plain VNull) s.
Proof.
  intros Hload. split; [now apply get_no_load | now apply first_no_load].
Qed.

Lemma get_without_relations_witness :
  get Fixtures.blog 1 (mk "posts" Fixtures.Post true [] (Query.new "posts"))
    Fixtures.blog_state
  = Ok [Wrapped "posts" (VRef 0%nat); Wrapped "posts" (VRef 1%nat);
        Wrapped "posts" (VRef 2%nat)] Fixtures.blog_state
  /\ first Fixtures.blog 1 (mk "posts" Fixtures.Post true [] (Query.new "posts"))
       (VNum 4) Fixtures.blog_state
     = Ok (Plain VNull) Fixtures.blog_state.
Proof.
  exact (get_without_relations Fixtures.blog 0
           (mk "posts" Fixtures.Post true [] (Query.new "posts")) (VNum 4)
           Fixtures.blog_state eq_refl).
Defined.

(** X3: When the query engine selects nothing, [get()] returns the empty
    array and [first(id)] returns [null]: no relation named by [with] is
    resolved or loaded, whatever it is, nothing is wrapped and the state
    is left as it was. *)
Theorem nothing_selected_nothing_loaded (env : Env) (n : nat) (r : t) (id : Value)
    (s : State) :
  Query.get (query r) s = [] ->
  truthy (Query.first (query r) id s) = false ->
  get env (S n) r s = Ok [] s /\ first env (S n) r id s = Ok (Plain VNull) s.
Proof.
  intros Hget Hfirst. cbn [get first]. rewrite Hget. unfold collect, item.
  rewrite Hfirst. split; reflexivity.
Qed.

Lemma nothing_selected_nothing_loaded_witness :
  get Fixtures.blog 1
    (with_ "no.such.relation" (Some NotCallable)
       (where_ (Query.WhereEq "title" (VStr "Z"))
          (mk "posts" Fixtures.Post true [] (Query.new "posts"))))
    Fixtures.blog_state
  = Ok [] Fixtures.blog_state
  /\ first Fixtures.blog 1
       (with_ "no.such.relation" (Some NotCallable)
          (where_ (Query.WhereEq "title" (VStr "Z"))
             (mk "posts" Fixtures.Post true [] (Query.new "posts"))))
       VUndefined Fixtures.blog_state
     = Ok (Plain VNull) Fixtures.blog_state.
Proof.
  apply (nothing_selected_nothing_loaded Fixtures.blog 0); reflexivity.
Defined.

Lemma mapM_length {A B} (f : A -> M B) (l : list A) (s : State) (ys : list B) (s' : State) :
  mapM f l s = Ok ys s' -> length ys = length l.
Proof.
  revert s ys s'. induction l as [| x l IH]; intros s ys s' H; cbn [mapM] in H.
  - now injection H as <- _.
  - apply bind_inv in H as (y & s1 & _ & H).
    apply bind_inv in H as (ys' & s2 & H & H').
    injection H' as <- _. cbn. f_equal. eapply IH; eauto.
Qed.

Lemma collect_shape (env : Env) (get_rec : t -> M (list Item))
    (first_rec : t -> Value -> M Item) (r : t) (collection : list Value)
    (s : State) (xs : list Item) (s' : State) :
  collect env get_rec first_rec r collection s = Ok xs s' ->
  length xs = length collection
  /\ Forall (fun i => i = item_of r (record_of i)) xs.
Proof.
  unfold collect. destruct collection as [| x l].
  - intros [= <- _]. split; [reflexivity | constructor].
  - intros H. apply bind_inv in H as (items & s1 & Hitems & H).
    assert (Hlen : length items = length (x :: l)).
    { destruct (load r).
      - now injection Hitems as <- _.
      - eapply mapM_length; eauto. }
    unfold item_of. destruct (wrap r); cbn [negb] in H; injection H as <- _;
      (split; [now rewrite length_map |]);
      apply Forall_forall; intros i Hi; apply list_elem_of_In, in_map_iff in Hi;
      destruct Hi as (v & <- & _); reflexivity.
Qed.

(** X4: Loading relations neither drops nor adds a record: whenever [get()]
    returns, it returns one item for each record that the query engine
    selects, and the items are all model instances of the repository's
    model when wrapping is on and all plain records when it is off. *)
Theorem get_one_item_per_record (env : Env) (fuel : nat) (r : t) (s : State)
    (xs : list Item) (s' : State) :
  get env fuel r s = Ok xs s' ->
  length xs = length (Query.get (query r) s)
  /\ Forall (fun i => i = item_of r (record_of i)) xs.
Proof.
  destruct fuel as [| n]; [discriminate |]. cbn [get]. apply collect_shape.
Qed.

Lemma get_one_item_per_record_witness :
  exists xs s',
    get Fixtures.blog 3
      (with_ "posts.comments" None (mk "users" Fixtures.User true [] (Query.new "users")))
      Fixtures.blog_state = Ok xs s'
    /\ length xs = length (Query.get (Query.new "users") Fixtures.blog_state)
    /\ Forall (fun i => i = Wrapped "users" (record_of i)) xs.
Proof.
  assert (E : exists xs,
             value_of (get Fixtures.blog 3
                         (with_ "posts.comments" None
                            (mk "users" Fixtures.User true [] (Query.new "users")))
                         Fixtures.blog_state) = Some xs) by (vm_compute; eauto).
  destruct E as (xs & E). apply value_of_Some in E as (s' & E).
  exists xs, s'. split; [exact E |].
  exact (get_one_item_per_record Fixtures.blog 3
           (with_ "posts.comments" None
              (mk "users" Fixtures.User true [] (Query.new "users")))
           Fixtures.blog_state xs s' E).
Defined.

(** X5: Whenever [count()] returns, the number is the number of records
    that the query engine selects: the relations named by [with] are
    loaded for every record but do not change the count.  The
    repository is left with wrapping off. *)
Theorem count_is_number_selected (env : Env) (fuel : nat) (r : t) (s : State)
    (k : nat) (r' : t) (s' : State) :
  count env fuel r s = Ok (k, r') s' ->
  k = length (Query.get (query r) s) /\ r' = set_wrap false r.
Proof.
  unfold count, count_with. intros H.
  apply bind_inv in H as (xs & s1 & Hget & H). injection H as <- <- _.
  destruct fuel as [| n]; [discriminate |]. cbn [get] in Hget.
  apply collect_shape in Hget as [Hlen _]. split; [exact Hlen | reflexivity].
Qed.

Lemma count_is_number_selected_witness :
  exists r' s',
    count Fixtures.blog 2
      (with_ "comments" None (mk "posts" Fixtures.Post true [] (Query.new "posts")))
      Fixtures.blog_state = Ok (3%nat, r') s'
    /\ 3%nat = length (Query.get (Query.new "posts") Fixtures.blog_state)
    /\ r' = set_wrap false
              (with_ "comments" None (mk "posts" Fixtures.Post true [] (Query.new "posts"))).
Proof.
  assert (E : fst <$> value_of
                        (count Fixtures.blog 2
                           (with_ "comments" None
                              (mk "posts" Fixtures.Post true [] (Query.new "posts")))
                           Fixtures.blog_state) = Some 3%nat) by (vm_compute; reflexivity).
  apply value_of_fst in E as (r' & s' & E). exists r', s'. split; [exact E |].
  exact (count_is_number_selected Fixtures.blog 2
           (with_ "comments" None
              (mk "posts" Fixtures.Post true [] (Query.new "posts")))
           Fixtures.blog_state 3 r' s' E).
Defined.

(** ** Writing: edge cases of [insert], [update] and [fill] *)

(** X6: When the input normalizes to nothing, [insert] writes nothing: the
    state is the one the normalizer leaves, where [create] would have
    emptied the table. *)
Theorem insert_nothing_is_noop (env : Env) (r : t) (m : Model) (data : Value)
    (s s1 : State) :
  registry env !! name r = Some m ->
  normalize m data s = Ok [] s1 ->
  insert env data r s = Ok tt s1.
Proof.
  intros Hm Hnorm. unfold insert, save, normalize_, model. rewrite Hm.
  unfold bind at 1. unfold bind at 1. cbn [ret]. rewrite Hnorm. reflexivity.
Qed.

Lemma insert_nothing_is_noop_witness :
  length (table Fixtures.blog_state "posts") = 3%nat
  /\ insert Fixtures.blog Fixtures.empty_input
       (mk "posts" Fixtures.Post true [] (Query.new "posts")) Fixtures.blog_state
     = Ok tt Fixtures.blog_state.
Proof.
  split; [reflexivity |].
  apply (insert_nothing_is_noop Fixtures.blog _ Fixtures.Post); reflexivity.
Defined.

(** X7: A key given to [update] as the condition is ignored when it is
    falsy ([0], the empty string, [null]): the record to update is then
    the one named by the primary key of the data, and without a truthy
    primary key in the data nothing is updated. *)
Theorem update_falsy_key_condition (data v : Value) (r : t) (s : State) :
  truthy v = false ->
  nullish data = false ->
  update data (Some (Query.CondKey v)) r s
  = if truthy (prop s data (Class.primaryKey (class (entity r))))
    then Query.update (query r) data
           (Query.CondKey (prop s data (Class.primaryKey (class (entity r))))) s
    else Ok tt s.
Proof.
  intros Hv Hdata. unfold update, no_condition. rewrite Hv. cbn [negb].
  rewrite (bind_ok _ _ _ _ _ (getProp_ok data _ s Hdata)).
  destruct (truthy (prop s data _)); reflexivity.
Qed.

Lemma update_falsy_key_condition_witness :
  update Fixtures.zero_payload (Some (Query.CondKey (VNum 0)))
    (mk "posts" Fixtures.Post true [] (Query.new "posts")) Fixtures.zero_state
  = Ok tt Fixtures.zero_state.
Proof.
  exact (update_falsy_key_condition Fixtures.zero_payload (VNum 0)
           (mk "posts" Fixtures.Post true [] (Query.new "posts")) Fixtures.zero_state
           eq_refl eq_refl).
Defined.

(** X8: [fill] reads every field of the schema off the data, so for data
    that is [null] or [undefined] it throws a [TypeError] as soon as the
    schema has a field. *)
Theorem fill_nullish_throws (env : Env) (e : string) (m : Model) (data : Value)
    (s : State) :
  registry env !! e = Some m ->
  fields m <> [] ->
  nullish data = true ->
  fill env data e s = Throw TypeError.
Proof.
  intros Hm Hfields Hdata. unfold fill, model. rewrite Hm.
  unfold bind at 1. cbn [ret]. unfold buildRecord.
  destruct (fields m) as [| [name f] fs]; [congruence |].
  cbn [buildRecordIn]. rewrite (bind_ok _ _ _ _ _ (alloc_ok _ s)).
  cbn [forEach]. unfold bind at 1. unfold bind at 1.
  unfold buildField. destruct f; unfold bind at 1, getProp; now rewrite Hdata.
Qed.

Lemma fill_nullish_throws_witness :
  fill Fixtures.network VNull "profiles" Fixtures.network_state = Throw TypeError.
Proof.
  apply (fill_nullish_throws Fixtures.network "profiles" Fixtures.Profile);
    [reflexivity | discriminate | reflexivity].
Defined.

(** ** A has-many-by relation needs its list of keys *)

Lemma is_array_after_record (s : State) (ps : gmap string Value) (v : Value) :
  is_array s v = false ->
  is_array (set_heap (heap s ++ [ORecord ps]) s) v = false.
Proof.
  destruct v as [| | | | | l]; try reflexivity. cbn [is_array]. rewrite heap_set_heap.
  intros H.
  destruct (Nat.lt_trichotomy l (length (heap s))) as [Hl | [-> | Hl]].
  - now rewrite lookup_app_l.
  - now rewrite lookup_snoc.
  - rewrite (lookup_ge_None_2 (heap s ++ [ORecord ps])); [reflexivity |].
    rewrite length_app. cbn. lia.
Qed.

Lemma prop_after_copy (s : State) (p : Value) (k : string) :
  prop (set_heap (heap s ++ [ORecord (props s p)]) s) p k = prop s p k.
Proof.
  unfold prop. f_equal. destruct p as [| | | | | l]; try reflexivity.
  cbn [props]. rewrite heap_set_heap.
  destruct (Nat.lt_trichotomy l (length (heap s))) as [Hl | [-> | Hl]].
  - now rewrite lookup_app_l.
  - rewrite lookup_snoc. cbn [props]. reflexivity.
  - rewrite !lookup_ge_None_2; [reflexivity | lia | rewrite length_app; cbn; lia].
Qed.

Lemma bind_throw {A B} (m : M A) (k : A -> M B) (s : State) (e : Error) :
  m s = Throw e -> bind m k s = Throw e.
Proof. intros H. unfold bind. now rewrite H. Qed.

Lemma loadHasManyBy_throws (env : Env) (get_rec : t -> M (list Item))
    (first_rec : t -> Value -> M Item) (record : Value) (c : Class.t) (fk ok : string)
    (rel : Relation) (s : State) :
  is_array s (prop s record fk) = false ->
  loadHasManyByRelation env get_rec first_rec record (ByClass c) fk ok rel s
  = Throw TypeError.
Proof.
  intros Harr. unfold loadHasManyByRelation.
  rewrite (bind_ok _ _ _ _ _ (eq_refl : resolveRelation env (ByClass c) s = Ok c s)).
  destruct (nullish record) eqn:Hnull.
  - apply bind_throw. unfold getProp. now rewrite Hnull.
  - rewrite (bind_ok _ _ _ _ _ (getProp_ok record fk s Hnull)).
    apply bind_throw. unfold elements.
    destruct (prop s record fk) as [| | | | | l]; try reflexivity.
    cbn [is_array] in Harr.
    destruct (heap s !! l) as [[qs | xs] |]; [reflexivity | discriminate | reflexivity].
Qed.

(** X9: Loading a has-many-by relation maps over [record[foreignKey]]: when
    the first record that the query engine selects does not hold an
    array there (the key list is missing, or is a single key), [get()]
    throws a [TypeError]. *)
Theorem has_many_by_needs_array (env : Env) (n : nat) (r : t) (rel : Relation)
    (rest : list Relation) (c : Class.t) (fk ok : string) (p : Value) (ps : list Value)
    (s : State) :
  load r = rel :: rest ->
  field_lookup (fields (entity r)) (hd EmptyString (split (rel_name rel)))
  = Some (FAttr (HasManyBy (ByClass c) fk ok)) ->
  Query.get (query r) s = p :: ps ->
  is_array s (prop s p fk) = false ->
  get env (S n) r s = Throw TypeError.
Proof.
  intros Hload Hfield Hget Harr. cbn [get]. rewrite Hget. unfold collect.
  rewrite Hload. apply bind_throw. cbn [mapM]. apply bind_throw.
  unfold loadRelations. cbn [loadRelationsIn truthy].
  rewrite (bind_ok _ _ _ _ _
             (eq_refl : spread p s
                        = Ok (VRef (length (heap s)))
                            (set_heap (heap s ++ [ORecord (props s p)]) s))).
  cbn [reduce]. apply bind_throw. rewrite Hfield. apply bind_throw.
  cbn [loadAttr]. apply bind_throw. apply loadHasManyBy_throws.
  rewrite prop_after_copy. now apply is_array_after_record.
Qed.

Lemma has_many_by_needs_array_witness :
  get Fixtures.network 1
    (with_ "friends" None (mk "profiles" Fixtures.Profile true [] (Query.new "profiles")))
    (set_table "profiles" [("1", VRef 0%nat)] Fixtures.network_state)
  = Throw TypeError.
Proof.
  apply (has_many_by_needs_array Fixtures.network 0 _ (mkRelation "friends" None) []
           Fixtures.ProfileClass "friend_ids" "id" (VRef 0%nat) []); reflexivity.
Defined.

(** ** [Repo.deleteAll] without an entity *)

Lemma clear_tables (e0 : string) (s : State) :
  exists s',
    Static.clear e0 s = Ok tt s'
    /\ heap s' = heap s
    /\ forall e, tables s' !! e
                 = if decide (e = e0) then (fun _ : Table => ([] : Table)) <$> tables s !! e
                   else tables s !! e.
Proof.
  unfold Static.clear. destruct (tables s !! e0) as [t |] eqn:E.
  - exists (set_table e0 [] s). split; [reflexivity |]. split; [reflexivity |].
    intros e. cbn [set_table tables]. destruct (decide (e = e0)) as [-> | Hne].
    + now rewrite lookup_insert_eq, E.
    + now rewrite lookup_insert_ne.
  - exists s. split; [reflexivity |]. split; [reflexivity |].
    intros e. destruct (decide (e = e0)) as [-> | Hne]; [now rewrite E | reflexivity].
Qed.

Lemma clear_each (l : list (string * Model)) (s : State) :
  exists s',
    forEach (fun '(key, m) => Static.clear (Class.entity (class m))) l s = Ok tt s'
    /\ heap s' = heap s
    /\ (forall e, In e (map (fun km => Class.entity (class (snd km))) l) ->
                  tables s' !! e = (fun _ : Table => ([] : Table)) <$> tables s !! e)
    /\ (forall e, ~ In e (map (fun km => Class.entity (class (snd km))) l) ->
                  tables s' !! e = tables s !! e).
Proof.
  revert s. induction l as [| [key m] l IH]; intros s.
  - exists s. split; [reflexivity |]. split; [reflexivity |].
    split; [intros e [] | reflexivity].
  - destruct (clear_tables (Class.entity (class m)) s) as (s1 & Hclear & Hheap1 & Htab1).
    destruct (IH s1) as (s' & Hrest & Hheap & Hin & Hout).
    exists s'. cbn [forEach]. rewrite (bind_ok _ _ _ _ _ Hclear).
    split; [exact Hrest |]. split; [congruence |].
    cbn [map snd]. split.
    + intros e He.
      destruct (in_dec String.string_dec e (map (fun km => Class.entity (class (snd km))) l))
        as [Hl | Hl].
      * rewrite (Hin e Hl), Htab1. destruct (decide _); [| reflexivity].
        now destruct (tables s !! e).
      * rewrite (Hout e Hl), Htab1. destruct He as [<- | He]; [| contradiction].
        now destruct (decide _).
    + intros e He. rewrite Hout by (intros H; apply He; now right).
      rewrite Htab1. destruct (decide _) as [-> | _]; [| reflexivity].
      exfalso. apply He. now left.
Qed.

Lemma registered_entity_In (env : Env) (e : string) :
  registered_entity env e
  <-> In e (map (fun km => Class.entity (class (snd km))) (map_to_list (registry env))).
Proof.
  unfold registered_entity. rewrite in_map_iff. split.
  - intros (key & m & Hm & He). exists (key, m). split; [exact He |].
    apply list_elem_of_In, elem_of_map_to_list. exact Hm.
  - intros ([key m] & He & Hin). exists key, m. split; [| exact He].
    apply elem_of_map_to_list, list_elem_of_In. exact Hin.
Qed.

(** X10: [Repo.deleteAll(state)] without an entity, and likewise with the
    empty string as the entity, empties the table of every registered
    model that has one: it creates no table, leaves the tables of other
    names as they are, changes no object and never throws. *)
Theorem static_deleteAll_clears_registered (env : Env) (entity : option string)
    (s : State) :
  entity = None \/ entity = Some EmptyString ->
  exists s',
    Static.deleteAll env entity s = Ok tt s'
    /\ heap s' = heap s
    /\ (forall e, registered_entity env e ->
                  tables s' !! e = (fun _ : Table => ([] : Table)) <$> tables s !! e)
    /\ (forall e, ~ registered_entity env e -> tables s' !! e = tables s !! e).
Proof.
  intros Hentity.
  destruct (clear_each (map_to_list (registry env)) s) as (s' & Hrun & Hheap & Hin & Hout).
  exists s'. split.
  - destruct Hentity as [-> | ->]; exact Hrun.
  - split; [exact Hheap |]. split.
    + intros e He. apply Hin. now apply registered_entity_In.
    + intros e He. apply Hout. now rewrite <- registered_entity_In.
Qed.

Lemma static_deleteAll_clears_registered_witness :
  exists s',
    Static.deleteAll Fixtures.blog (Some EmptyString) Fixtures.blog_state = Ok tt s'
    /\ heap s' = heap Fixtures.blog_state
    /\ (forall e, registered_entity Fixtures.blog e ->
                  tables s' !! e = (fun _ : Table => ([] : Table)) <$> tables Fixtures.blog_state !! e)
    /\ (forall e, ~ registered_entity Fixtures.blog e ->
                  tables s' !! e = tables Fixtures.blog_state !! e).
Proof.
  apply (static_deleteAll_clears_registered Fixtures.blog (Some EmptyString)
           Fixtures.blog_state).
  right. reflexivity.
Defined.

(** ** Dotted relation names in [addConstraint] *)

Lemma split_String (c : ascii) (s : string) :
  split (String c s)
  = if Ascii.eqb c "."%char then EmptyString :: split s
    else match split s with
         | h :: t => String c h :: t
         | [] => [String c EmptyString]
         end.
Proof. reflexivity. Qed.

Lemma split_cons_dot (a rest : string) :
  split a = [a] -> split (a +:+ String "."%char rest) = a :: split rest.
Proof.
  induction a as [| c a IH]; intros Ha; [reflexivity |].
  change (String c a +:+ String "."%char rest)
    with (String c (a +:+ String "."%char rest)).
  rewrite split_String in Ha |- *.
  destruct (Ascii.eqb c "."%char); [discriminate Ha |].
  destruct (split a) as [| h t] eqn:E; [now apply split_nonempty in E |].
  injection Ha as -> ->. now rewrite IH.
Qed.

Lemma join_split (s : string) : join (split s) = s.
Proof.
  unfold join. induction s as [| c s IH]; [reflexivity |].
  rewrite split_String.
  destruct (split s) as [| h t] eqn:E; [now apply split_nonempty in E |].
  destruct (Ascii.eqb_spec c "."%char) as [-> | _].
  - change (String.concat "." (EmptyString :: h :: t))
      with (String "."%char (String.concat "." (h :: t))).
    now rewrite IH.
  - destruct t as [| h' t].
    + cbn [String.concat] in IH |- *. now rewrite IH.
    + change (String.concat "." (String c h :: h' :: t))
        with (String c (String.concat "." (h :: h' :: t))).
      now rewrite IH.
Qed.

(** X11: For a relation name with a dot in it, [addConstraint] does not call
    the constraint: it registers on the nested query, with [with], the
    text after the first dot exactly, without a constraint, and changes
    nothing else of the query. *)
Theorem addConstraint_dotted_registers_rest (get_rec : t -> M (list Item)) (q : t)
    (a rest : string) (con : option Constraint) (s : State) :
  split a = [a] ->
  addConstraint get_rec q (mkRelation (a +:+ String "."%char rest) con) s
  = Ok (with_ rest None q) s.
Proof.
  intros Ha. unfold addConstraint. cbn [rel_name].
  rewrite (split_cons_dot a rest Ha).
  destruct (split rest) as [| h t] eqn:E; [now apply split_nonempty in E |].
  cbn [tail]. rewrite <- E, join_split. reflexivity.
Qed.

Lemma addConstraint_dotted_registers_rest_witness :
  addConstraint (get Fixtures.blog 1)
    (mk "posts" Fixtures.Post false [] (Query.new "posts"))
    (mkRelation "comments.author.posts" (Some NotCallable)) Fixtures.blog_state
  = Ok (with_ "author.posts" None (mk "posts" Fixtures.Post false [] (Query.new "posts")))
      Fixtures.blog_state.
Proof.
  exact (addConstraint_dotted_registers_rest (get Fixtures.blog 1)
           (mk "posts" Fixtures.Post false [] (Query.new "posts"))
           "comments" "author.posts" (Some NotCallable) Fixtures.blog_state eq_refl).
Defined.

(** ** What [with] loads *)

Lemma query_get_subset (q : Query.t) (s : State) (v : Value) :
  In v (Query.get q s) -> In v (map snd (table s (Query.entity q))).
Proof.
  intros H. unfold Query.get, Query.process in H.
  assert (Hd : In v (drop (Query.offset_ q)
                       (Query.sort s (Query.orders q)
                          (List.filter (Query.matches s (Query.wheres q))
                             (map snd (table s (Query.entity q))))))).
  { destruct (Query.limit_ q) as [k |]; cbn [Query.paginate_limit] in H; [| exact H].
    apply list_elem_of_In. apply list_elem_of_In in H. revert H. apply subseteq_take. }
  apply list_elem_of_In in Hd. apply subseteq_drop in Hd. apply list_elem_of_In in Hd.
  apply sort_In in Hd. apply filter_In in Hd. tauto.
Qed.

Lemma query_get_records (q : Query.t) (s : State) (v : Value) :
  well_formed s = true -> In v (Query.get q s) -> is_record s v = true.
Proof.
  intros Hwf H. eapply well_formed_table; [exact Hwf |]. eapply query_get_subset; eauto.
Qed.

Lemma query_process_extends (q : Query.t) (s s' : State) :
  well_formed s = true ->
  extends s s' ->
  Query.process q s' = Query.process q s.
Proof.
  intros Hwf Hext. unfold Query.process.
  rewrite (table_extends s s' _ Hext).
  assert (Hrec : forall v, In v (map snd (table s (Query.entity q))) ->
                           props s' v = props s v).
  { intros v Hv. apply (props_extends s s' v Hext).
    apply is_record_allocated. eapply well_formed_table; eauto. }
  assert (Hfilter : List.filter (Query.matches s' (Query.wheres q))
                      (map snd (table s (Query.entity q)))
                    = List.filter (Query.matches s (Query.wheres q))
                        (map snd (table s (Query.entity q)))).
  { apply List.filter_ext_in. intros v Hv. apply matches_same_props. now apply Hrec. }
  rewrite Hfilter. f_equal. apply sort_same_props.
  intros y Hy. apply Hrec. apply filter_In in Hy. tauto.
Qed.

Lemma query_first_extends (q : Query.t) (id : Value) (s s' : State) :
  well_formed s = true ->
  extends s s' ->
  Query.first q id s' = Query.first q id s.
Proof.
  intros Hwf Hext. unfold Query.first.
  rewrite (query_process_extends q s s' Hwf Hext), (table_extends s s' _ Hext).
  reflexivity.
Qed.

Lemma call_wrap (c : Call) (q : t) : wrap (call c q) = wrap q.
Proof. destruct c; reflexivity. Qed.

Lemma calls_wrap (calls : list Call) (q : t) :
  wrap (foldl (fun q c => call c q) q calls) = wrap q.
Proof.
  revert q. induction calls as [| c calls IH]; intros q; [reflexivity |].
  cbn [foldl]. rewrite IH. apply call_wrap.
Qed.

Lemma constrain_wrap (s : State) (con : option Constraint) (q : t) :
  wrap q = false -> wrap (constrain s con q) = false.
Proof.
  intros Hq. destruct con as [[calls result |] |]; cbn [constrain]; try exact Hq.
  destruct result; cbn; try reflexivity; now rewrite calls_wrap.
Qed.

Lemma first_plain (env : Env) (n : nat) (q : t) (id : Value) (s : State) :
  load q = [] ->
  wrap q = false ->
  first env (S n) q id s = Ok (Plain (found (Query.first (query q) id s))) s.
Proof.
  intros Hload Hwrap. rewrite first_no_load by exact Hload.
  unfold item_of, found. rewrite Hwrap. now destruct (truthy _).
Qed.

Lemma extends_props_same (s s' : State) (p : Value) :
  extends s s' -> is_record s p = true -> props s' p = props s p.
Proof.
  intros Hext Hp. apply props_extends; [exact Hext |]. now apply is_record_allocated.
Qed.

Lemma set_heap_id (s : State) : set_heap (heap s) s = s.
Proof. now destruct s. Qed.

(** One relation, loaded by [loadAttr] into the copy of the record. *)
Lemma loadRelations_one (env : Env) (get_rec : t -> M (list Item))
    (first_rec : t -> Value -> M Item) (fs : Fields) (p : Value) (rel : Relation)
    (a : Attr) (v : Value) (s1 s2 : State) :
  field_lookup fs (hd EmptyString (split (rel_name rel))) = Some (FAttr a) ->
  loadAttr env get_rec first_rec p a rel (set_heap (heap s1 ++ [ORecord (props s1 p)]) s1)
  = Ok (Some v) s2 ->
  extends (set_heap (heap s1 ++ [ORecord (props s1 p)]) s1) s2 ->
  loadRelations env get_rec first_rec fs p [rel] VUndefined s1
  = Ok (VRef (length (heap s1)))
      (set_heap (<[length (heap s1) :=
                    ORecord (<[hd EmptyString (split (rel_name rel)) := v]> (props s1 p))]>
                   (heap s2)) s2).
Proof.
  intros Hfield Hload (_ & _ & Hun).
  assert (HL : heap s2 !! length (heap s1) = Some (ORecord (props s1 p))).
  { rewrite Hun.
    - rewrite heap_set_heap. apply lookup_snoc.
    - rewrite heap_set_heap, length_app. cbn. lia. }
  unfold loadRelations. cbn [loadRelationsIn truthy].
  rewrite (bind_ok _ _ _ _ _
             (eq_refl : spread p s1
                        = Ok (VRef (length (heap s1)))
                            (set_heap (heap s1 ++ [ORecord (props s1 p)]) s1))).
  cbn [reduce]. rewrite Hfield.
  unfold bind at 1. unfold bind at 1. rewrite Hload.
  rewrite (bind_ok _ _ _ _ _ (setProp_ok _ _ v s2 _ HL)). reflexivity.
Qed.

(** The state that [loadRelations_one] leaves: the objects of the state
    in which the query ran are as they were, the copy holds the loaded
    value, and every other object is as the loader left it. *)
Lemma loaded_copy (s s1 s2 : State) (p : Value) (name : string) (v : Value) :
  is_record s p = true ->
  extends s s1 ->
  extends (set_heap (heap s1 ++ [ORecord (props s1 p)]) s1) s2 ->
  extends s1 (set_heap (<[length (heap s1) := ORecord (<[name := v]> (props s1 p))]>
                         (heap s2)) s2)
  /\ copy_with s (set_heap (<[length (heap s1) := ORecord (<[name := v]> (props s1 p))]>
                              (heap s2)) s2) p name v (VRef (length (heap s1)))
  /\ forall l, l <> length (heap s1) ->
               heap (set_heap (<[length (heap s1) :=
                                  ORecord (<[name := v]> (props s1 p))]> (heap s2)) s2) !! l
               = heap s2 !! l.
Proof.
  intros Hp Hext (Ht & Hlen & Hun).
  rewrite heap_set_heap, length_app in Hlen. cbn in Hlen.
  rewrite heap_set_heap, length_app in Hun. cbn [length] in Hun.
  split; [| split].
  - split; [rewrite tables_set_heap; exact Ht |]. rewrite heap_set_heap, length_insert.
    split; [lia |]. intros l Hl. rewrite heap_set_heap.
    rewrite list_lookup_insert_ne by lia. rewrite Hun by lia.
    rewrite heap_set_heap. now apply lookup_app_l.
  - exists (length (heap s1)). split; [reflexivity |].
    split; [destruct Hext as (_ & H & _); exact H |].
    rewrite heap_set_heap, list_lookup_insert_eq by lia.
    now rewrite (extends_props_same s s1 p Hext Hp).
  - intros l Hl. rewrite heap_set_heap. now apply list_lookup_insert_ne.
Qed.

Lemma mapM_extends {A B} (f : A -> M B) (P : A -> B -> State -> Prop) (s : State)
    (l : list A) :
  (forall x y s1 s2, P x y s1 -> extends s1 s2 -> P x y s2) ->
  (forall x s1, In x l -> extends s s1 ->
                exists y s2, f x s1 = Ok y s2 /\ extends s1 s2 /\ P x y s2) ->
  forall s1, extends s s1 ->
    exists ys s2,
      mapM f l s1 = Ok ys s2 /\ extends s1 s2 /\ Forall2 (fun x y => P x y s2) l ys.
Proof.
  intros Hstable. induction l as [| x l IH]; intros Hf s1 Hext.
  - exists [], s1. split; [reflexivity |]. split; [apply extends_refl | constructor].
  - destruct (Hf x s1 (or_introl eq_refl) Hext) as (y & s2 & Hx & Hext2 & HP).
    destruct (IH (fun x' s' Hin => Hf x' s' (or_intror Hin)) s2
                (extends_trans _ _ _ Hext Hext2)) as (ys & s3 & Hl & Hext3 & Hall).
    exists (y :: ys), s3. cbn [mapM].
    rewrite (bind_ok _ _ _ _ _ Hx), (bind_ok _ _ _ _ _ Hl).
    split; [reflexivity |]. split; [eapply extends_trans; eauto |].
    constructor; [eapply Hstable; eauto | exact Hall].
Qed.

(** [get()] on a repository with relations to load, from what
    [loadRelations] does for one record. *)
Lemma get_loading (env : Env) (k : nat) (r : t) (s : State)
    (P : Value -> Value -> State -> Prop) :
  load r <> [] ->
  (forall p x s1 s2, P p x s1 -> extends s1 s2 -> P p x s2) ->
  (forall p s1, In p (Query.get (query r) s) -> extends s s1 ->
                exists x s2,
                  loadRelations env (get env k) (first env k) (fields (entity r)) p
                    (load r) VUndefined s1 = Ok x s2
                  /\ extends s1 s2 /\ P p x s2) ->
  exists xs s',
    get env (S k) r s = Ok (map (item_of r) xs) s'
    /\ extends s s'
    /\ Forall2 (fun p x => P p x s') (Query.get (query r) s) xs.
Proof.
  intros Hload Hstable Hone. cbn [get]. unfold collect.
  destruct (Query.get (query r) s) as [| p ps] eqn:Hget.
  - exists [], s. split; [reflexivity |]. split; [apply extends_refl | constructor].
  - destruct (mapM_extends
                (fun data => loadRelations env (get env k) (first env k)
                               (fields (entity r)) data (load r) VUndefined)
                P s (p :: ps) Hstable Hone s (extends_refl s))
      as (xs & s' & Hmap & Hext & Hall).
    exists xs, s'. split; [| split; assumption].
    destruct (load r) as [| rel rest]; [congruence |].
    rewrite (bind_ok _ _ _ _ _ Hmap). unfold item_of.
    destruct (wrap r); reflexivity.
Qed.

Lemma copy_with_stable (s0 s1 s2 : State) (p : Value) (name : string) (v x : Value) :
  copy_with s0 s1 p name v x -> extends s1 s2 -> copy_with s0 s2 p name v x.
Proof.
  intros (l & -> & Hl & Hh) (_ & _ & Hun). exists l. split; [reflexivity |].
  split; [exact Hl |]. rewrite Hun; [exact Hh |]. eapply lookup_lt_Some; eauto.
Qed.

Lemma array_of_stable (s0 s1 s2 : State) (xs : list Value) (v : Value) :
  array_of s0 s1 xs v -> extends s1 s2 -> array_of s0 s2 xs v.
Proof.
  intros (l & -> & Hl & Hh) (_ & _ & Hun). exists l. split; [reflexivity |].
  split; [exact Hl |]. rewrite Hun; [exact Hh |]. eapply lookup_lt_Some; eauto.
Qed.

Lemma forEach_flat (fs : Fields) (k : string -> Field -> list (string * Field) -> M unit)
    (name : string) (s : State) :
  flat fs = true ->
  descriptor_property name || inherited_property name = false ->
  forEach (fun '(key, f) =>
             match f with
             | FFields sub => k key f sub
             | FAttr _ =>
                 if descriptor_property name || inherited_property name
                 then throw Unmodelled
                 else ret tt
             end) fs s = Ok tt s.
Proof.
  intros H Hname. rewrite Hname. revert H.
  unfold flat. induction fs as [| [key f] fs IH]; intros H; [reflexivity |].
  cbn [forallb] in H. apply andb_prop in H as [Hf H].
  destruct f as [a | sub]; [| discriminate Hf].
  cbn [forEach]. unfold bind at 1. cbn [ret]. now apply IH.
Qed.

Lemma reduce_not_a_relation (env : Env) (get_rec : t -> M (list Item))
    (first_rec : t -> Value -> M Item) (fs : Fields) (p : Value)
    (load0 load : list Relation) (record : Value) (s : State) :
  flat fs = true ->
  forallb (not_a_relation fs) load = true ->
  reduce (fun record relation =>
            let name := hd EmptyString (split (rel_name relation)) in
            match field_lookup fs name with
            | Some (FAttr attr) =>
                let* loaded := loadAttr env get_rec first_rec p attr relation in
                match loaded with
                | Some v => do setProp record name v then ret record
                | None => ret record
                end
            | _ =>
                do forEach (fun '(key, f) =>
                     match f with
                     | FFields sub =>
                         if has_field sub name then
                           let* nested := getProp record key in
                           let* v := loadRelationsIn env get_rec first_rec f p load0 nested in
                           setProp record key v
                         else if inherited_property name then throw Unmodelled
                         else ret tt
                     | FAttr _ =>
                         if descriptor_property name || inherited_property name
                         then throw Unmodelled
                         else ret tt
                     end) fs
                then ret record
            end) load record s
  = Ok record s.
Proof.
  intros Hflat. revert record. induction load as [| rel rest IH]; intros record Hload;
    [reflexivity |].
  cbn [forallb] in Hload. apply andb_prop in Hload as [Hrel Hrest].
  cbn [reduce]. unfold not_a_relation in Hrel. cbv zeta in Hrel |- *.
  destruct (field_lookup fs (hd EmptyString (split (rel_name rel))))
    as [[[value | | | |] | sub] |]; try discriminate Hrel.
  - unfold bind at 1. cbn [loadAttr]. unfold bind at 1. cbn [ret]. now apply IH.
  - apply negb_true_iff in Hrel.
    unfold bind at 1. unfold bind at 1.
    rewrite (forEach_flat fs
               (fun key f sub =>
                  if has_field sub (hd EmptyString (split (rel_name rel))) then
                    let* nested := getProp record key in
                    let* v := loadRelationsIn env get_rec first_rec f p load0 nested in
                    setProp record key v
                  else if inherited_property (hd EmptyString (split (rel_name rel)))
                       then throw Unmodelled
                  else ret tt)
               (hd EmptyString (split (rel_name rel))) s Hflat Hrel).
    cbn [ret]. now apply IH.
Qed.

Lemma loadRelations_not_a_relation (env : Env) (get_rec : t -> M (list Item))
    (first_rec : t -> Value -> M Item) (fs : Fields) (p : Value) (load : list Relation)
    (s : State) :
  flat fs = true ->
  forallb (not_a_relation fs) load = true ->
  loadRelations env get_rec first_rec fs p load VUndefined s
  = Ok (VRef (length (heap s))) (set_heap (heap s ++ [ORecord (props s p)]) s).
Proof.
  intros Hflat Hload. unfold loadRelations. cbn [loadRelationsIn truthy].
  rewrite (bind_ok _ _ _ _ _
             (eq_refl : spread p s
                        = Ok (VRef (length (heap s)))
                            (set_heap (heap s ++ [ORecord (props s p)]) s))).
  now apply reduce_not_a_relation.
Qed.

Lemma copy_of_stable (s0 s1 s2 : State) (p x : Value) :
  copy_of s0 s1 p x -> extends s1 s2 -> copy_of s0 s2 p x.
Proof.
  intros (l & -> & Hl & Hh) (_ & _ & Hun). exists l. split; [reflexivity |].
  split; [exact Hl |]. rewrite Hun; [exact Hh |]. eapply lookup_lt_Some; eauto.
Qed.

(** X12: A name given to [with] that is not a relation of the model, because
    a plain attribute has that name or because no field has it (and it
    is neither a property of the attribute descriptors nor a member
    every object inherits, where the code goes on into the descriptors),
    is not an error and loads nothing, whatever constraint comes with
    it: on a schema without nested groups [get()] returns, for each
    record that the query engine selects and in the same order, a new
    object with the properties of the record, and leaves the store as
    it was. *)
Theorem with_non_relation_copies (env : Env) (n : nat) (r : t) (s : State) :
  flat (fields (entity r)) = true ->
  load r <> [] ->
  forallb (not_a_relation (fields (entity r))) (load r) = true ->
  well_formed s = true ->
  exists xs s',
    get env (S n) r s = Ok (map (item_of r) xs) s'
    /\ extends s s'
    /\ Forall2 (fun p x => copy_of s s' p x) (Query.get (query r) s) xs.
Proof.
  intros Hflat Hload Hnot Hwf.
  apply (get_loading env n r s (fun p x s' => copy_of s s' p x) Hload).
  - intros p x s1 s2. apply copy_of_stable.
  - intros p s1 Hp Hext.
    exists (VRef (length (heap s1))), (set_heap (heap s1 ++ [ORecord (props s1 p)]) s1).
    split; [now apply loadRelations_not_a_relation |].
    split; [apply extends_alloc |].
    exists (length (heap s1)). split; [reflexivity |].
    split; [destruct Hext as (_ & H & _); exact H |].
    rewrite heap_set_heap, lookup_snoc.
    rewrite (extends_props_same s s1 p Hext); [reflexivity |].
    eapply query_get_records; eauto.
Qed.

Lemma with_non_relation_copies_witness :
  exists xs s',
    get Fixtures.blog 1
      (with_ "title" (Some NotCallable)
         (with_ "likes" None (mk "posts" Fixtures.Post false [] (Query.new "posts"))))
      Fixtures.blog_state
    = Ok (map Plain xs) s'
    /\ extends Fixtures.blog_state s'
    /\ Forall2 (fun p x => copy_of Fixtures.blog_state s' p x)
         [VRef 0%nat; VRef 1%nat; VRef 2%nat] xs.
Proof.
  apply (with_non_relation_copies Fixtures.blog 0
           (with_ "title" (Some NotCallable)
              (with_ "likes" None (mk "posts" Fixtures.Post false [] (Query.new "posts"))))
           Fixtures.blog_state); [reflexivity | discriminate | reflexivity | reflexivity].
Defined.

Lemma load_one_relation (env : Env) (get_rec : t -> M (list Item))
    (first_rec : t -> Value -> M Item) (fs : Fields) (a : Attr) (rel : Relation)
    (name : string) (p v : Value) (s s1 s2 : State) :
  hd EmptyString (split (rel_name rel)) = name ->
  field_lookup fs name = Some (FAttr a) ->
  is_record s p = true ->
  extends s s1 ->
  loadAttr env get_rec first_rec p a rel (set_heap (heap s1 ++ [ORecord (props s1 p)]) s1)
  = Ok (Some v) s2 ->
  extends (set_heap (heap s1 ++ [ORecord (props s1 p)]) s1) s2 ->
  exists s3,
    loadRelations env get_rec first_rec fs p [rel] VUndefined s1
    = Ok (VRef (length (heap s1))) s3
    /\ extends s1 s3
    /\ copy_with s s3 p name v (VRef (length (heap s1)))
    /\ forall l, l <> length (heap s1) -> heap s3 !! l = heap s2 !! l.
Proof.
  intros Hname Hfield Hp Hext Hload Hext2. subst name.
  eexists. split; [eapply loadRelations_one; eauto |].
  now apply loaded_copy.
Qed.

Lemma single_segment (rel : string) (con : option Constraint) :
  split rel = [rel] -> hd EmptyString (split (rel_name (mkRelation rel con))) = rel.
Proof. intros H. cbn [rel_name]. now rewrite H. Qed.

Lemma load_has_many (env : Env) (n : nat) (fs : Fields) (c : Class.t) (m : Model)
    (fk rel : string) (con : option Constraint) (p : Value) (s s1 : State) :
  field_lookup fs rel = Some (FAttr (HasMany (ByClass c) fk)) ->
  registry env !! Class.entity c = Some m ->
  split rel = [rel] ->
  simple con = true ->
  well_formed s = true ->
  is_record s p = true ->
  extends s s1 ->
  exists x s2,
    loadRelations env (get env (S n)) (first env (S n)) fs p [mkRelation rel con]
      VUndefined s1 = Ok x s2
    /\ extends s1 s2
    /\ exists v, copy_with s s2 p rel v x
                 /\ array_of s s2 (related_under s m (Class.entity c) fk con p) v.
Proof.
  intros Hfield Hm Hsplit Hsimple Hwf Hp Hext.
  set (s1' := set_heap (heap s1 ++ [ORecord (props s1 p)]) s1).
  assert (Hext' : extends s s1').
  { eapply extends_trans; [exact Hext | apply extends_alloc]. }
  set (xs := related_under s m (Class.entity c) fk con p).
  assert (Hload : loadAttr env (get env (S n)) (first env (S n)) p
                    (HasMany (ByClass c) fk) (mkRelation rel con) s1'
                  = Ok (Some (VRef (length (heap s1'))))
                      (set_heap (heap s1' ++ [OArray xs]) s1')).
  { cbn [loadAttr].
    rewrite (bind_ok _ _ _ _ _
               (loadHasMany_simple env n c m fk rel con p s s1' Hm Hsplit Hsimple Hwf
                  Hext' Hp)).
    reflexivity. }
  destruct (load_one_relation env _ _ fs _ _ rel p _ s s1 _
              (single_segment rel con Hsplit) Hfield Hp Hext Hload (extends_alloc s1' _))
    as (s3 & Hrun & Hext3 & Hcopy & Hother).
  exists (VRef (length (heap s1))), s3. split; [exact Hrun |]. split; [exact Hext3 |].
  exists (VRef (length (heap s1'))). split; [exact Hcopy |].
  exists (length (heap s1')). split; [reflexivity |].
  split; [destruct Hext' as (_ & H & _); exact H |].
  rewrite Hother.
  - rewrite heap_set_heap. apply lookup_snoc.
  - unfold s1'. rewrite heap_set_heap, length_app. cbn. lia.
Qed.

(** X13: Eager loading of a has-many relation.  For a repository on which
    [with(rel, constraint)] was called once, [rel] being a has-many
    field and the constraint one that only filters, orders and pages:
    [get()] returns, for each record that the query engine selects and
    in the same order, a new object with the properties of the record
    and, under [rel], a new array of the records of the related entity
    whose foreign key equals the [id] of the record, as the constrained
    nested query gives them.  The store is left as it was. *)
Theorem with_has_many_loads_related (env : Env) (n : nat) (r : t) (c : Class.t)
    (m : Model) (fk rel : string) (con : option Constraint) (s : State) :
  load r = [mkRelation rel con] ->
  field_lookup (fields (entity r)) rel = Some (FAttr (HasMany (ByClass c) fk)) ->
  registry env !! Class.entity c = Some m ->
  split rel = [rel] ->
  simple con = true ->
  well_formed s = true ->
  exists xs s',
    get env (S (S n)) r s = Ok (map (item_of r) xs) s'
    /\ extends s s'
    /\ Forall2 (fun p x =>
                  exists v, copy_with s s' p rel v x
                            /\ array_of s s' (related_under s m (Class.entity c) fk con p) v)
         (Query.get (query r) s) xs.
Proof.
  intros Hload Hfield Hm Hsplit Hsimple Hwf.
  apply (get_loading env (S n) r s
           (fun p x s' =>
              exists v, copy_with s s' p rel v x
                        /\ array_of s s' (related_under s m (Class.entity c) fk con p) v)).
  - rewrite Hload. discriminate.
  - intros p x s1 s2 (v & Hc & Ha) Hext. exists v.
    split; [eapply copy_with_stable | eapply array_of_stable]; eauto.
  - intros p s1 Hp Hext. rewrite Hload.
    apply (load_has_many env n _ c m fk rel con p s s1); try assumption.
    eapply query_get_records; eauto.
Qed.

Lemma with_has_many_loads_related_witness :
  Fixtures.observe
    (get Fixtures.blog 2
       (with_ "comments" None
          (where_ (Query.WhereEq "id" (VNum 1))
             (mk "posts" Fixtures.Post true [] (Query.new "posts")))))
    Fixtures.blog_state
  = Some [TObject [("comments",
                    TArray [TObject [("id", TNum 10); ("post_id", TNum 1);
                                     ("user_id", TNum 5)];
                            TObject [("id", TNum 11); ("post_id", TNum 1);
                                     ("user_id", TNum 5)]]);
                   ("id", TNum 1); ("title", TStr "A"); ("user_id", TNum 5)]]
  /\ exists xs s',
      get Fixtures.blog 2
        (with_ "comments" None
           (where_ (Query.WhereEq "id" (VNum 1))
              (mk "posts" Fixtures.Post true [] (Query.new "posts"))))
        Fixtures.blog_state
      = Ok (map (Wrapped "posts") xs) s'
      /\ extends Fixtures.blog_state s'
      /\ Forall2 (fun p x =>
                    exists v, copy_with Fixtures.blog_state s' p "comments" v x
                              /\ array_of Fixtures.blog_state s'
                                   (related_under Fixtures.blog_state Fixtures.Comment
                                      "comments" "post_id" None p) v)
           [VRef 0%nat] xs.
Proof.
  split; [vm_compute; reflexivity |].
  apply (with_has_many_loads_related Fixtures.blog 0
           (with_ "comments" None
              (where_ (Query.WhereEq "id" (VNum 1))
                 (mk "posts" Fixtures.Post true [] (Query.new "posts"))))
           Fixtures.CommentClass Fixtures.Comment "post_id" "comments" None
           Fixtures.blog_state); reflexivity.
Defined.

(** ** A dotted path *)

Lemma addConstraint_dotted (get_rec : t -> M (list Item)) (q : t)
    (a rest : string) (con : option Constraint) (s : State) :
  split a = [a] ->
  addConstraint get_rec q (mkRelation (a +:+ String "."%char rest) con) s
  = Ok (with_ rest None q) s.
Proof.
  intros Ha. unfold addConstraint. cbn [rel_name].
  rewrite (split_cons_dot a rest Ha).
  destruct (split rest) as [| h t] eqn:E; [now apply split_nonempty in E |].
  cbn [tail]. rewrite <- E, join_split. reflexivity.
Qed.

(** [get_loading] for a repository executed while an outer record is
    being loaded: the store has grown since the state [s] in which the
    records were selected. *)
Lemma get_loading_from (env : Env) (k : nat) (r : t) (s s1 : State)
    (P : Value -> Value -> State -> Prop) :
  well_formed s = true ->
  extends s s1 ->
  load r <> [] ->
  (forall p x s2 s3, P p x s2 -> extends s2 s3 -> P p x s3) ->
  (forall p s2, In p (Query.get (query r) s) -> extends s1 s2 ->
                exists x s3,
                  loadRelations env (get env k) (first env k) (fields (entity r)) p
                    (load r) VUndefined s2 = Ok x s3
                  /\ extends s2 s3 /\ P p x s3) ->
  exists xs s',
    get env (S k) r s1 = Ok (map (item_of r) xs) s'
    /\ extends s1 s'
    /\ Forall2 (fun p x => P p x s') (Query.get (query r) s) xs.
Proof.
  intros Hwf Hext Hload Hstable Hone.
  change (get env (S k) r s1)
    with (collect env (get env k) (first env k) r (Query.get (query r) s1) s1).
  rewrite (query_get_extends _ s s1 Hwf Hext). unfold collect.
  destruct (Query.get (query r) s) as [| p ps] eqn:Hget.
  - exists [], s1. split; [reflexivity |]. split; [apply extends_refl | constructor].
  - destruct (mapM_extends
                (fun data => loadRelations env (get env k) (first env k)
                               (fields (entity r)) data (load r) VUndefined)
                P s1 (p :: ps) Hstable Hone s1 (extends_refl s1))
      as (xs & s' & Hmap & Hext' & Hall).
    exists xs, s'. split; [| split; assumption].
    destruct (load r) as [| rel rest]; [congruence |].
    rewrite (bind_ok _ _ _ _ _ Hmap). unfold item_of.
    destruct (wrap r); reflexivity.
Qed.

(** [load_has_many] with the places of the two new objects: the copy of
    the record is the first object made, the array the second. *)
Lemma load_has_many_at (env : Env) (n : nat) (fs : Fields) (c : Class.t) (m : Model)
    (fk rel : string) (con : option Constraint) (p : Value) (s s1 : State) :
  field_lookup fs rel = Some (FAttr (HasMany (ByClass c) fk)) ->
  registry env !! Class.entity c = Some m ->
  split rel = [rel] ->
  simple con = true ->
  well_formed s = true ->
  is_record s p = true ->
  extends s s1 ->
  exists s2,
    loadRelations env (get env (S n)) (first env (S n)) fs p [mkRelation rel con]
      VUndefined s1 = Ok (VRef (length (heap s1))) s2
    /\ extends s1 s2
    /\ heap s2 !! length (heap s1)
       = Some (ORecord (<[rel := VRef (S (length (heap s1)))]> (props s p)))
    /\ heap s2 !! S (length (heap s1))
       = Some (OArray (related_under s m (Class.entity c) fk con p)).
Proof.
  intros Hfield Hm Hsplit Hsimple Hwf Hp Hext.
  set (s1' := set_heap (heap s1 ++ [ORecord (props s1 p)]) s1).
  assert (Hlen : length (heap s1') = S (length (heap s1))).
  { unfold s1'. rewrite heap_set_heap, length_app. cbn. lia. }
  assert (Hext' : extends s s1').
  { eapply extends_trans; [exact Hext | apply extends_alloc]. }
  set (xs := related_under s m (Class.entity c) fk con p).
  assert (Hload : loadAttr env (get env (S n)) (first env (S n)) p
                    (HasMany (ByClass c) fk) (mkRelation rel con) s1'
                  = Ok (Some (VRef (length (heap s1'))))
                      (set_heap (heap s1' ++ [OArray xs]) s1')).
  { cbn [loadAttr].
    rewrite (bind_ok _ _ _ _ _
               (loadHasMany_simple env n c m fk rel con p s s1' Hm Hsplit Hsimple Hwf
                  Hext' Hp)).
    reflexivity. }
  destruct (load_one_relation env _ _ fs _ _ rel p _ s s1 _
              (single_segment rel con Hsplit) Hfield Hp Hext Hload (extends_alloc s1' _))
    as (s3 & Hrun & Hext3 & Hcopy & Hother).
  exists s3. split; [exact Hrun |]. split; [exact Hext3 |].
  destruct Hcopy as (l & Hl & _ & Hh). injection Hl as <-.
  rewrite Hlen in Hh. split; [exact Hh |].
  rewrite Hother by lia. rewrite <- Hlen, heap_set_heap. apply lookup_snoc.
Qed.

(** The nested query of a has-many relation [a] loaded under the path
    [a.b], [b] being a has-many relation of the related entity: the
    constraint is not called, and the nested query returns a copy of
    every related record with [b] loaded. *)
Lemma loadHasMany_dotted (env : Env) (n : nat) (ca cb : Class.t) (ma mb : Model)
    (fka fkb a b : string) (con : option Constraint) (p : Value) (s s1 : State) :
  registry env !! Class.entity ca = Some ma ->
  field_lookup (fields ma) b = Some (FAttr (HasMany (ByClass cb) fkb)) ->
  registry env !! Class.entity cb = Some mb ->
  split a = [a] ->
  split b = [b] ->
  well_formed s = true ->
  extends s s1 ->
  is_record s p = true ->
  exists ys s2,
    loadHasManyRelation env (get env (S (S n))) p (ByClass ca) fka
      (mkRelation (a +:+ String "."%char b) con) s1
    = Ok (VRef (length (heap s2))) (set_heap (heap s2 ++ [OArray ys]) s2)
    /\ extends s1 s2
    /\ Forall2 (fun q y =>
                  exists l, y = VRef l
                    /\ (length (heap s1) <= l)%nat
                    /\ heap s2 !! l = Some (ORecord (<[b := VRef (S l)]> (props s q)))
                    /\ heap s2 !! S l
                       = Some (OArray (related s (Class.entity cb) fkb q)))
         (related s (Class.entity ca) fka p) ys.
Proof.
  intros Hma Hb Hmb Hsa Hsb Hwf Hext Hp.
  destruct (is_record_allocated s p Hp) as [_ Hnull].
  unfold loadHasManyRelation.
  rewrite (bind_ok _ _ _ _ _ (eq_refl : resolveRelation env (ByClass ca) s1 = Ok ca s1)).
  rewrite (bind_ok _ _ _ _ _ (new_ok env _ false s1 ma Hma)).
  rewrite (bind_ok _ _ _ _ _ (getProp_ok p "id" s1 Hnull)).
  rewrite (prop_extends s s1 p "id" Hext Hp).
  set (q := where_ _ _).
  rewrite (bind_ok _ _ _ _ _ (addConstraint_dotted (get env (S (S n))) q a b con s1 Hsa)).
  destruct (get_loading_from env (S n) (with_ b None q) s s1
              (fun x y s' =>
                 exists l, y = VRef l
                   /\ (length (heap s1) <= l)%nat
                   /\ heap s' !! l = Some (ORecord (<[b := VRef (S l)]> (props s x)))
                   /\ heap s' !! S l = Some (OArray (related s (Class.entity cb) fkb x)))
              Hwf Hext)
    as (ys & s2 & Hget & Hext2 & Hall).
  - discriminate.
  - intros x y s2 s3 (l & -> & Hl & H1 & H2) (_ & _ & Hun). exists l.
    split; [reflexivity |]. split; [exact Hl |].
    split; (rewrite Hun; [assumption | eapply lookup_lt_Some; eauto]).
  - intros x s2 Hx Hext2.
    assert (Hrec : is_record s x = true) by (eapply query_get_records; eauto).
    destruct (load_has_many_at env n (fields ma) cb mb fkb b None x s s2 Hb Hmb Hsb
                eq_refl Hwf Hrec (extends_trans _ _ _ Hext Hext2))
      as (s3 & Hrun & Hext3 & H1 & H2).
    exists (VRef (length (heap s2))), s3. split; [exact Hrun |]. split; [exact Hext3 |].
    exists (length (heap s2)). split; [reflexivity |].
    split; [destruct Hext2 as (_ & H & _); exact H |].
    rewrite related_under_none in H2. split; assumption.
  - exists ys, s2.
    change (Query.get (query (with_ b None q)) s)
      with (related_under s ma (Class.entity ca) fka None p) in Hall.
    rewrite related_under_none in Hall.
    rewrite (bind_ok _ _ _ _ _ Hget), record_of_item_of.
    split; [reflexivity |]. split; assumption.
Qed.

(** One record loaded under the path [a.b]. *)
Lemma load_dotted_has_many (env : Env) (n : nat) (fs : Fields) (ca cb : Class.t)
    (ma mb : Model) (fka fkb a b : string) (con : option Constraint) (p : Value)
    (s s1 : State) :
  field_lookup fs a = Some (FAttr (HasMany (ByClass ca) fka)) ->
  registry env !! Class.entity ca = Some ma ->
  field_lookup (fields ma) b = Some (FAttr (HasMany (ByClass cb) fkb)) ->
  registry env !! Class.entity cb = Some mb ->
  split a = [a] ->
  split b = [b] ->
  well_formed s = true ->
  is_record s p = true ->
  extends s s1 ->
  exists x s3,
    loadRelations env (get env (S (S n))) (first env (S (S n))) fs p
      [mkRelation (a +:+ String "."%char b) con] VUndefined s1 = Ok x s3
    /\ extends s1 s3
    /\ exists v ys,
         copy_with s s3 p a v x
         /\ array_of s s3 ys v
         /\ Forall2 (fun q y =>
                       exists w, copy_with s s3 q b w y
                                 /\ array_of s s3 (related s (Class.entity cb) fkb q) w)
              (related s (Class.entity ca) fka p) ys.
Proof.
  intros Ha Hma Hb Hmb Hsa Hsb Hwf Hp Hext.
  set (s1' := set_heap (heap s1 ++ [ORecord (props s1 p)]) s1).
  assert (Hlen : length (heap s1') = S (length (heap s1))).
  { unfold s1'. rewrite heap_set_heap, length_app. cbn. lia. }
  assert (Hext' : extends s s1').
  { eapply extends_trans; [exact Hext | apply extends_alloc]. }
  destruct (loadHasMany_dotted env n ca cb ma mb fka fkb a b con p s s1'
              Hma Hb Hmb Hsa Hsb Hwf Hext' Hp) as (ys & s2 & Hrun & Hext2 & Hall).
  set (s2' := set_heap (heap s2 ++ [OArray ys]) s2) in *.
  assert (Hload : loadAttr env (get env (S (S n))) (first env (S (S n))) p
                    (HasMany (ByClass ca) fka)
                    (mkRelation (a +:+ String "."%char b) con) s1'
                  = Ok (Some (VRef (length (heap s2)))) s2').
  { cbn [loadAttr]. rewrite (bind_ok _ _ _ _ _ Hrun). reflexivity. }
  assert (Hname : hd EmptyString
                    (split (rel_name (mkRelation (a +:+ String "."%char b) con))) = a).
  { cbn [rel_name]. now rewrite (split_cons_dot a b Hsa). }
  assert (Hext2' : extends s1' s2').
  { eapply extends_trans; [exact Hext2 | apply extends_alloc]. }
  destruct (load_one_relation env _ _ fs _ _ a p _ s s1 _ Hname Ha Hp Hext Hload Hext2')
    as (s3 & Hrun3 & Hext3 & Hcopy & Hother).
  assert (Hs : (length (heap s) <= length (heap s1))%nat)
    by (destruct Hext as (_ & H & _); exact H).
  assert (Hs2 : (length (heap s1') <= length (heap s2))%nat)
    by (destruct Hext2 as (_ & H & _); exact H).
  assert (Hbelow : forall l o, (length (heap s1') <= l)%nat ->
                               heap s2 !! l = Some o -> heap s3 !! l = Some o).
  { intros l o Hl Ho. rewrite Hother by lia. unfold s2'. rewrite heap_set_heap.
    rewrite lookup_app_l; [exact Ho | eapply lookup_lt_Some; eauto]. }
  exists (VRef (length (heap s1))), s3. split; [exact Hrun3 |]. split; [exact Hext3 |].
  exists (VRef (length (heap s2))), ys. split; [exact Hcopy |]. split.
  - exists (length (heap s2)). split; [reflexivity |]. split; [lia |].
    rewrite Hother by lia. unfold s2'. rewrite heap_set_heap. apply lookup_snoc.
  - eapply Forall2_impl; [exact Hall |]. cbv beta.
    intros q y (l & -> & Hl & H1 & H2). exists (VRef (S l)). split.
    + exists l. split; [reflexivity |]. split; [lia |]. now apply Hbelow.
    + exists (S l). split; [reflexivity |]. split; [lia |]. apply Hbelow; [lia | exact H2].
Qed.



Lemma nested_first (env : Env) (n : nat) (c : Class.t) (m : Model)
    (w : option Query.Clause) (rel : string) (con : option Constraint) (id : Value)
    (s s1 : State) :
  split rel = [rel] ->
  simple con = true ->
  well_formed s = true ->
  extends s s1 ->
  (let* q := addConstraint (get env (S n))
               (match w with
                | Some cl => where_ cl (mk (Class.entity c) m false [] (Query.new (Class.entity c)))
                | None => mk (Class.entity c) m false [] (Query.new (Class.entity c))
                end) (mkRelation rel con) in
   let* i := first env (S n) q id in
   ret (record_of i)) s1
  = Ok (first_under s m (Class.entity c) w con id) s1.
Proof.
  intros Hsplit Hsimple Hwf Hext.
  set (q0 := match w with
             | Some cl => where_ cl (mk (Class.entity c) m false [] (Query.new (Class.entity c)))
             | None => mk (Class.entity c) m false [] (Query.new (Class.entity c))
             end).
  assert (Hload0 : load q0 = []) by (unfold q0; now destruct w).
  assert (Hwrap0 : wrap q0 = false) by (unfold q0; now destruct w).
  destruct (addConstraint_simple env n q0 rel con s s1 Hsplit Hsimple Hload0 Hwf Hext)
    as [Hadd Hload].
  rewrite (bind_ok _ _ _ _ _ Hadd).
  rewrite (bind_ok _ _ _ _ _
             (first_plain env n _ id s1 Hload (constrain_wrap s con q0 Hwrap0))).
  rewrite (query_first_extends _ id s s1 Hwf Hext). reflexivity.
Qed.

Lemma load_belongs_to (env : Env) (n : nat) (fs : Fields) (c : Class.t) (m : Model)
    (fk rel : string) (con : option Constraint) (p : Value) (s s1 : State) :
  field_lookup fs rel = Some (FAttr (BelongsTo (ByClass c) fk)) ->
  registry env !! Class.entity c = Some m ->
  split rel = [rel] ->
  simple con = true ->
  well_formed s = true ->
  is_record s p = true ->
  extends s s1 ->
  exists x s2,
    loadRelations env (get env (S n)) (first env (S n)) fs p [mkRelation rel con]
      VUndefined s1 = Ok x s2
    /\ extends s1 s2
    /\ copy_with s s2 p rel (first_under s m (Class.entity c) None con (prop s p fk)) x.
Proof.
  intros Hfield Hm Hsplit Hsimple Hwf Hp Hext.
  set (s1' := set_heap (heap s1 ++ [ORecord (props s1 p)]) s1).
  assert (Hext' : extends s s1').
  { eapply extends_trans; [exact Hext | apply extends_alloc]. }
  destruct (is_record_allocated s p Hp) as [_ Hnull].
  assert (Hload : loadAttr env (get env (S n)) (first env (S n)) p
                    (BelongsTo (ByClass c) fk) (mkRelation rel con) s1'
                  = Ok (Some (first_under s m (Class.entity c) None con (prop s p fk))) s1').
  { assert (Hinner : loadBelongsToRelation env (get env (S n)) (first env (S n)) p
                       (ByClass c) fk (mkRelation rel con) s1'
                     = Ok (first_under s m (Class.entity c) None con (prop s p fk)) s1').
    { unfold loadBelongsToRelation.
      rewrite (bind_ok _ _ _ _ _
                 (eq_refl : resolveRelation env (ByClass c) s1' = Ok c s1')).
      rewrite (bind_ok _ _ _ _ _ (getProp_ok p fk s1' Hnull)).
      rewrite (prop_extends s s1' p fk Hext' Hp).
      rewrite (bind_ok _ _ _ _ _ (new_ok env _ false s1' m Hm)).
      exact (nested_first env n c m None rel con (prop s p fk) s s1'
               Hsplit Hsimple Hwf Hext'). }
    cbn [loadAttr]. rewrite (bind_ok _ _ _ _ _ Hinner). reflexivity. }
  destruct (load_one_relation env _ _ fs _ _ rel p _ s s1 _
              (single_segment rel con Hsplit) Hfield Hp Hext Hload (extends_refl s1'))
    as (s3 & Hrun & Hext3 & Hcopy & _).
  exists (VRef (length (heap s1))), s3. auto.
Qed.

(** X14: Eager loading of a belongs-to relation.  For a repository on which
    [with(rel, constraint)] was called once, [rel] being a belongs-to
    field with the foreign key [fk] and the constraint one that only
    filters, orders and pages: [get()] returns, for each record that
    the query engine selects and in the same order, a new object with
    the properties of the record and, under [rel], what the nested
    query on the related entity gives for [first(record[fk])], or
    [null].  The store is left as it was. *)
Theorem with_belongs_to_loads_by_key (env : Env) (n : nat) (r : t) (c : Class.t)
    (m : Model) (fk rel : string) (con : option Constraint) (s : State) :
  load r = [mkRelation rel con] ->
  field_lookup (fields (entity r)) rel = Some (FAttr (BelongsTo (ByClass c) fk)) ->
  registry env !! Class.entity c = Some m ->
  split rel = [rel] ->
  simple con = true ->
  well_formed s = true ->
  exists xs s',
    get env (S (S n)) r s = Ok (map (item_of r) xs) s'
    /\ extends s s'
    /\ Forall2 (fun p x =>
                  copy_with s s' p rel
                    (first_under s m (Class.entity c) None con (prop s p fk)) x)
         (Query.get (query r) s) xs.
Proof.
  intros Hload Hfield Hm Hsplit Hsimple Hwf.
  apply (get_loading env (S n) r s
           (fun p x s' =>
              copy_with s s' p rel
                (first_under s m (Class.entity c) None con (prop s p fk)) x)).
  - rewrite Hload. discriminate.
  - intros p x s1 s2. apply copy_with_stable.
  - intros p s1 Hp Hext. rewrite Hload.
    apply (load_belongs_to env n _ c m fk rel con p s s1); try assumption.
    eapply query_get_records; eauto.
Qed.

Lemma with_belongs_to_loads_by_key_witness :
  Fixtures.observe
    (get Fixtures.kennel 2
       (with_ "owner" None (mk "pets" Fixtures.Pet false [] (Query.new "pets"))))
    Fixtures.kennel_state
  = Some [TObject [("id", TNum 1);
                   ("owner", TObject [("friend_ids", TArray [TNum 7; TNum 5]);
                                      ("id", TNum 5)]);
                   ("owner_id", TNum 5)];
          TObject [("id", TNum 2); ("owner", TNull); ("owner_id", TNum 6)]]
  /\ exists xs s',
      get Fixtures.kennel 2
        (with_ "owner" None (mk "pets" Fixtures.Pet false [] (Query.new "pets")))
        Fixtures.kennel_state
      = Ok (map Plain xs) s'
      /\ extends Fixtures.kennel_state s'
      /\ Forall2 (fun p x =>
                    copy_with Fixtures.kennel_state s' p "owner"
                      (first_under Fixtures.kennel_state Fixtures.Owner "owners" None None
                         (prop Fixtures.kennel_state p "owner_id")) x)
           [VRef 0%nat; VRef 1%nat] xs.
Proof.
  split; [vm_compute; reflexivity |].
  apply (with_belongs_to_loads_by_key Fixtures.kennel 0
           (with_ "owner" None (mk "pets" Fixtures.Pet false [] (Query.new "pets")))
           Fixtures.OwnerClass Fixtures.Owner "owner_id" "owner" None
           Fixtures.kennel_state); reflexivity.
Defined.

Lemma load_has_one (env : Env) (n : nat) (fs : Fields) (c : Class.t) (m : Model)
    (fk rel : string) (con : option Constraint) (p : Value) (s s1 : State) :
  field_lookup fs rel = Some (FAttr (HasOne (ByClass c) fk)) ->
  registry env !! Class.entity c = Some m ->
  split rel = [rel] ->
  simple con = true ->
  well_formed s = true ->
  is_record s p = true ->
  extends s s1 ->
  exists x s2,
    loadRelations env (get env (S n)) (first env (S n)) fs p [mkRelation rel con]
      VUndefined s1 = Ok x s2
    /\ extends s1 s2
    /\ copy_with s s2 p rel
         (first_under s m (Class.entity c) (Some (Query.WhereEq fk (prop s p "id"))) con
            VUndefined) x.
Proof.
  intros Hfield Hm Hsplit Hsimple Hwf Hp Hext.
  set (s1' := set_heap (heap s1 ++ [ORecord (props s1 p)]) s1).
  assert (Hext' : extends s s1').
  { eapply extends_trans; [exact Hext | apply extends_alloc]. }
  destruct (is_record_allocated s p Hp) as [_ Hnull].
  assert (Hinner : loadHasOneRelation env (get env (S n)) (first env (S n)) p
                     (ByClass c) fk (mkRelation rel con) s1'
                   = Ok (first_under s m (Class.entity c)
                           (Some (Query.WhereEq fk (prop s p "id"))) con VUndefined) s1').
  { unfold loadHasOneRelation.
    rewrite (bind_ok _ _ _ _ _ (eq_refl : resolveRelation env (ByClass c) s1' = Ok c s1')).
    rewrite (bind_ok _ _ _ _ _ (new_ok env _ false s1' m Hm)).
    rewrite (bind_ok _ _ _ _ _ (getProp_ok p "id" s1' Hnull)).
    rewrite (prop_extends s s1' p "id" Hext' Hp).
    exact (nested_first env n c m (Some (Query.WhereEq fk (prop s p "id"))) rel con
             VUndefined s s1' Hsplit Hsimple Hwf Hext'). }
  assert (Hload : loadAttr env (get env (S n)) (first env (S n)) p
                    (HasOne (ByClass c) fk) (mkRelation rel con) s1'
                  = Ok (Some (first_under s m (Class.entity c)
                                (Some (Query.WhereEq fk (prop s p "id"))) con VUndefined))
                      s1').
  { cbn [loadAttr]. rewrite (bind_ok _ _ _ _ _ Hinner). reflexivity. }
  destruct (load_one_relation env _ _ fs _ _ rel p _ s s1 _
              (single_segment rel con Hsplit) Hfield Hp Hext Hload (extends_refl s1'))
    as (s3 & Hrun & Hext3 & Hcopy & _).
  exists (VRef (length (heap s1))), s3. auto.
Qed.

(** X15: Eager loading of a has-one relation.  For a repository on which
    [with(rel, constraint)] was called once, [rel] being a has-one
    field with the foreign key [fk] and the constraint one that only
    filters, orders and pages: [get()] returns, for each record that
    the query engine selects and in the same order, a new object with
    the properties of the record and, under [rel], the first record
    that the nested query gives among the records of the related entity
    whose [fk] equals the [id] of the record, or [null].  The store is
    left as it was. *)
Theorem with_has_one_loads_first_related (env : Env) (n : nat) (r : t) (c : Class.t)
    (m : Model) (fk rel : string) (con : option Constraint) (s : State) :
  load r = [mkRelation rel con] ->
  field_lookup (fields (entity r)) rel = Some (FAttr (HasOne (ByClass c) fk)) ->
  registry env !! Class.entity c = Some m ->
  split rel = [rel] ->
  simple con = true ->
  well_formed s = true ->
  exists xs s',
    get env (S (S n)) r s = Ok (map (item_of r) xs) s'
    /\ extends s s'
    /\ Forall2 (fun p x =>
                  copy_with s s' p rel
                    (first_under s m (Class.entity c)
                       (Some (Query.WhereEq fk (prop s p "id"))) con VUndefined) x)
         (Query.get (query r) s) xs.
Proof.
  intros Hload Hfield Hm Hsplit Hsimple Hwf.
  apply (get_loading env (S n) r s
           (fun p x s' =>
              copy_with s s' p rel
                (first_under s m (Class.entity c)
                   (Some (Query.WhereEq fk (prop s p "id"))) con VUndefined) x)).
  - rewrite Hload. discriminate.
  - intros p x s1 s2. apply copy_with_stable.
  - intros p s1 Hp Hext. rewrite Hload.
    apply (load_has_one env n _ c m fk rel con p s s1); try assumption.
    eapply query_get_records; eauto.
Qed.

Lemma with_has_one_loads_first_related_witness :
  Fixtures.observe
    (get Fixtures.kennel 2
       (with_ "pet" None (mk "owners" Fixtures.Owner false [] (Query.new "owners"))))
    Fixtures.kennel_state
  = Some [TObject [("friend_ids", TArray [TNum 7; TNum 5]); ("id", TNum 5);
                   ("pet", TObject [("id", TNum 1); ("owner_id", TNum 5)])];
          TObject [("friend_ids", TArray []); ("id", TNum 7); ("pet", TNull)]]
  /\ exists xs s',
      get Fixtures.kennel 2
        (with_ "pet" None (mk "owners" Fixtures.Owner false [] (Query.new "owners")))
        Fixtures.kennel_state
      = Ok (map Plain xs) s'
      /\ extends Fixtures.kennel_state s'
      /\ Forall2 (fun p x =>
                    copy_with Fixtures.kennel_state s' p "pet"
                      (first_under Fixtures.kennel_state Fixtures.Pet "pets"
                         (Some (Query.WhereEq "owner_id" (prop Fixtures.kennel_state p "id")))
                         None VUndefined) x)
           [VRef 2%nat; VRef 4%nat] xs.
Proof.
  split; [vm_compute; reflexivity |].
  apply (with_has_one_loads_first_related Fixtures.kennel 0
           (with_ "pet" None (mk "owners" Fixtures.Owner false [] (Query.new "owners")))
           Fixtures.PetClass Fixtures.Pet "owner_id" "pet" None
           Fixtures.kennel_state); reflexivity.
Defined.

Lemma mapM_pure {A B} (f : A -> M B) (g : A -> B) (l : list A) (s : State) :
  (forall x, f x s = Ok (g x) s) -> mapM f l s = Ok (map g l) s.
Proof.
  intros H. induction l as [| x l IH]; [reflexivity |].
  cbn [mapM map]. now rewrite (bind_ok _ _ _ _ _ (H x)), (bind_ok _ _ _ _ _ IH).
Qed.

Lemma elements_ok (s : State) (v : Value) :
  is_array s v = true -> elements v s = Ok (elems s v) s.
Proof.
  unfold is_array, elements, elems. destruct v as [| | | | | l]; try discriminate.
  destruct (heap s !! l) as [[ps | xs] |]; try discriminate. reflexivity.
Qed.

Lemma is_array_extends (s s' : State) (v : Value) :
  extends s s' -> is_array s v = true -> is_array s' v = true /\ elems s' v = elems s v.
Proof.
  intros (_ & _ & Hun). destruct v as [| | | | | l]; try discriminate.
  cbn [is_array elems].
  destruct (heap s !! l) as [o |] eqn:E; [| discriminate].
  assert (E' : heap s' !! l = Some o).
  { etransitivity; [apply Hun; eapply lookup_lt_Some; eauto | exact E]. }
  rewrite E'. destruct o; [discriminate | auto].
Qed.

Lemma load_has_many_by (env : Env) (n : nat) (fs : Fields) (c : Class.t) (m : Model)
    (fk ok rel : string) (con : option Constraint) (p : Value) (s s1 : State) :
  field_lookup fs rel = Some (FAttr (HasManyBy (ByClass c) fk ok)) ->
  registry env !! Class.entity c = Some m ->
  split rel = [rel] ->
  simple con = true ->
  well_formed s = true ->
  is_record s p = true ->
  is_array s (prop s p fk) = true ->
  extends s s1 ->
  exists x s2,
    loadRelations env (get env (S n)) (first env (S n)) fs p [mkRelation rel con]
      VUndefined s1 = Ok x s2
    /\ extends s1 s2
    /\ exists v,
        copy_with s s2 p rel v x
        /\ array_of s s2
             (map (fun id => first_under s m (Class.entity c)
                               (Some (Query.WhereEq ok id)) con VUndefined)
                (elems s (prop s p fk))) v.
Proof.
  intros Hfield Hm Hsplit Hsimple Hwf Hp Harr Hext.
  set (s1' := set_heap (heap s1 ++ [ORecord (props s1 p)]) s1).
  assert (Hext' : extends s s1').
  { eapply extends_trans; [exact Hext | apply extends_alloc]. }
  destruct (is_record_allocated s p Hp) as [_ Hnull].
  destruct (is_array_extends s s1' _ Hext' Harr) as [Harr' Helems].
  set (xs := map (fun id => first_under s m (Class.entity c)
                              (Some (Query.WhereEq ok id)) con VUndefined)
               (elems s (prop s p fk))).
  assert (Hinner : loadHasManyByRelation env (get env (S n)) (first env (S n)) p
                     (ByClass c) fk ok (mkRelation rel con) s1'
                   = Ok (VRef (length (heap s1')))
                       (set_heap (heap s1' ++ [OArray xs]) s1')).
  { unfold loadHasManyByRelation.
    rewrite (bind_ok _ _ _ _ _ (eq_refl : resolveRelation env (ByClass c) s1' = Ok c s1')).
    rewrite (bind_ok _ _ _ _ _ (getProp_ok p fk s1' Hnull)).
    rewrite (prop_extends s s1' p fk Hext' Hp).
    rewrite (bind_ok _ _ _ _ _ (elements_ok s1' _ Harr')). rewrite Helems.
    rewrite (bind_ok _ _ _ _ _
               (mapM_pure _ (fun id => first_under s m (Class.entity c)
                                         (Some (Query.WhereEq ok id)) con VUndefined)
                  (elems s (prop s p fk)) s1'
                  (fun id =>
                     eq_trans
                       (bind_ok _ _ _ _ _ (new_ok env _ false s1' m Hm))
                       (nested_first env n c m (Some (Query.WhereEq ok id)) rel con
                          VUndefined s s1' Hsplit Hsimple Hwf Hext')))).
    reflexivity. }
  assert (Hload : loadAttr env (get env (S n)) (first env (S n)) p
                    (HasManyBy (ByClass c) fk ok) (mkRelation rel con) s1'
                  = Ok (Some (VRef (length (heap s1'))))
                      (set_heap (heap s1' ++ [OArray xs]) s1')).
  { cbn [loadAttr]. rewrite (bind_ok _ _ _ _ _ Hinner). reflexivity. }
  destruct (load_one_relation env _ _ fs _ _ rel p _ s s1 _
              (single_segment rel con Hsplit) Hfield Hp Hext Hload (extends_alloc s1' _))
    as (s3 & Hrun & Hext3 & Hcopy & Hother).
  exists (VRef (length (heap s1))), s3. split; [exact Hrun |]. split; [exact Hext3 |].
  exists (VRef (length (heap s1'))). split; [exact Hcopy |].
  exists (length (heap s1')). split; [reflexivity |].
  split; [destruct Hext' as (_ & H & _); exact H |].
  rewrite Hother.
  - rewrite heap_set_heap. apply lookup_snoc.
  - unfold s1'. rewrite heap_set_heap, length_app. cbn. lia.
Qed.

(** X16: Eager loading of a has-many-by relation.  For a repository on which
    [with(rel, constraint)] was called once, [rel] being a has-many-by
    field with the key list [fk] and the other key [ok], the constraint
    one that only filters, orders and pages, and every selected record
    holding an array under [fk]: [get()] returns, for each record that
    the query engine selects and in the same order, a new object with
    the properties of the record and, under [rel], a new array with one
    entry for each key of the list, in the order of the list: the first
    record that the nested query gives among the records of the related
    entity whose [ok] equals the key, or [null].  The store is left as
    it was. *)
Theorem with_has_many_by_loads_one_per_key (env : Env) (n : nat) (r : t) (c : Class.t)
    (m : Model) (fk ok rel : string) (con : option Constraint) (s : State) :
  load r = [mkRelation rel con] ->
  field_lookup (fields (entity r)) rel = Some (FAttr (HasManyBy (ByClass c) fk ok)) ->
  registry env !! Class.entity c = Some m ->
  split rel = [rel] ->
  simple con = true ->
  well_formed s = true ->
  (forall p, In p (Query.get (query r) s) -> is_array s (prop s p fk) = true) ->
  exists xs s',
    get env (S (S n)) r s = Ok (map (item_of r) xs) s'
    /\ extends s s'
    /\ Forall2 (fun p x =>
                  exists v,
                    copy_with s s' p rel v x
                    /\ array_of s s'
                         (map (fun id => first_under s m (Class.entity c)
                                           (Some (Query.WhereEq ok id)) con VUndefined)
                            (elems s (prop s p fk))) v)
         (Query.get (query r) s) xs.
Proof.
  intros Hload Hfield Hm Hsplit Hsimple Hwf Harr.
  apply (get_loading env (S n) r s
           (fun p x s' =>
              exists v,
                copy_with s s' p rel v x
                /\ array_of s s'
                     (map (fun id => first_under s m (Class.entity c)
                                       (Some (Query.WhereEq ok id)) con VUndefined)
                        (elems s (prop s p fk))) v)).
  - rewrite Hload. discriminate.
  - intros p x s1 s2 (v & Hc & Ha) Hext. exists v.
    split; [eapply copy_with_stable | eapply array_of_stable]; eauto.
  - intros p s1 Hp Hext. rewrite Hload.
    apply (load_has_many_by env n _ c m fk ok rel con p s s1); try assumption.
    + eapply query_get_records; eauto.
    + now apply Harr.
Qed.

Lemma with_has_many_by_loads_one_per_key_witness :
  Fixtures.observe
    (get Fixtures.kennel 2
       (with_ "friends" None
          (where_ (Query.WhereEq "id" (VNum 5))
             (mk "owners" Fixtures.Owner false [] (Query.new "owners")))))
    Fixtures.kennel_state
  = Some [TObject [("friend_ids", TArray [TNum 7; TNum 5]);
                   ("friends",
                    TArray [TObject [("friend_ids", TArray []); ("id", TNum 7)];
                            TObject [("friend_ids", TArray [TNum 7; TNum 5]);
                                     ("id", TNum 5)]]);
                   ("id", TNum 5)]]
  /\ exists xs s',
      get Fixtures.kennel 2
        (with_ "friends" None
           (where_ (Query.WhereEq "id" (VNum 5))
              (mk "owners" Fixtures.Owner false [] (Query.new "owners"))))
        Fixtures.kennel_state
      = Ok (map Plain xs) s'
      /\ extends Fixtures.kennel_state s'
      /\ Forall2 (fun p x =>
                    exists v,
                      copy_with Fixtures.kennel_state s' p "friends" v x
                      /\ array_of Fixtures.kennel_state s'
                           (map (fun id => first_under Fixtures.kennel_state Fixtures.Owner
                                             "owners" (Some (Query.WhereEq "id" id)) None
                                             VUndefined)
                              (elems Fixtures.kennel_state
                                 (prop Fixtures.kennel_state p "friend_ids"))) v)
           [VRef 2%nat] xs.
Proof.
  split; [vm_compute; reflexivity |].
  apply (with_has_many_by_loads_one_per_key Fixtures.kennel 0
           (with_ "friends" None
              (where_ (Query.WhereEq "id" (VNum 5))
                 (mk "owners" Fixtures.Owner false [] (Query.new "owners"))))
           Fixtures.OwnerClass Fixtures.Owner "friend_ids" "id" "friends" None
           Fixtures.kennel_state); try reflexivity.
  intros p [<- | []]. reflexivity.
Defined.

(** ** [fill] keeps the fields of the schema only *)



(** ** More on [has] and [hasNot] *)

Lemma In_NoDup_map_inj {A B} (key : A -> B) (l : list A) (x y : A) :
  NoDup (map key l) -> In x l -> In y l -> key x = key y -> x = y.
Proof.
  induction l as [| z l IH]; intros Hnd Hx Hy Hk; [destruct Hx |].
  cbn [map] in Hnd. apply NoDup_cons in Hnd as [Hz Hnd].
  destruct Hx as [-> | Hx], Hy as [-> | Hy]; auto.
  - exfalso. apply Hz. rewrite Hk. apply list_elem_of_In. now apply in_map.
  - exfalso. apply Hz. rewrite <- Hk. apply list_elem_of_In. now apply in_map.
Qed.

Lemma filter_by_unique_keys {A} (key : A -> Value) (f : A -> bool) (l : list A) :
  NoDup (map key l) ->
  List.filter (fun x => includes (map key (List.filter f l)) (key x)) l = List.filter f l.
Proof.
  intros Hnd. apply List.filter_ext_in. intros x Hx. unfold includes.
  destruct (f x) eqn:Hfx.
  - apply existsb_exists. exists (key x). split.
    + apply in_map. apply filter_In. now split.
    + unfold strict_eq. now apply bool_decide_eq_true.
  - apply not_true_is_false. intros H.
    apply existsb_exists in H as (k & Hk & Heq).
    apply in_map_iff in Hk as (y & <- & Hy). apply filter_In in Hy as [Hy Hfy].
    unfold strict_eq in Heq. apply bool_decide_eq_true in Heq.
    rewrite (In_NoDup_map_inj key l x y Hnd Hx Hy Heq) in Hfx. congruence.
Qed.

Section Scan.

Variables (env : Env) (fuel : nat) (r : t) (rel : string) (arg : HasArg).
Variables (count : option Z) (existence : bool) (s : State) (sel : Value -> bool).

Lemma scan_selects (id : string) (items : list Value) :
  (forall p s1, In p items -> extends s s1 ->
                exists s2, hasRelation env fuel r p rel arg count s1 = Ok (sel p) s2
                           /\ extends s s2) ->
  (forall p, In p items -> is_record s p = true) ->
  forall (ids : list Value) (s1 : State),
    extends s s1 ->
    exists s2,
      reduce (fun ids item =>
                let* b := hasRelation env fuel r item rel arg count in
                if Bool.eqb b existence then
                  let* key := getProp item id in ret (ids ++ [key])
                else ret ids) items ids s1
      = Ok (ids ++ map (fun p => prop s p id)
                     (List.filter (fun p => Bool.eqb (sel p) existence) items)) s2
      /\ extends s s2.
Proof.
  induction items as [| p items IH]; intros Hhas Hrec ids s1 Hext.
  - exists s1. cbn. rewrite app_nil_r. auto.
  - assert (Hp : is_record s p = true) by (apply Hrec; now left).
    destruct (Hhas p s1 (or_introl eq_refl) Hext) as (s2 & Hrun & Hext2).
    cbn [reduce List.filter]. unfold bind at 1. unfold bind at 1. rewrite Hrun.
    destruct (Bool.eqb (sel p) existence).
    + destruct (is_record_allocated s p Hp) as [_ Hnull].
      rewrite (bind_ok _ _ _ _ _ (getProp_ok p id s2 Hnull)). cbn [ret].
      rewrite (prop_extends s s2 p id Hext2 Hp).
      destruct (IH (fun q s' Hq => Hhas q s' (or_intror Hq))
                  (fun q Hq => Hrec q (or_intror Hq)) (ids ++ [prop s p id]) s2 Hext2)
        as (s3 & Hred & Hext3).
      exists s3. split; [| exact Hext3].
      rewrite Hred. cbn [map]. now rewrite <- app_assoc.
    + cbn [ret].
      destruct (IH (fun q s' Hq => Hhas q s' (or_intror Hq))
                  (fun q Hq => Hrec q (or_intror Hq)) ids s2 Hext2)
        as (s3 & Hred & Hext3).
      exists s3. split; [exact Hred | exact Hext3].
Qed.

End Scan.

(** [has] / [hasNot] followed by [get()], from what [hasRelation] says
    of each record of the table. *)
Lemma has_selects (env : Env) (fuel n : nat) (posts : string) (Post : Model) (w : bool)
    (rel : string) (arg : HasArg) (count : option Z) (existence : bool) (s : State)
    (sel : Value -> bool) :
  registry env !! posts = Some Post ->
  well_formed s = true ->
  keyed_by s posts (Class.primaryKey (class Post)) ->
  (forall p s1, In p (map snd (table s posts)) -> extends s s1 ->
                exists s2,
                  hasRelation env fuel (mk posts Post w [] (Query.new posts)) p rel arg
                    count s1 = Ok (sel p) s2
                  /\ extends s s2) ->
  exists r1 s1,
    addHasConstraint env fuel rel arg count existence
      (mk posts Post w [] (Query.new posts)) s = Ok r1 s1
    /\ extends s s1
    /\ get env (S n) r1 s1
       = Ok (map (item_of (mk posts Post w [] (Query.new posts)))
               (List.filter (fun p => Bool.eqb (sel p) existence)
                  (map snd (table s posts)))) s1.
Proof.
  intros Hposts Hwf Hkeys Hhas.
  set (r := mk posts Post w [] (Query.new posts)).
  set (pk := Class.primaryKey (class Post)) in *.
  set (f := fun p => Bool.eqb (sel p) existence).
  assert (Hitems : Query.get (Query.new (name r)) s = map snd (table s posts)).
  { unfold Query.new. rewrite query_get_unordered. now apply filter_all. }
  destruct (scan_selects env fuel r rel arg count existence s sel pk
              (map snd (table s posts)) Hhas
              (fun p Hp => well_formed_table s posts p Hwf Hp) [] s (extends_refl s))
    as (s1 & Hscan & Hext).
  fold f in Hscan. cbn [app] in Hscan.
  set (ids := map (fun p => prop s p pk) (List.filter f (map snd (table s posts)))) in *.
  exists (where_ (Query.WhereTest pk (includes ids)) r), s1.
  split; [| split; [exact Hext |]].
  - unfold addHasConstraint.
    assert (Hkey : primaryKey env r s = Ok pk s).
    { unfold primaryKey, model. cbn [name r]. rewrite Hposts. reflexivity. }
    rewrite (bind_ok _ _ _ _ _ Hkey).
    rewrite (bind_ok _ _ _ _ _ (eq_refl : get_state s = Ok s s)).
    rewrite Hitems. rewrite (bind_ok _ _ _ _ _ Hscan). reflexivity.
  - rewrite get_no_load by reflexivity.
    do 2 f_equal. unfold r. simpl_repo. rewrite query_get_unordered.
    rewrite (table_extends s s1 posts Hext).
    rewrite <- (filter_by_unique_keys (fun p => prop s p pk) f _ Hkeys).
    apply List.filter_ext_in. intros p Hp. unfold Query.matches. cbn.
    rewrite andb_true_r, orb_false_r. fold ids. f_equal.
    apply (prop_extends s s1 p pk Hext). eapply well_formed_table; eauto.
Qed.

Lemma isEmpty_extends (s s' : State) (v : Value) :
  extends s s' -> allocated s v = true -> isEmpty s' v = isEmpty s v.
Proof.
  intros (_ & _ & Hun) Hv. destruct v as [| | | | | l]; try reflexivity.
  cbn [isEmpty]. cbn in Hv. apply bool_decide_eq_true in Hv.
  assert (E : heap s' !! l = heap s !! l) by now apply Hun.
  now rewrite E.
Qed.

Lemma hasRelation_not_a_relation (env : Env) (fuel : nat) (r : t) (name : string)
    (arg : HasArg) (count : option Z) (p : Value) (s s1 : State) :
  flat (fields (entity r)) = true ->
  not_a_relation (fields (entity r)) (mkRelation name None) = true ->
  well_formed s = true ->
  is_record s p = true ->
  extends s s1 ->
  exists s2,
    hasRelation env fuel r p name arg count s1
    = Ok (negb (isEmpty s (prop s p name))) s2
    /\ extends s s2.
Proof.
  intros Hflat Hnot Hwf Hp Hext.
  set (s2 := set_heap (heap s1 ++ [ORecord (props s1 p)]) s1).
  assert (Hext2 : extends s s2).
  { eapply extends_trans; [exact Hext | apply extends_alloc]. }
  exists s2. split; [| exact Hext2].
  unfold hasRelation.
  rewrite (bind_ok _ _ _ _ _
             (loadRelations_not_a_relation env _ _ _ p
                [mkRelation name (has_constraint arg count)] s1 Hflat
                ltac:(cbn [forallb]; unfold not_a_relation in Hnot |- *;
                      cbn [rel_name] in Hnot |- *; now rewrite Hnot))).
  rewrite (bind_ok _ _ _ _ _ (getProp_ok (VRef (length (heap s1))) name s2 eq_refl)).
  assert (Hv : prop s2 (VRef (length (heap s1))) name = prop s p name).
  { unfold prop. f_equal. cbn [props]. unfold s2. rewrite heap_set_heap, lookup_snoc.
    now rewrite (extends_props_same s s1 p Hext Hp). }
  rewrite Hv. do 2 f_equal.
  apply isEmpty_extends; [exact Hext2 |]. now apply well_formed_prop.
Qed.

(** X18: [has] and [hasNot] with a name that is not a relation of the model,
    because a plain attribute has that name or because no field has it
    (and it is neither a property of the attribute descriptors nor a
    member every object inherits), on a schema without nested groups:
    the constraint and the count are ignored, whatever they are; [has]
    followed by [get()] returns exactly the records whose own property
    of that name is not empty, [hasNot] exactly those where it is empty
    or missing. *)
Theorem has_on_non_relation_tests_property (env : Env) (fuel n : nat) (posts : string)
    (Post : Model) (w : bool) (name : string) (arg : HasArg) (count : option Z)
    (existence : bool) (s : State) :
  registry env !! posts = Some Post ->
  flat (fields Post) = true ->
  not_a_relation (fields Post) (mkRelation name None) = true ->
  well_formed s = true ->
  keyed_by s posts (Class.primaryKey (class Post)) ->
  exists r1 s1,
    addHasConstraint env fuel name arg count existence
      (mk posts Post w [] (Query.new posts)) s = Ok r1 s1
    /\ extends s s1
    /\ get env (S n) r1 s1
       = Ok (map (item_of (mk posts Post w [] (Query.new posts)))
               (List.filter
                  (fun p => Bool.eqb (negb (isEmpty s (prop s p name))) existence)
                  (map snd (table s posts)))) s1.
Proof.
  intros Hposts Hflat Hnot Hwf Hkeys.
  apply (has_selects env fuel n posts Post w name arg count existence s
           (fun p => negb (isEmpty s (prop s p name))) Hposts Hwf Hkeys).
  intros p s1 Hp Hext.
  apply hasRelation_not_a_relation; try assumption.
  eapply well_formed_table; eauto.
Qed.

Lemma keyed_by_blog_posts : keyed_by Fixtures.blog_state "posts" "id".
Proof.
  unfold keyed_by. vm_compute.
  repeat (constructor; [rewrite !list_elem_of_In; cbn; intuition discriminate |]).
  constructor.
Qed.

Lemma has_on_non_relation_tests_property_witness :
  value_of
    ((let* r1 := has Fixtures.blog 0 "likes" (HasString ">") None
                   (mk "posts" Fixtures.Post false [] (Query.new "posts")) in
      get Fixtures.blog 1 r1) Fixtures.blog_state)
  = Some []
  /\ value_of
       ((let* r1 := hasNot Fixtures.blog 0 "likes" (HasString ">") None
                      (mk "posts" Fixtures.Post false [] (Query.new "posts")) in
         get Fixtures.blog 1 r1) Fixtures.blog_state)
     = Some [Plain (VRef 0%nat); Plain (VRef 1%nat); Plain (VRef 2%nat)]
  /\ exists r1 s1,
      addHasConstraint Fixtures.blog 0 "title" (HasNumber 7) None true
        (mk "posts" Fixtures.Post false [] (Query.new "posts")) Fixtures.blog_state
      = Ok r1 s1
      /\ extends Fixtures.blog_state s1
      /\ get Fixtures.blog 1 r1 s1
         = Ok [Plain (VRef 0%nat); Plain (VRef 1%nat); Plain (VRef 2%nat)] s1.
Proof.
  split; [vm_compute; reflexivity |].
  split; [vm_compute; reflexivity |].
  apply (has_on_non_relation_tests_property Fixtures.blog 0 0 "posts" Fixtures.Post false
           "title" (HasNumber 7) None true Fixtures.blog_state);
    [reflexivity | reflexivity | reflexivity | reflexivity | exact keyed_by_blog_posts].
Defined.

Lemma compared_nonempty (b : bool) (xs : list Value) :
  nonempty (if b then xs else []) = b && (0 <? Z.of_nat (length xs)).
Proof. destruct b; [destruct xs; reflexivity | reflexivity]. Qed.

Lemma filter_none {A} (f : A -> bool) (l : list A) :
  (forall x, f x = false) -> List.filter f l = [].
Proof.
  intros H. induction l as [| x l IH]; [reflexivity |].
  cbn. now rewrite H, IH.
Qed.

(** X19: A count given to [has] is compared on top of the test for a
    non-empty relation, not instead of it.  For a has-many relation of
    an entity keyed by [id], [c] being the number of related records of
    a record: [has(rel, k)] followed by [get()] returns exactly the
    records with [c = k] and [0 < c]; [has(rel, '>', k)] those with
    [c > k] and [0 < c], and likewise for ['>='], ['<'] and ['<='];
    [hasNot] returns the others.  So [has(rel, 0)] selects no record
    and [hasNot(rel, 0)] selects every record, and [has(rel, '<', k)]
    never selects a record without related records. *)
Theorem has_count_needs_a_related_record (env : Env) (n : nat) (posts : string)
    (Post : Model) (w : bool) (c : Class.t) (m : Model) (fk rel : string) (s : State) :
  registry env !! posts = Some Post ->
  Class.primaryKey (class Post) = "id" ->
  field_lookup (fields Post) rel = Some (FAttr (HasMany (ByClass c) fk)) ->
  registry env !! Class.entity c = Some m ->
  split rel = [rel] ->
  well_formed s = true ->
  let r := mk posts Post w [] (Query.new posts) in
  let number p := Z.of_nat (length (related s (Class.entity c) fk p)) in
  (forall (existence : bool) (k : Z) (count : option Z),
      selects env (S n) r rel (HasNumber k) count existence s
        (fun p => (number p =? k) && (0 <? number p)))
  /\ (forall (existence : bool) (k : Z),
        selects env (S n) r rel (HasString ">") (Some k) existence s
          (fun p => (number p >? k) && (0 <? number p))
        /\ selects env (S n) r rel (HasString ">=") (Some k) existence s
             (fun p => (number p >=? k) && (0 <? number p))
        /\ selects env (S n) r rel (HasString "<") (Some k) existence s
             (fun p => (number p <? k) && (0 <? number p))
        /\ selects env (S n) r rel (HasString "<=") (Some k) existence s
             (fun p => (number p <=? k) && (0 <? number p)))
  /\ (exists r1 s1,
        has env (S n) rel (HasNumber 0) None r s = Ok r1 s1
        /\ extends s s1
        /\ get env (S n) r1 s1 = Ok [] s1)
  /\ (exists r1 s1,
        hasNot env (S n) rel (HasNumber 0) None r s = Ok r1 s1
        /\ extends s s1
        /\ get env (S n) r1 s1 = Ok (map (item_of r) (map snd (table s posts))) s1).
Proof.
  intros Hposts Hpk Hfield Hm Hsplit Hwf r number.
  assert (Hsel : forall arg count existence sel,
             simple (has_constraint arg count) = true ->
             (forall p, nonempty (related_under s m (Class.entity c) fk
                                    (has_constraint arg count) p) = sel p) ->
             selects env (S n) r rel arg count existence s sel).
  { intros arg count existence sel. now apply (has_then_selects env n posts Post w c m). }
  assert (Hnumber : forall existence k count,
             selects env (S n) r rel (HasNumber k) count existence s
               (fun p => (number p =? k) && (0 <? number p))).
  { intros existence k count. apply Hsel; [reflexivity |]. intros p.
    change (has_constraint (HasNumber k) count)
      with (Some (Script [] (RetCount CountEq k))).
    rewrite related_under_compared. apply compared_nonempty. }
  assert (Hzero : forall x : Z, (x =? 0) && (0 <? x) = false).
  { intros x. destruct (Z.eqb_spec x 0) as [-> | _]; reflexivity. }
  split; [exact Hnumber |]. split; [| split].
  - intros existence k.
    split; [| split; [| split]];
      (apply Hsel; [reflexivity |]; intros p;
       match goal with
       | |- context [has_constraint ?a ?b] =>
           let v := eval cbv in (has_constraint a b) in
           change (has_constraint a b) with v
       end;
       rewrite related_under_compared; apply compared_nonempty).
  - destruct (Hnumber true 0 None) as (r1 & s1 & Hhas & Hext & Hget).
    exists r1, s1. split; [exact Hhas |]. split; [exact Hext |].
    rewrite Hget, filter_none; [reflexivity |].
    intros p. now rewrite Hzero.
  - destruct (Hnumber false 0 None) as (r1 & s1 & Hhas & Hext & Hget).
    exists r1, s1. split; [exact Hhas |]. split; [exact Hext |].
    rewrite Hget, filter_all; [reflexivity |].
    intros p. now rewrite Hzero.
Qed.

Lemma has_count_needs_a_related_record_witness :
  length (related Fixtures.blog_state "comments" "post_id" (VRef 2%nat)) = 0%nat
  /\ value_of
       ((let* r1 := has Fixtures.blog 1 "comments" (HasString "<") (Some 2)
                      (mk "posts" Fixtures.Post false [] (Query.new "posts")) in
         get Fixtures.blog 1 r1) Fixtures.blog_state)
     = Some [Plain (VRef 1%nat)]
  /\ value_of
       ((let* r1 := has Fixtures.blog 1 "comments" (HasString ">=") (Some 2)
                      (mk "posts" Fixtures.Post false [] (Query.new "posts")) in
         get Fixtures.blog 1 r1) Fixtures.blog_state)
     = Some [Plain (VRef 0%nat)]
  /\ exists r1 s1,
      has Fixtures.blog 1 "comments" (HasNumber 0) None
        (mk "posts" Fixtures.Post false [] (Query.new "posts")) Fixtures.blog_state
      = Ok r1 s1
      /\ extends Fixtures.blog_state s1
      /\ get Fixtures.blog 1 r1 s1 = Ok [] s1.
Proof.
  split; [reflexivity |].
  split; [vm_compute; reflexivity |].
  split; [vm_compute; reflexivity |].
  refine (proj1 (proj2 (proj2 (has_count_needs_a_related_record Fixtures.blog 0 "posts"
                                 Fixtures.Post false Fixtures.CommentClass Fixtures.Comment
                                 "post_id" "comments" Fixtures.blog_state _ _ _ _ _ _))));
    reflexivity.
Defined.

Lemma has_constraint_operator_alone (op : string) :
  op <> EmptyString -> has_constraint (HasString op) None = Some NotCallable.
Proof.
  intros Hop. destruct op as [| a op]; [congruence |]. clear Hop.
  destruct a as [b0 b1 b2 b3 b4 b5 b6 b7].
  destruct b0, b1, b2, b3, b4, b5, b6, b7; try reflexivity;
    (destruct op as [| a' op]; [reflexivity |];
     destruct a' as [c0 c1 c2 c3 c4 c5 c6 c7];
     destruct c0, c1, c2, c3, c4, c5, c6, c7; try reflexivity;
     destruct op; reflexivity).
Qed.

Lemma hasRelation_not_callable (env : Env) (n : nat) (r : t) (c : Class.t) (m : Model)
    (fk rel : string) (arg : HasArg) (count : option Z) (p : Value) (s : State) :
  field_lookup (fields (entity r)) rel = Some (FAttr (HasMany (ByClass c) fk)) ->
  registry env !! Class.entity c = Some m ->
  split rel = [rel] ->
  has_constraint arg count = Some NotCallable ->
  hasRelation env n r p rel arg count s = Throw TypeError.
Proof.
  intros Hfield Hm Hsplit Hcon. unfold hasRelation. rewrite Hcon.
  apply bind_throw. unfold loadRelations. cbn [loadRelationsIn truthy].
  rewrite (bind_ok _ _ _ _ _
             (eq_refl : spread p s
                        = Ok (VRef (length (heap s)))
                            (set_heap (heap s ++ [ORecord (props s p)]) s))).
  cbn [reduce rel_name]. rewrite Hsplit. cbn [hd]. rewrite Hfield.
  apply bind_throw. apply bind_throw. cbn [loadAttr]. apply bind_throw.
  unfold loadHasManyRelation.
  rewrite (bind_ok _ _ _ _ _ (eq_refl : resolveRelation env (ByClass c) _ = Ok c _)).
  rewrite (bind_ok _ _ _ _ _ (new_ok env _ false _ m Hm)).
  set (s1 := set_heap _ s).
  destruct (nullish p) eqn:Hnull.
  - apply bind_throw. unfold getProp. now rewrite Hnull.
  - rewrite (bind_ok _ _ _ _ _ (getProp_ok p "id" s1 Hnull)).
    apply bind_throw. unfold addConstraint. cbn [rel_name rel_constraint].
    rewrite Hsplit. reflexivity.
Qed.

(** X20: A comparison operator given to [has] or [hasNot] without a count is
    taken for the constraint function and called: for a has-many
    relation and a table that is not empty, the call throws a
    [TypeError] at the first record. *)
Theorem has_operator_without_count_throws (env : Env) (n : nat) (posts : string)
    (Post : Model) (w : bool) (c : Class.t) (m : Model) (fk rel op : string)
    (existence : bool) (key : string) (p : Value) (rest : Table) (s : State) :
  registry env !! posts = Some Post ->
  field_lookup (fields Post) rel = Some (FAttr (HasMany (ByClass c) fk)) ->
  registry env !! Class.entity c = Some m ->
  split rel = [rel] ->
  op <> EmptyString ->
  table s posts = (key, p) :: rest ->
  addHasConstraint env n rel (HasString op) None existence
    (mk posts Post w [] (Query.new posts)) s
  = Throw TypeError.
Proof.
  intros Hposts Hfield Hm Hsplit Hop Htable. unfold addHasConstraint.
  assert (Hkey : primaryKey env (mk posts Post w [] (Query.new posts)) s
                 = Ok (Class.primaryKey (class Post)) s).
  { unfold primaryKey, model. cbn [name]. rewrite Hposts. reflexivity. }
  rewrite (bind_ok _ _ _ _ _ Hkey).
  rewrite (bind_ok _ _ _ _ _ (eq_refl : get_state s = Ok s s)).
  apply bind_throw. cbn [name]. unfold Query.new. rewrite query_get_unordered.
  rewrite filter_all by reflexivity. rewrite Htable. cbn [map snd reduce].
  apply bind_throw. apply bind_throw.
  apply (hasRelation_not_callable env n _ c m fk rel); try assumption.
  now apply has_constraint_operator_alone.
Qed.

Lemma has_operator_without_count_throws_witness :
  has Fixtures.blog 1 "comments" (HasString ">=") None
    (mk "posts" Fixtures.Post true [] (Query.new "posts")) Fixtures.blog_state
  = Throw TypeError.
Proof.
  apply (has_operator_without_count_throws Fixtures.blog 1 "posts" Fixtures.Post true
           Fixtures.CommentClass Fixtures.Comment "post_id" "comments" ">=" true
           "1" (VRef 0%nat) [("2", VRef 1%nat); ("3", VRef 2%nat)] Fixtures.blog_state);
    [reflexivity | reflexivity | reflexivity | reflexivity | discriminate | reflexivity].
Defined.

(** ** What [create] and [insert] store *)

Lemma filled_above_extends (schema : Field) (s0 s s' : State) (dv : Value) (r : loc) :
  extends s s' -> filled_above s0 s schema dv r -> filled_above s0 s' schema dv r.
Proof.
  intros (_ & _ & Hun). apply filled_above_stable. intros l _ Hl. now apply Hun.
Qed.

Lemma fill_one (env : Env) (e : string) (m : Model) (rec : Value) (s0 s : State) :
  registry env !! e = Some m ->
  unique_keys (FFields (fields m)) = true ->
  well_formed s0 = true ->
  allocated s0 rec = true ->
  nullish rec = false ->
  extends s0 s ->
  exists s',
    fill env rec e s = Ok (VRef (length (heap s))) s'
    /\ extends s s'
    /\ filled_above s0 s' (FFields (fields m)) rec (length (heap s)).
Proof.
  intros Hm Huniq Hwf Halloc Hnull Hext.
  destruct (builds_every_schema (FFields (fields m)) s0 s rec rec)
    as (s' & Hbuild & Htab & Hlen & Hun & Hfilled); try assumption.
  - destruct Hext as (_ & H & _). exact H.
  - destruct Hext as (_ & _ & H). exact H.
  - destruct Hext as (_ & H & _). now apply (allocated_mono s0).
  - intros k. unfold prop. now rewrite (props_extends s0 s rec Hext Halloc).
  - exists s'. split; [| split; [| exact Hfilled]].
    + unfold fill, model. rewrite Hm. exact Hbuild.
    + split; [exact Htab |]. split; [lia | exact Hun].
Qed.



(** ** Relation loading terminates *)

Lemma returns_ret {A} (a : A) : returns (ret a).
Proof. intros s. discriminate. Qed.

Lemma returns_throw {A} (e : Error) : returns (@throw A e).
Proof. intros s. discriminate. Qed.

Lemma returns_bind {A B} (m : M A) (k : A -> M B) (Q : A -> Prop) :
  returns m ->
  (forall s a s', m s = Ok a s' -> Q a) ->
  (forall a, Q a -> returns (k a)) ->
  returns (bind m k).
Proof.
  intros Hm HQ Hk s. unfold bind. destruct (m s) as [a s' | e |] eqn:E.
  - apply Hk. eapply HQ; eauto.
  - discriminate.
  - now apply Hm in E.
Qed.

Lemma returns_bind_any {A B} (m : M A) (k : A -> M B) :
  returns m -> (forall a, returns (k a)) -> returns (bind m k).
Proof. intros Hm Hk. apply (returns_bind m k (fun _ => True)); auto. Qed.

Lemma returns_getProp (v : Value) (k : string) : returns (getProp v k).
Proof. intros s. unfold getProp. destruct (nullish v); discriminate. Qed.

Lemma returns_setProp (v : Value) (k : string) (x : Value) : returns (setProp v k x).
Proof.
  intros s. unfold setProp. destruct v as [| | | | | l]; try discriminate.
  destruct (heap s !! l) as [[ps | xs] |]; discriminate.
Qed.

Lemma returns_alloc (o : Obj) : returns (alloc o).
Proof. intros s. discriminate. Qed.

Lemma returns_spread (base : Value) : returns (spread base).
Proof. intros s. discriminate. Qed.

Lemma returns_elements (v : Value) : returns (elements v).
Proof.
  intros s. unfold elements. destruct v as [| | | | | l]; try discriminate.
  destruct (heap s !! l) as [[ps | xs] |]; discriminate.
Qed.

Lemma returns_mapM {A B} (f : A -> M B) (l : list A) :
  (forall x, returns (f x)) -> returns (mapM f l).
Proof.
  intros Hf. induction l as [| x l IH]; cbn [mapM]; [apply returns_ret |].
  apply returns_bind_any; [apply Hf | intros y].
  apply returns_bind_any; [apply IH | intros ys; apply returns_ret].
Qed.

Lemma returns_forEach {A} (f : A -> M unit) (l : list A) :
  Forall (fun x => returns (f x)) l -> returns (forEach f l).
Proof.
  induction 1 as [| x l Hx _ IH]; cbn [forEach]; [apply returns_ret |].
  apply returns_bind_any; [exact Hx | intros _; exact IH].
Qed.

Lemma returns_reduce {A B} (f : B -> A -> M B) (l : list A) :
  Forall (fun x => forall acc, returns (f acc x)) l ->
  forall acc, returns (reduce f l acc).
Proof.
  induction 1 as [| x l Hx _ IH]; intros acc; cbn [reduce]; [apply returns_ret |].
  apply returns_bind_any; [apply Hx | intros acc'; apply IH].
Qed.

Lemma returns_new (env : Env) (e : string) (w : bool) : returns (new env e w).
Proof.
  unfold new, model. destruct (registry env !! e).
  - apply returns_bind_any; [apply returns_ret | intros; apply returns_ret].
  - apply returns_bind_any; [apply returns_throw | intros; apply returns_ret].
Qed.

Lemma returns_resolveRelation (env : Env) (m : RelModel) :
  returns (resolveRelation env m).
Proof.
  destruct m as [c | name]; cbn; [apply returns_ret |].
  destruct (global_name env) as [g |]; [| apply returns_throw].
  unfold model. destruct (registry env !! g).
  - apply returns_bind_any; [apply returns_ret | intros; apply returns_ret].
  - apply returns_bind_any; [apply returns_throw | intros; apply returns_ret].
Qed.

Lemma constraint_depth_script (calls : list Call) (result : Return) :
  constraint_depth (Script calls result)
  = foldr (fun c acc => Nat.max (call_depth c) acc) O calls.
Proof.
  cbn [constraint_depth]. induction calls as [| c calls IH]; [reflexivity |].
  cbn [foldr]. rewrite <- IH. destruct c; reflexivity.
Qed.

Lemma load_depth_snoc (l : list Relation) (rel : Relation) :
  load_depth (l ++ [rel]) = Nat.max (load_depth l) (relation_depth rel).
Proof.
  unfold load_depth. induction l as [| x l IH]; cbn [foldr app]; [lia |].
  rewrite IH. lia.
Qed.

Lemma load_depth_call (c : Call) (q : t) :
  load_depth (load (call c q)) = Nat.max (load_depth (load q)) (call_depth c).
Proof.
  destruct c; cbn [call where_ orWhere orderBy offset limit set_query load call_depth];
    try lia.
  cbn [with_ load]. now rewrite load_depth_snoc.
Qed.

Lemma load_depth_calls (calls : list Call) (q : t) :
  load_depth (load (foldl (fun q c => call c q) q calls))
  = Nat.max (load_depth (load q)) (foldr (fun c acc => Nat.max (call_depth c) acc) O calls).
Proof.
  revert q. induction calls as [| c calls IH]; intros q; cbn [foldl foldr]; [lia |].
  rewrite IH, load_depth_call. lia.
Qed.

Lemma load_depth_Forall (l : list Relation) (n : nat) :
  (load_depth l <= n)%nat <-> Forall (fun rel => (relation_depth rel <= n)%nat) l.
Proof.
  unfold load_depth. induction l as [| x l IH]; cbn [foldr].
  - split; [constructor | lia].
  - rewrite Forall_cons, <- IH. lia.
Qed.

Lemma split_join (l : list string) :
  l <> [] -> (forall seg, In seg l -> split seg = [seg]) -> split (join l) = l.
Proof.
  unfold join. induction l as [| a l IH]; intros Hne Hseg; [congruence |].
  destruct l as [| b l].
  - cbn [String.concat]. apply Hseg. now left.
  - change (String.concat "." (a :: b :: l))
      with (a +:+ String "."%char (String.concat "." (b :: l))).
    rewrite split_cons_dot by (apply Hseg; now left).
    f_equal. apply IH; [discriminate |]. intros seg Hin. apply Hseg. now right.
Qed.

Lemma relation_depth_rest (name a b : string) (rest : list string) :
  split name = a :: b :: rest ->
  relation_depth (mkRelation (join (b :: rest)) None) = length (b :: rest).
Proof.
  intros Hsplit. unfold relation_depth. cbn [rel_name rel_constraint option_depth].
  rewrite split_join; [lia | discriminate |].
  intros seg Hin. apply (split_segment name). rewrite Hsplit. now right.
Qed.

Section Terminates.

Variable env : Env.
Variable get_rec : t -> M (list Item).
Variable first_rec : t -> Value -> M Item.
Variable d : nat.
Hypothesis Hget : forall q, (load_depth (load q) <= d)%nat -> returns (get_rec q).
Hypothesis Hfirst :
  forall q id, (load_depth (load q) <= d)%nat -> returns (first_rec q id).

Lemma returns_apply_constraint (c : Constraint) (q : t) :
  (load_depth (load q) <= d)%nat ->
  (constraint_depth c <= d)%nat ->
  returns (apply_constraint get_rec c q).
Proof.
  intros Hq Hc. destruct c as [calls result |]; cbn [apply_constraint];
    [| apply returns_throw].
  destruct result as [| b | op k]; try apply returns_ret.
  apply returns_bind_any; [| intros [cnt q']; apply returns_ret].
  unfold count_with. apply returns_bind_any; [| intros xs; apply returns_ret].
  apply Hget. cbn [set_wrap load]. rewrite load_depth_calls.
  rewrite constraint_depth_script in Hc. lia.
Qed.

Lemma apply_constraint_depth (c : Constraint) (q q' : t) (b : option bool) (s s' : State) :
  (load_depth (load q) <= d)%nat ->
  (constraint_depth c <= d)%nat ->
  apply_constraint get_rec c q s = Ok (q', b) s' ->
  (load_depth (load q') <= d)%nat.
Proof.
  intros Hq Hc. destruct c as [calls result |]; cbn [apply_constraint]; [| discriminate].
  rewrite constraint_depth_script in Hc.
  assert (Hcalls : (load_depth (load (foldl (fun q c => call c q) q calls)) <= d)%nat).
  { rewrite load_depth_calls. lia. }
  destruct result as [| b0 | op k].
  - now intros [= <- _ _].
  - now intros [= <- _ _].
  - intros H. apply bind_inv in H as ([cnt q1] & s1 & H1 & H2).
    injection H2 as <- _ _.
    unfold count_with in H1. apply bind_inv in H1 as (xs & s2 & _ & H1).
    injection H1 as _ <- _. exact Hcalls.
Qed.

Lemma returns_addConstraint (q : t) (rel : Relation) :
  (load_depth (load q) <= d)%nat ->
  (relation_depth rel <= S d)%nat ->
  returns (addConstraint get_rec q rel).
Proof.
  intros Hq Hrel. unfold addConstraint, relation_depth in *.
  destruct (split (rel_name rel)) as [| a [| b rest]]; try apply returns_ret.
  destruct (rel_constraint rel) as [c |]; [| apply returns_ret].
  cbn [length option_depth] in Hrel.
  apply returns_bind_any; [apply returns_apply_constraint; [exact Hq | lia] |].
  intros [q' [b |]]; apply returns_ret.
Qed.

Lemma addConstraint_depth (q q' : t) (rel : Relation) (s s' : State) :
  (load_depth (load q) <= d)%nat ->
  (relation_depth rel <= S d)%nat ->
  addConstraint get_rec q rel s = Ok q' s' ->
  (load_depth (load q') <= d)%nat.
Proof.
  intros Hq Hrel. unfold addConstraint.
  destruct (split (rel_name rel)) as [| a [| b rest]] eqn:Hsplit.
  - now apply split_nonempty in Hsplit.
  - unfold relation_depth in Hrel. rewrite Hsplit in Hrel. cbn [length] in Hrel.
    destruct (rel_constraint rel) as [c |]; [| now intros [= <- _]].
    cbn [option_depth] in Hrel.
    intros H. apply bind_inv in H as ([q1 b] & s1 & H1 & H2).
    apply apply_constraint_depth in H1; [| exact Hq | lia].
    destruct b; injection H2 as <- _; exact H1.
  - intros [= <- _]. cbn [tail with_ load]. rewrite load_depth_snoc.
    rewrite (relation_depth_rest _ _ _ _ Hsplit).
    unfold relation_depth in Hrel. rewrite Hsplit in Hrel. cbn [length] in Hrel |- *. lia.
Qed.

Lemma returns_nested (B : Type) (c : Query.Clause) (q : t) (rel : Relation)
    (k : t -> M B) :
  load q = [] ->
  (relation_depth rel <= S d)%nat ->
  (forall q', (load_depth (load q') <= d)%nat -> returns (k q')) ->
  returns (bind (addConstraint get_rec (where_ c q) rel) k)
  /\ returns (bind (addConstraint get_rec q rel) k).
Proof.
  intros Hq Hrel Hk.
  assert (H0 : (load_depth (load q) <= d)%nat) by (rewrite Hq; cbn; lia).
  split.
  - apply (returns_bind _ _ (fun q' => (load_depth (load q') <= d)%nat)).
    + now apply returns_addConstraint.
    + intros s q' s' H.
      exact (addConstraint_depth (where_ c q) q' rel s s' H0 Hrel H).
    + exact Hk.
  - apply (returns_bind _ _ (fun q' => (load_depth (load q') <= d)%nat)).
    + now apply returns_addConstraint.
    + intros s q' s' H. exact (addConstraint_depth q q' rel s s' H0 Hrel H).
    + exact Hk.
Qed.

Lemma returns_fresh (B : Type) (e : string) (k : t -> M B) :
  (forall q, load q = [] -> returns (k q)) ->
  returns (bind (new env e false) k).
Proof.
  intros Hk. apply (returns_bind _ _ (fun q => load q = [])).
  - apply returns_new.
  - intros s q s' H. apply new_inv in H as (_ & m & _ & ->). reflexivity.
  - exact Hk.
Qed.

Lemma returns_loadAttr (base : Value) (a : Attr) (rel : Relation) :
  (relation_depth rel <= S d)%nat ->
  returns (loadAttr env get_rec first_rec base a rel).
Proof.
  intros Hrel.
  destruct a as [v | m fk | m fk | m fk | m fk ok]; cbn [loadAttr];
    [apply returns_ret | | | |];
    (apply returns_bind_any; [| intros; apply returns_ret]).
  - unfold loadHasOneRelation.
    apply returns_bind_any; [apply returns_resolveRelation | intros c].
    apply returns_fresh. intros q Hq.
    apply returns_bind_any; [apply returns_getProp | intros id].
    apply (returns_nested _ (Query.WhereEq fk id) q rel); [exact Hq | exact Hrel |].
    intros q' Hq'. apply returns_bind_any; [now apply Hfirst |].
    intros i. apply returns_ret.
  - unfold loadBelongsToRelation.
    apply returns_bind_any; [apply returns_resolveRelation | intros c].
    apply returns_bind_any; [apply returns_getProp | intros id].
    apply returns_fresh. intros q Hq.
    apply (returns_nested _ (Query.WhereEq fk id) q rel); [exact Hq | exact Hrel |].
    intros q' Hq'. apply returns_bind_any; [now apply Hfirst |].
    intros i. apply returns_ret.
  - unfold loadHasManyRelation.
    apply returns_bind_any; [apply returns_resolveRelation | intros c].
    apply returns_fresh. intros q Hq.
    apply returns_bind_any; [apply returns_getProp | intros id].
    apply (returns_nested _ (Query.WhereEq fk id) q rel); [exact Hq | exact Hrel |].
    intros q' Hq'. apply returns_bind_any; [now apply Hget |].
    intros xs. apply returns_alloc.
  - unfold loadHasManyByRelation.
    apply returns_bind_any; [apply returns_resolveRelation | intros c].
    apply returns_bind_any; [apply returns_getProp | intros keys].
    apply returns_bind_any; [apply returns_elements | intros ids].
    apply returns_bind_any; [| intros; apply returns_alloc].
    apply returns_mapM. intros id.
    apply returns_fresh. intros q Hq.
    apply (returns_nested _ (Query.WhereEq ok id) q rel); [exact Hq | exact Hrel |].
    intros q' Hq'. apply returns_bind_any; [now apply Hfirst |].
    intros i. apply returns_ret.
Qed.

End Terminates.

Lemma relation_depth_positive (rel : Relation) : (1 <= relation_depth rel)%nat.
Proof.
  unfold relation_depth. destruct (split (rel_name rel)) eqn:E.
  - now apply split_nonempty in E.
  - cbn [length]. lia.
Qed.

Lemma returns_loadRelationsIn (env : Env) (get_rec : t -> M (list Item))
    (first_rec : t -> Value -> M Item) (n : nat) :
  (forall base a rel, (relation_depth rel <= n)%nat ->
                      returns (loadAttr env get_rec first_rec base a rel)) ->
  forall (schema : Field) (base : Value) (load : list Relation) (record : Value),
    (load_depth load <= n)%nat ->
    returns (loadRelationsIn env get_rec first_rec schema base load record).
Proof.
  intros Hattr schema.
  induction schema as [a | fs IH] using Field_nested_ind; intros base load record Hload;
    cbn [loadRelationsIn].
  - apply returns_bind_any; [| intros; apply returns_throw].
    destruct (truthy record); [apply returns_ret | apply returns_spread].
  - apply returns_bind_any.
    { destruct (truthy record); [apply returns_ret | apply returns_spread]. }
    intros _record. apply returns_reduce.
    pose proof (proj1 (load_depth_Forall load n) Hload) as Hall.
    eapply Forall_impl; [exact Hall |]. intros rel Hrel acc. cbv beta zeta.
    assert (Hgroups :
      returns
        (forEach
           (fun '(key, f) =>
              match f with
              | FFields sub =>
                  if has_field sub (hd EmptyString (split (rel_name rel))) then
                    let* nested := getProp acc key in
                    let* v := loadRelationsIn env get_rec first_rec f base load nested in
                    setProp acc key v
                  else if inherited_property (hd EmptyString (split (rel_name rel)))
                       then throw Unmodelled
                  else ret tt
              | FAttr _ =>
                  if descriptor_property (hd EmptyString (split (rel_name rel)))
                     || inherited_property (hd EmptyString (split (rel_name rel)))
                  then throw Unmodelled
                  else ret tt
              end) fs)).
    { apply returns_forEach. eapply Forall_impl; [exact IH |].
      intros [key f] Hf. cbn [snd] in Hf. destruct f as [a | sub].
      { destruct (_ || _); [apply returns_throw | apply returns_ret]. }
      destruct (has_field sub _);
        [| destruct (inherited_property _); [apply returns_throw | apply returns_ret]].
      apply returns_bind_any; [apply returns_getProp | intros nested].
      apply returns_bind_any; [now apply Hf | intros v; apply returns_setProp]. }
    destruct (field_lookup fs _) as [[attr | sub] |].
    + apply returns_bind_any; [now apply Hattr |].
      intros [v |]; [| apply returns_ret].
      apply returns_bind_any; [apply returns_setProp | intros; apply returns_ret].
    + apply returns_bind_any; [exact Hgroups | intros; apply returns_ret].
    + apply returns_bind_any; [exact Hgroups | intros; apply returns_ret].
Qed.

Lemma get_S (env : Env) (n : nat) (r : t) (s : State) :
  get env (S n) r s
  = collect env (get env n) (first env n) r (Query.get (query r) s) s.
Proof. reflexivity. Qed.

Lemma first_S (env : Env) (n : nat) (r : t) (id : Value) (s : State) :
  first env (S n) r id s
  = item env (get env n) (first env n) r (Query.first (query r) id s) s.
Proof. reflexivity. Qed.

Lemma returns_get_first (env : Env) (n : nat) :
  forall r, (load_depth (load r) <= n)%nat ->
            returns (get env (S n) r) /\ forall id, returns (first env (S n) r id).
Proof.
  induction n as [| n IH]; intros r Hr.
  - assert (Hattr : forall base a rel,
               (relation_depth rel <= 0)%nat ->
               returns (loadAttr env (get env 0) (first env 0) base a rel)).
    { intros base a rel H. pose proof (relation_depth_positive rel). lia. }
    split; [| intros id]; intros s; [rewrite get_S | rewrite first_S].
    + unfold collect. destruct (Query.get (query r) s); [discriminate |].
      apply returns_bind_any; [| intros items; destruct (negb (wrap r)); apply returns_ret].
      destruct (load r); [apply returns_ret |].
      apply returns_mapM. intros data.
      now apply (returns_loadRelationsIn env _ _ 0 Hattr).
    + unfold item. destruct (negb (truthy _)); [discriminate |].
      apply returns_bind_any; [| intros it; destruct (negb (wrap r)); apply returns_ret].
      destruct (load r); [apply returns_ret |].
      now apply (returns_loadRelationsIn env _ _ 0 Hattr).
  - assert (Hattr : forall base a rel,
               (relation_depth rel <= S n)%nat ->
               returns (loadAttr env (get env (S n)) (first env (S n)) base a rel)).
    { intros base a rel H. apply (returns_loadAttr env _ _ n); [| | exact H].
      - intros q Hq. now apply IH.
      - intros q id Hq. now apply IH. }
    split; [| intros id]; intros s; [rewrite get_S | rewrite first_S].
    + unfold collect. destruct (Query.get (query r) s); [discriminate |].
      apply returns_bind_any; [| intros items; destruct (negb (wrap r)); apply returns_ret].
      destruct (load r); [apply returns_ret |].
      apply returns_mapM. intros data.
      now apply (returns_loadRelationsIn env _ _ (S n) Hattr).
    + unfold item. destruct (negb (truthy _)); [discriminate |].
      apply returns_bind_any; [| intros it; destruct (negb (wrap r)); apply returns_ret].
      destruct (load r); [apply returns_ret |].
      now apply (returns_loadRelationsIn env _ _ (S n) Hattr).
Qed.

Lemma refines_refl {A} (m : M A) : refines m m.
Proof. intros s _. reflexivity. Qed.

Lemma refines_trans {A} (m1 m2 m3 : M A) :
  refines m1 m2 -> refines m2 m3 -> refines m1 m3.
Proof.
  intros H12 H23 s H. rewrite <- (H12 s H). apply H23. now rewrite (H12 s H).
Qed.

Lemma refines_bind {A B} (m m' : M A) (k k' : A -> M B) :
  refines m m' -> (forall a, refines (k a) (k' a)) -> refines (bind m k) (bind m' k').
Proof.
  intros Hm Hk s H. unfold bind in *.
  destruct (m s) as [a s1 | e |] eqn:E; [| | congruence].
  - rewrite (Hm s) by congruence. rewrite E. now apply Hk.
  - rewrite (Hm s) by congruence. now rewrite E.
Qed.

Lemma refines_mapM {A B} (f f' : A -> M B) (l : list A) :
  (forall x, refines (f x) (f' x)) -> refines (mapM f l) (mapM f' l).
Proof.
  intros Hf. induction l as [| x l IH]; cbn [mapM]; [apply refines_refl |].
  apply refines_bind; [apply Hf | intros y].
  apply refines_bind; [apply IH | intros ys; apply refines_refl].
Qed.

Lemma refines_forEach {A} (f f' : A -> M unit) (l : list A) :
  Forall (fun x => refines (f x) (f' x)) l -> refines (forEach f l) (forEach f' l).
Proof.
  induction 1 as [| x l Hx _ IH]; cbn [forEach]; [apply refines_refl |].
  apply refines_bind; [exact Hx | intros _; exact IH].
Qed.

Lemma refines_reduce {A B} (f f' : B -> A -> M B) (l : list A) :
  (forall acc x, refines (f acc x) (f' acc x)) ->
  forall acc, refines (reduce f l acc) (reduce f' l acc).
Proof.
  intros Hf. induction l as [| x l IH]; intros acc; cbn [reduce]; [apply refines_refl |].
  apply refines_bind; [apply Hf | intros acc'; apply IH].
Qed.

Section Fuel.

Variable env : Env.
Variables get_rec get_rec' : t -> M (list Item).
Variables first_rec first_rec' : t -> Value -> M Item.
Hypothesis Hget : forall q, refines (get_rec q) (get_rec' q).
Hypothesis Hfirst : forall q id, refines (first_rec q id) (first_rec' q id).

Lemma refines_apply_constraint (c : Constraint) (q : t) :
  refines (apply_constraint get_rec c q) (apply_constraint get_rec' c q).
Proof.
  destruct c as [calls result |]; cbn [apply_constraint]; [| apply refines_refl].
  destruct result as [| b | op k]; try apply refines_refl.
  apply refines_bind; [| intros [cnt q']; apply refines_refl].
  unfold count_with. apply refines_bind; [apply Hget | intros xs; apply refines_refl].
Qed.

Lemma refines_addConstraint (q : t) (rel : Relation) :
  refines (addConstraint get_rec q rel) (addConstraint get_rec' q rel).
Proof.
  unfold addConstraint.
  destruct (split (rel_name rel)) as [| a [| b rest]]; try apply refines_refl.
  destruct (rel_constraint rel) as [c |]; [| apply refines_refl].
  apply refines_bind; [apply refines_apply_constraint |].
  intros [q' [b |]]; apply refines_refl.
Qed.

Lemma refines_loadAttr (base : Value) (a : Attr) (rel : Relation) :
  refines (loadAttr env get_rec first_rec base a rel)
    (loadAttr env get_rec' first_rec' base a rel).
Proof.
  destruct a as [v | m fk | m fk | m fk | m fk ok]; cbn [loadAttr];
    [apply refines_refl | | | |];
    (apply refines_bind; [| intros; apply refines_refl]).
  - unfold loadHasOneRelation.
    apply refines_bind; [apply refines_refl | intros c].
    apply refines_bind; [apply refines_refl | intros q].
    apply refines_bind; [apply refines_refl | intros id].
    apply refines_bind; [apply refines_addConstraint | intros q'].
    apply refines_bind; [apply Hfirst | intros i; apply refines_refl].
  - unfold loadBelongsToRelation.
    apply refines_bind; [apply refines_refl | intros c].
    apply refines_bind; [apply refines_refl | intros id].
    apply refines_bind; [apply refines_refl | intros q].
    apply refines_bind; [apply refines_addConstraint | intros q'].
    apply refines_bind; [apply Hfirst | intros i; apply refines_refl].
  - unfold loadHasManyRelation.
    apply refines_bind; [apply refines_refl | intros c].
    apply refines_bind; [apply refines_refl | intros q].
    apply refines_bind; [apply refines_refl | intros id].
    apply refines_bind; [apply refines_addConstraint | intros q'].
    apply refines_bind; [apply Hget | intros xs; apply refines_refl].
  - unfold loadHasManyByRelation.
    apply refines_bind; [apply refines_refl | intros c].
    apply refines_bind; [apply refines_refl | intros keys].
    apply refines_bind; [apply refines_refl | intros ids].
    apply refines_bind; [| intros; apply refines_refl].
    apply refines_mapM. intros id.
    apply refines_bind; [apply refines_refl | intros q].
    apply refines_bind; [apply refines_addConstraint | intros q'].
    apply refines_bind; [apply Hfirst | intros i; apply refines_refl].
Qed.

Lemma refines_loadRelationsIn (schema : Field) :
  forall (base : Value) (load : list Relation) (record : Value),
    refines (loadRelationsIn env get_rec first_rec schema base load record)
      (loadRelationsIn env get_rec' first_rec' schema base load record).
Proof.
  induction schema as [a | fs IH] using Field_nested_ind; intros base load record;
    cbn [loadRelationsIn]; [apply refines_refl |].
  apply refines_bind; [apply refines_refl | intros _record].
  apply refines_reduce. intros acc rel. cbv beta zeta.
  assert (Hgroups :
    refines
      (forEach
         (fun '(key, f) =>
            match f with
            | FFields sub =>
                if has_field sub (hd EmptyString (split (rel_name rel))) then
                  let* nested := getProp acc key in
                  let* v := loadRelationsIn env get_rec first_rec f base load nested in
                  setProp acc key v
                else if inherited_property (hd EmptyString (split (rel_name rel)))
                     then throw Unmodelled
                else ret tt
            | FAttr _ =>
                if descriptor_property (hd EmptyString (split (rel_name rel)))
                   || inherited_property (hd EmptyString (split (rel_name rel)))
                then throw Unmodelled
                else ret tt
            end) fs)
      (forEach
         (fun '(key, f) =>
            match f with
            | FFields sub =>
                if has_field sub (hd EmptyString (split (rel_name rel))) then
                  let* nested := getProp acc key in
                  let* v := loadRelationsIn env get_rec' first_rec' f base load nested in
                  setProp acc key v
                else if inherited_property (hd EmptyString (split (rel_name rel)))
                     then throw Unmodelled
                else ret tt
            | FAttr _ =>
                if descriptor_property (hd EmptyString (split (rel_name rel)))
                   || inherited_property (hd EmptyString (split (rel_name rel)))
                then throw Unmodelled
                else ret tt
            end) fs)).
  { apply refines_forEach. eapply Forall_impl; [exact IH |].
    intros [key f] Hf. cbn [snd] in Hf. destruct f as [a | sub]; [apply refines_refl |].
    destruct (has_field sub _); [| apply refines_refl].
    apply refines_bind; [apply refines_refl | intros nested].
    apply refines_bind; [apply Hf | intros v; apply refines_refl]. }
  destruct (field_lookup fs _) as [[attr | sub] |].
  - apply refines_bind; [apply refines_loadAttr | intros; apply refines_refl].
  - apply refines_bind; [exact Hgroups | intros; apply refines_refl].
  - apply refines_bind; [exact Hgroups | intros; apply refines_refl].
Qed.

Lemma refines_collect (r : t) (collection : list Value) :
  refines (collect env get_rec first_rec r collection)
    (collect env get_rec' first_rec' r collection).
Proof.
  unfold collect. destruct collection as [| x l]; [apply refines_refl |].
  apply refines_bind; [| intros; apply refines_refl].
  destruct (load r); [apply refines_refl |].
  apply refines_mapM. intros data. apply refines_loadRelationsIn.
Qed.

Lemma refines_item (r : t) (queryItem : Value) :
  refines (item env get_rec first_rec r queryItem)
    (item env get_rec' first_rec' r queryItem).
Proof.
  unfold item. destruct (negb (truthy queryItem)); [apply refines_refl |].
  apply refines_bind; [| intros; apply refines_refl].
  destruct (load r); [apply refines_refl |]. apply refines_loadRelationsIn.
Qed.

End Fuel.

Lemma more_fuel_step (env : Env) (n : nat) :
  forall r, refines (get env n r) (get env (S n) r)
            /\ forall id, refines (first env n r id) (first env (S n) r id).
Proof.
  induction n as [| n IH]; intros r.
  - split; [| intros id]; intros s H; now destruct H.
  - split; [| intros id]; intros s H.
    + rewrite (get_S env (S n)). rewrite get_S in H |- *.
      apply (refines_collect env (get env n) (get env (S n)) (first env n)
               (first env (S n))); [intros q; apply IH | intros q i; apply IH | exact H].
    + rewrite (first_S env (S n)). rewrite first_S in H |- *.
      apply (refines_item env (get env n) (get env (S n)) (first env n)
               (first env (S n))); [intros q; apply IH | intros q i; apply IH | exact H].
Qed.

Lemma more_fuel (env : Env) (n m : nat) (r : t) (id : Value) :
  (n <= m)%nat ->
  refines (get env n r) (get env m r) /\ refines (first env n r id) (first env m r id).
Proof.
  induction 1 as [| m _ [IHg IHf]]; [split; apply refines_refl |].
  split; eapply refines_trans; eauto; apply more_fuel_step.
Qed.


